(** * add_qufirewall_rules: the rule-block reorderer of a QuFirewall CSV export

    A shallow embedding of [add_qufirewall_rules.py].  Python values decoded
    from JSON are a tree type; the rule objects of the top-level list live in
    a store and are named by location, because the script puts one object in
    several places of a list and then assigns to its ["id"] key. *)

From Stdlib Require Import ZArith String Ascii SpecFloat.
From stdpp Require Import base option list gmap.

Set Warnings "-register-all".
Local Open Scope Z_scope.
Local Open Scope list_scope.

(** ** Python strings *)

(** A Python [str] is a sequence of Unicode code points. *)
Abbreviation pystr := (list N).

Definition py (s : string) : pystr :=
  (fun a => N_of_ascii a) <$> list_ascii_of_string s.
Arguments py : simpl never.

(** [str.isspace] for one code point (the table of CPython's
    [_PyUnicode_IsWhitespace]). *)
Definition is_space (c : N) : bool :=
  ((9 <=? c) && (c <=? 13) || (28 <=? c) && (c <=? 32)
   || (c =? 133) || (c =? 160) || (c =? 5760)
   || (8192 <=? c) && (c <=? 8202)
   || (c =? 8232) || (c =? 8233) || (c =? 8239) || (c =? 8287)
   || (c =? 12288))%N.

Fixpoint lstrip (s : pystr) : pystr :=
  match s with
  | [] => []
  | c :: s' => if is_space c then lstrip s' else s
  end.

Fixpoint rstrip (s : pystr) : pystr :=
  match s with
  | [] => []
  | c :: s' =>
      match rstrip s' with
      | [] => if is_space c then [] else [c]
      | r => c :: r
      end
  end.

(** [s.strip()] *)
Definition strip (s : pystr) : pystr := rstrip (lstrip s).

(** [s.startswith(p)] *)
Fixpoint startswith (s p : pystr) : bool :=
  match p, s with
  | [], _ => true
  | _ :: _, [] => false
  | a :: p', b :: s' => bool_decide (a = b) && startswith s' p'
  end.

(** ** Values decoded from JSON *)

Inductive value :=
  | VNone
  | VBool (b : bool)
  | VInt (z : Z)
  | VFloat (f : spec_float)
  | VStr (s : pystr)
  | VList (l : list value)
  | VDict (d : list (pystr * value)).

(** A Python [dict] keeps its keys in insertion order, which is the order
    [json.dumps] writes them in. *)
Abbreviation pydict := (list (pystr * value)).

Fixpoint dict_get (d : pydict) (k : pystr) : option value :=
  match d with
  | [] => None
  | (k', v) :: d' => if decide (k' = k) then Some v else dict_get d' k
  end.

(** [d[k] = v]: an existing key keeps its place, a new key goes last. *)
Fixpoint dict_set (d : pydict) (k : pystr) (v : value) : pydict :=
  match d with
  | [] => [(k, v)]
  | (k', v') :: d' =>
      if decide (k' = k) then (k', v) :: d' else (k', v') :: dict_set d' k v
  end.

Definition is_dict (v : value) : bool :=
  match v with VDict _ => true | _ => false end.

(** The fields of a rule other than its id. *)
Definition without_id (d : pydict) : pydict :=
  filter (fun kv => kv.1 <> py "id") d.

(** The id a rule carries, if any. *)
Definition rule_id (v : value) : option value :=
  match v with VDict d => dict_get d (py "id") | _ => None end.

(** ** Errors *)

Inductive error :=
  | ValueError (msg : pystr)
  | IndexError
  | FileNotFoundError (msg : pystr)
  | CsvError (msg : pystr)
  | UnicodeEncodeError
  | RecursionError.

(** [isinstance(e, ValueError)]: the errors that [except ValueError]
    catches ([UnicodeError] is a subclass of [ValueError]). *)
Definition is_ValueError (e : error) : bool :=
  match e with
  | ValueError _ | UnicodeEncodeError => true
  | _ => false
  end.

Inductive result (A : Type) :=
  | Ok (a : A)
  | Raise (e : error).
Arguments Ok {A} a.
Arguments Raise {A} e.

#[global] Instance result_bind : MBind result :=
  fun A B k m =>
    match m with
    | Ok a => k a
    | Raise e => Raise e
    end.

#[global] Instance result_ret : MRet result := fun A a => Ok a.

(** [l[i]] for a non-negative index. *)
Definition getitem {A} (l : list A) (i : nat) : result A :=
  match l !! i with
  | Some a => Ok a
  | None => Raise IndexError
  end.

(** [l.index(x)]: the position of the first occurrence. *)
Fixpoint index (l : list pystr) (x : pystr) : option nat :=
  match l with
  | [] => None
  | y :: l' => if decide (y = x) then Some 0%nat else S <$> index l' x
  end.

(** ** Rules and the store *)

(** [build_allow_rule(src_ip, next_id)] *)
Definition build_allow_rule (src_ip : pystr) (next_id : Z) : pydict :=
  [ (py "enable", VInt 1);
    (py "protocol", VStr (py "Any"));
    (py "permission", VStr (py "Allow"));
    (py "interface_warning", VInt 0);
    (py "port_option", VStr (py "Any"));
    (py "src_ip", VStr src_ip);
    (py "interface", VStr (py "All"));
    (py "display_name", VStr (py "All"));
    (py "id", VInt next_id) ].

(** [int(f)] for a float: truncation toward zero; [nan] and the infinities
    raise. *)
Definition int_of_float (f : spec_float) : option Z :=
  match f with
  | S754_zero _ => Some 0
  | S754_infinity _ => None
  | S754_nan => None
  | S754_finite s m e =>
      let a := if (0 <=? e) then Z.shiftl (Z.pos m) e
               else Z.shiftr (Z.pos m) (- e) in
      Some (if s then - a else a)
  end.

(** The dict objects of a decoded list are named by their location in the
    store; an item that is not a dict is carried as it is. *)
Inductive ref :=
  | RObj (l : nat)
  | RVal (v : value).

Abbreviation store := (list pydict).

Definition deref (h : store) (r : ref) : value :=
  match r with
  | RObj l => from_option VDict VNone (h !! l)
  | RVal v => v
  end.

(** The objects [json.loads] creates for the items of a list. *)
Definition alloc_item (acc : store * list ref) (v : value) : store * list ref :=
  match v with
  | VDict d => (acc.1 ++ [d], acc.2 ++ [RObj (length acc.1)])
  | _ => (acc.1, acc.2 ++ [RVal v])
  end.

Definition alloc (vs : list value) : store * list ref :=
  foldl alloc_item ([], []) vs.

(** [r["id"] = n] *)
Definition set_id (h : store) (l : nat) (n : Z) : store :=
  alter (fun d => dict_set d (py "id") (VInt n)) l h.

(** [rule["src_ip"].strip()] when [rule] is a dict whose ["src_ip"] is a
    [str]. *)
Definition src_ip_key (v : value) : option pystr :=
  match v with
  | VDict d =>
      match dict_get d (py "src_ip") with
      | Some (VStr s) => Some (strip s)
      | _ => None
      end
  | _ => None
  end.

(** What [json.loads] does with a text: it returns a value, or raises
    [JSONDecodeError] ([msg] is the text of the error), or raises something
    else: [RecursionError] on brackets nested beyond the interpreter's
    limit, a plain [ValueError] on an integer beyond the digit limit of
    [int]. *)
Inductive loaded :=
  | Decoded (v : value)
  | JSONDecodeError (msg : pystr)
  | LoadsRaise (e : error).

(** Library functions the script calls, left open: [int] on a [str]
    (Python's own parser: signs, underscores, Unicode digits, the digit
    limit), [json.loads],
    [json.dumps(obj, ensure_ascii=False, separators=(", ", ": "))], which
    raises too ([ValueError] on an integer beyond the digit limit,
    [RecursionError] on deep nesting), and [os.path.splitext]. *)
Class Library := {
  int_of_str : pystr -> option Z;
  json_loads : pystr -> loaded;
  json_dumps : value -> result pystr;
  splitext : pystr -> pystr * pystr
}.

Section Rules.

Context `{Library}.

(** [int(v)]; [None] when Python raises. *)
Definition py_int (v : value) : option Z :=
  match v with
  | VInt z => Some z
  | VBool b => Some (if b then 1 else 0)
  | VFloat f => int_of_float f
  | VStr s => int_of_str s
  | VNone | VList _ | VDict _ => None
  end.

(** [collect_existing_ids_and_src_ips(rules_list)] *)
Definition collect_step (acc : Z * gset pystr) (item : value) : Z * gset pystr :=
  match item with
  | VDict d =>
      let max_id :=
        match dict_get d (py "id") with
        | Some i =>
            match py_int i with
            | Some n => Z.max acc.1 n
            | None => acc.1
            end
        | None => acc.1
        end in
      let src_ips :=
        match dict_get d (py "src_ip") with
        | Some (VStr s) => {[ strip s ]} ∪ acc.2
        | _ => acc.2
        end in
      (max_id, src_ips)
  | _ => acc
  end.

Definition collect_existing_ids_and_src_ips (rules_list : list value)
  : Z * gset pystr :=
  foldl collect_step (0, ∅) rules_list.

(** The highest id of the rules and, when the ["rulesv6"] field decoded to a
    list, of that list too. *)
Definition max_id_any (rules_list : list value) (rulesv6_list : value) : Z :=
  let max_id_rules := (collect_existing_ids_and_src_ips rules_list).1 in
  match rulesv6_list with
  | VList l => Z.max max_id_rules (collect_existing_ids_and_src_ips l).1
  | _ => max_id_rules
  end.

(** The ids that can be read off the rules of a list as integers. *)
Definition observed_ids (vs : list value) : list Z :=
  omap (fun v => rule_id v ≫= py_int) vs.

End Rules.

(** *** The body of [update_rules_in_row] after decoding *)

(** [ip_order = [ip.strip() for ip in ip_values if ip.strip()]] *)
Definition ip_order (ip_values : list pystr) : list pystr :=
  strip <$> filter (fun ip => strip ip <> []) ip_values.

Definition ip_set (ip_values : list pystr) : gset pystr :=
  list_to_set (ip_order ip_values).

(** One turn of the loop that fills [first_seen]. *)
Definition first_seen_step (h : store) (ips : gset pystr)
    (first_seen : gmap pystr nat) (rule : ref) : gmap pystr nat :=
  match rule with
  | RObj l =>
      match src_ip_key (deref h rule) with
      | Some key =>
          if decide (key ∈ ips /\ first_seen !! key = None)
          then <[key := l]> first_seen
          else first_seen
      | None => first_seen
      end
  | RVal _ => first_seen
  end.

Definition first_seen (h : store) (ips : gset pystr) (rules_list : list ref)
  : gmap pystr nat :=
  foldl (first_seen_step h ips) ∅ rules_list.

(** The state of the loop that builds the top block. *)
Record top_state := TopState {
  ts_store : store;
  top_rules : list ref;
  created_rules : list nat;
  added : nat;
  skipped : nat
}.

Definition top_step (fs : gmap pystr nat) (st : top_state) (ip : pystr)
  : top_state :=
  match fs !! ip with
  | Some l =>
      TopState (ts_store st) (top_rules st ++ [RObj l]) (created_rules st)
               (added st) (S (skipped st))
  | None =>
      let l := length (ts_store st) in
      TopState (ts_store st ++ [build_allow_rule ip 0])
               (top_rules st ++ [RObj l]) (created_rules st ++ [l])
               (S (added st)) (skipped st)
  end.

Definition build_top (h : store) (fs : gmap pystr nat) (ips : list pystr)
  : top_state :=
  foldl (top_step fs) (TopState h [] [] 0 0) ips.

(** The test of the second pass over [rules_list]: a dict whose trimmed
    ["src_ip"] is in [ip_set] belongs to the top block. *)
Definition in_top_block (h : store) (ips : gset pystr) (rule : ref) : bool :=
  match rule with
  | RVal _ => false
  | RObj _ =>
      match src_ip_key (deref h rule) with
      | Some key => bool_decide (key ∈ ips)
      | None => false
      end
  end.

(** The rules that stay below the top block. *)
Definition remaining_rules (h : store) (ips : gset pystr)
    (rules_list : list ref) : list ref :=
  filter (fun rule => in_top_block h ips rule = false) rules_list.

(** [keep_ids]: ids for the created rules only. *)
Definition assign_created (h : store) (next_id : Z) (created : list nat)
  : store * Z :=
  foldl (fun acc l => (set_id acc.1 l acc.2, acc.2 + 1)) (h, next_id) created.

(** Otherwise: every dict of the new list, in order. *)
Definition renumber (h : store) (next_id : Z) (rules : list ref) : store * Z :=
  foldl (fun acc r =>
           match r with
           | RObj l => (set_id acc.1 l acc.2, acc.2 + 1)
           | RVal _ => acc
           end) (h, next_id) rules.

(** What the function has in hand when it serializes: the store, the new
    list and the two counts. *)
Record rebuilt := Rebuilt {
  rb_store : store;
  new_rules_list : list ref;
  rb_added : nat;
  rb_skipped : nat
}.

(** The body of [update_rules_in_row] from the decoded rule list to the
    list it serializes: the two passes over [rules_list], the top block,
    and the ids. *)
Definition rebuild (rules_list : list value) (max_id_any : Z)
    (ip_values : list pystr) (keep_ids : bool) : rebuilt :=
  let '(h0, rules) := alloc rules_list in
  let ips := ip_set ip_values in
  let fs := first_seen h0 ips rules in
  let st := build_top h0 fs (ip_order ip_values) in
  let rest := remaining_rules h0 ips rules in
  let new_list := top_rules st ++ rest in
  let h :=
    if keep_ids
    then (assign_created (ts_store st) (max_id_any + 1) (created_rules st)).1
    else (renumber (ts_store st) 1 new_list).1 in
  Rebuilt h new_list (added st) (skipped st).

(** The list that [dump_json_field] is given. *)
Definition rules_out (rb : rebuilt) : list value :=
  deref (rb_store rb) <$> new_rules_list rb.

(** ** The script *)

Module Csv.

(** Python's [csv] module in its default dialect ([excel]: comma, double
    quote, doubled quotes inside quoted fields, minimal quoting, CRLF line
    terminator, not strict), after CPython's [_csv.c]. *)

Definition comma : N := 44.
Definition quote : N := 34.
Definition LF : N := 10.
Definition CR : N := 13.

(** The lines a text file opened with [newline=""] yields: split after
    ["\n"], ["\r"] or ["\r\n"], the line ending kept. *)
Fixpoint lines_from (cur : pystr) (s : pystr) : list pystr :=
  match s with
  | [] => match cur with [] => [] | _ => [cur] end
  | c :: s' =>
      if (c =? LF)%N then (cur ++ [c]) :: lines_from [] s'
      else if (c =? CR)%N then
        match s' with
        | c' :: s'' =>
            if (c' =? LF)%N then (cur ++ [c; c']) :: lines_from [] s''
            else (cur ++ [c]) :: lines_from [] s'
        | [] => [cur ++ [c]]
        end
      else lines_from (cur ++ [c]) s'
  end.

Inductive parser_state :=
  | START_RECORD
  | START_FIELD
  | IN_FIELD
  | IN_QUOTED_FIELD
  | QUOTE_IN_QUOTED_FIELD
  | EAT_CRNL.

Record reader := Reader {
  state : parser_state;
  field : pystr;
  fields : list pystr
}.

Definition parse_reset : reader := Reader START_RECORD [] [].

Definition field_limit : N := 131072.

Definition parse_add_char (r : reader) (c : N) : result reader :=
  if (field_limit <=? N.of_nat (length (field r)))%N
  then Raise (CsvError (py "field larger than field limit (131072)"))
  else Ok (Reader (state r) (field r ++ [c]) (fields r)).

Definition parse_save_field (r : reader) : reader :=
  Reader (state r) [] (fields r ++ [field r]).

Definition set_state (r : reader) (st : parser_state) : reader :=
  Reader st (field r) (fields r).

Definition is_newline (c : N) : bool := ((c =? LF) || (c =? CR))%N.

(** One step of [parse_process_char]; [None] is the end-of-line mark that
    the reader feeds after every line. *)
Definition parse_process_char (r : reader) (c : option N) : result reader :=
  let start_field (r : reader) : result reader :=
    match c with
    | None => Ok (set_state (parse_save_field r) START_RECORD)
    | Some ch =>
        if is_newline ch then Ok (set_state (parse_save_field r) EAT_CRNL)
        else if (ch =? quote)%N then Ok (set_state r IN_QUOTED_FIELD)
        else if (ch =? comma)%N then Ok (parse_save_field r)
        else r' ← parse_add_char r ch; Ok (set_state r' IN_FIELD)
    end in
  match state r with
  | START_RECORD =>
      match c with
      | None => Ok r
      | Some ch =>
          if is_newline ch then Ok (set_state r EAT_CRNL)
          else start_field (set_state r START_FIELD)
      end
  | START_FIELD => start_field r
  | IN_FIELD =>
      match c with
      | None => Ok (set_state (parse_save_field r) START_RECORD)
      | Some ch =>
          if is_newline ch then Ok (set_state (parse_save_field r) EAT_CRNL)
          else if (ch =? comma)%N
          then Ok (set_state (parse_save_field r) START_FIELD)
          else parse_add_char r ch
      end
  | IN_QUOTED_FIELD =>
      match c with
      | None => Ok r
      | Some ch =>
          if (ch =? quote)%N then Ok (set_state r QUOTE_IN_QUOTED_FIELD)
          else parse_add_char r ch
      end
  | QUOTE_IN_QUOTED_FIELD =>
      match c with
      | None => Ok (set_state (parse_save_field r) START_RECORD)
      | Some ch =>
          if (ch =? quote)%N
          then r' ← parse_add_char r ch; Ok (set_state r' IN_QUOTED_FIELD)
          else if (ch =? comma)%N
          then Ok (set_state (parse_save_field r) START_FIELD)
          else if is_newline ch
          then Ok (set_state (parse_save_field r) EAT_CRNL)
          else r' ← parse_add_char r ch; Ok (set_state r' IN_FIELD)
      end
  | EAT_CRNL =>
      match c with
      | None => Ok (set_state r START_RECORD)
      | Some ch =>
          if is_newline ch then Ok r
          else Raise (CsvError (py "new-line character seen in unquoted field - do you need to open the file with newline=''?"))
      end
  end.

(** A whole line, then the end-of-line mark. *)
Fixpoint feed_line (r : reader) (line : pystr) : result reader :=
  match line with
  | [] => parse_process_char r None
  | c :: line' => r' ← parse_process_char r (Some c); feed_line r' line'
  end.

(** The records of the lines: for each, the text it was read from and its
    fields.  [r] and [raw] are the parser and the text of the record under
    way. *)
Fixpoint records_from (r : reader) (raw : pystr) (lines : list pystr)
  : result (list (pystr * list pystr)) :=
  match lines with
  | [] =>
      match field r, state r with
      | [], START_RECORD | [], START_FIELD | [], IN_FIELD
      | [], QUOTE_IN_QUOTED_FIELD | [], EAT_CRNL => Ok []
      | _, _ => Ok [(raw, fields (parse_save_field r))]
      end
  | line :: lines' =>
      r' ← feed_line r line;
      match state r' with
      | START_RECORD =>
          rest ← records_from parse_reset [] lines';
          Ok ((raw ++ line, fields r') :: rest)
      | _ => records_from r' (raw ++ line) lines'
      end
  end.

Definition records (text : pystr) : result (list (pystr * list pystr)) :=
  records_from parse_reset [] (lines_from [] text).

(** [list(csv.reader(f))] *)
Definition reader_rows (text : pystr) : result (list (list pystr)) :=
  rs ← records text; Ok (rs.*2).

(** [csv.writer]: a field is quoted when it holds a comma, a quote or a
    line-terminator character; quotes are doubled. *)
Definition needs_quotes (f : pystr) : bool :=
  existsb (fun c => (c =? comma) || (c =? quote) || (c =? CR) || (c =? LF))%N f.

Definition double_quotes (f : pystr) : pystr :=
  f ≫= (fun c => if (c =? quote)%N then [quote; quote] else [c]).

Definition join_append (f : pystr) : pystr :=
  if needs_quotes f then [quote] ++ double_quotes f ++ [quote] else f.

Fixpoint join_fields (fs : list pystr) : pystr :=
  match fs with
  | [] => []
  | [f] => f
  | f :: fs' => f ++ [comma] ++ join_fields fs'
  end.

(** The text [writerow] hands to the file. *)
Definition writerow (row : list pystr) : pystr :=
  let rec := join_fields (join_append <$> row) in
  (match row, rec with
   | _ :: _, [] => [quote; quote]
   | _, _ => rec
   end) ++ [CR; LF].

End Csv.

(** Files: what a path holds, as text.  A file is taken by its decoding as
    UTF-8, a byte-order mark being the code point U+FEFF.  The map holds
    the files that [open] opens and that decode: a refusal of the operating
    system (a directory that is not there, a file that may not be read or
    written) and a file that is not UTF-8 are not represented, so the
    errors of [read_ip_list], [load_csv], [dump_csv] and [process] below
    are those of the script's own checks, of the [csv] and [json] modules
    and of the encoder. *)
Abbreviation files := (gmap pystr pystr).

Definition BOM : N := 65279.

(** A [str] that UTF-8 can encode has no surrogate code point. *)
Definition encodable (s : pystr) : bool :=
  forallb (fun c => negb ((55296 <=? c) && (c <=? 57343)))%N s.

(** The writes of a text file opened with [utf-8-sig]: every [write] encodes
    its argument, the first one after the mark; a [write] that cannot encode
    raises and leaves what was written before. *)
Fixpoint write_all (first : bool) (chunks : list pystr) : pystr * result unit :=
  match chunks with
  | [] => ([], Ok ())
  | c :: chunks' =>
      if encodable c
      then
        let '(text, r) := write_all false chunks' in
        ((if first then [BOM] else []) ++ c ++ text, r)
      else ([], Raise UnicodeEncodeError)
  end.

(** Decoding with [utf-8-sig] drops one leading mark. *)
Definition decode_sig (content : pystr) : pystr :=
  match content with
  | c :: content' => if (c =? BOM)%N then content' else content
  | [] => []
  end.

(** [read_ip_list(ip_txt_path)] *)
Definition read_ip_list (fs : files) (ip_txt_path : pystr)
  : result (list pystr) :=
  match fs !! ip_txt_path with
  | None => Raise (FileNotFoundError (py "IP list file not found: " ++ ip_txt_path))
  | Some text =>
      Ok (filter (fun value => value <> [] /\ startswith value (py "#") = false)
            (strip <$> Csv.lines_from [] text))
  end.

(** [load_csv(csv_path)] *)
Definition load_csv (fs : files) (csv_path : pystr)
  : result (list pystr * list (list pystr)) :=
  match fs !! csv_path with
  | None => Raise (FileNotFoundError (py "CSV file not found: " ++ csv_path))
  | Some content =>
      rows ← Csv.reader_rows (decode_sig content);
      match rows with
      | [] => Raise (ValueError (py "CSV is empty"))
      | header :: data_rows => Ok (header, data_rows)
      end
  end.

(** [dump_csv(csv_path, header, rows)]: the files afterwards and whether it
    raised. *)
Definition dump_csv (fs : files) (csv_path : pystr) (header : list pystr)
    (rows : list (list pystr)) : files * result unit :=
  let '(text, r) := write_all true (Csv.writerow <$> header :: rows) in
  (<[csv_path := text]> fs, r).

Section Script.

Context `{Library}.

(** [parse_json_field(value)] *)
Definition parse_json_field (val : option pystr) : result value :=
  match val with
  | None => Ok VNone
  | Some s =>
      if decide (s = []) then Ok VNone
      else
        match json_loads s with
        | Decoded v => Ok v
        | JSONDecodeError e =>
            Raise (ValueError
                     (py "Failed to parse JSON from CSV field. Error: " ++ e
                      ++ [10%N] ++ py "Value (truncated): " ++ take 2000 s))
        | LoadsRaise e => Raise e
        end
  end.

(** [dump_json_field(obj)] *)
Definition dump_json_field (obj : value) : result pystr := json_dumps obj.

(** The first part of [update_rules_in_row]: the index of the ["rules"]
    column, the decoded rule list, and what the ["rulesv6"] field decoded
    to ([None] when there is no such column or it does not parse). *)
Definition decode_row (header row : list pystr)
  : result (nat * list value * value) :=
  rules_index ←
    match index header (py "rules") with
    | Some i => Ok i
    | None => Raise (ValueError (py "CSV header is missing 'rules' column"))
    end;
  rules_raw ← getitem row rules_index;
  rules_list ← parse_json_field (Some rules_raw);
  rules_list ←
    match rules_list with
    | VNone => Ok []
    | VList l => Ok l
    | _ => Raise (ValueError (py "The 'rules' column does not contain a JSON list"))
    end;
  rulesv6_list ←
    match index header (py "rulesv6") with
    | None => Ok VNone
    | Some rulesv6_idx =>
        rulesv6_raw ← getitem row rulesv6_idx;
        match parse_json_field (Some rulesv6_raw) with
        | Ok v => Ok v
        | Raise e => if is_ValueError e then Ok VNone else Raise e
        end
    end;
  Ok (rules_index, rules_list, rulesv6_list).

(** [update_rules_in_row(header, row, ip_values, keep_ids)]: the row
    afterwards and [(added, skipped)]. *)
Definition update_rules_in_row (header row : list pystr)
    (ip_values : list pystr) (keep_ids : bool)
  : result (list pystr * (nat * nat)) :=
  '(rules_index, rules_list, rulesv6_list) ← decode_row header row;
  let rb := rebuild rules_list (max_id_any rules_list rulesv6_list)
              ip_values keep_ids in
  text ← dump_json_field (VList (rules_out rb));
  Ok (<[rules_index := text]> row, (rb_added rb, rb_skipped rb)).

(** Where [process] writes. *)
Definition out_path (csv_path : pystr) (output_path : option pystr)
    (in_place : bool) : pystr :=
  if in_place then csv_path
  else
    match output_path with
    | Some (c :: p) => c :: p
    | _ =>
        let '(root, ext) := splitext csv_path in
        root ++ py ".updated" ++ (match ext with [] => py ".csv" | _ => ext end)
    end.

(** The backup step of [process]. *)
Definition backup (fs : files) (csv_path : pystr) : files * result unit :=
  let backup_path := csv_path ++ py ".bak" in
  match fs !! backup_path with
  | Some _ => (fs, Ok ())
  | None =>
      match fs !! csv_path with
      | Some content => (<[backup_path := content]> fs, Ok ())
      | None =>
          (<[backup_path := []]> fs,
           Raise (FileNotFoundError csv_path))
      end
  end.

(** [process(csv_path, ip_txt_path, output_path, in_place, make_backup,
    keep_ids)]: the files afterwards and the result. *)
Definition process (fs : files) (csv_path ip_txt_path : pystr)
    (output_path : option pystr) (in_place make_backup keep_ids : bool)
  : files * result (nat * nat) :=
  match load_csv fs csv_path with
  | Raise e => (fs, Raise e)
  | Ok (header, data_rows) =>
  match read_ip_list fs ip_txt_path with
  | Raise e => (fs, Raise e)
  | Ok ip_values =>
  match data_rows with
  | [] => (fs, Raise (ValueError (py "CSV has header but no data rows to update")))
  | row :: rows =>
  match update_rules_in_row header row ip_values keep_ids with
  | Raise e => (fs, Raise e)
  | Ok (row', (added, skipped)) =>
      let '(fs1, r) :=
        if in_place && make_backup then backup fs csv_path else (fs, Ok ()) in
      match r with
      | Raise e => (fs1, Raise e)
      | Ok _ =>
          let '(fs2, r) :=
            dump_csv fs1 (out_path csv_path output_path in_place)
              header (row' :: rows) in
          (fs2, _ ← r; Ok (added, skipped))
      end
  end end end end.

End Script.

(** ** What the claims speak of *)

(** The first rule of a collection, in its order, whose trimmed ["src_ip"]
    is [a]. *)
Fixpoint first_match (a : pystr) (rules : list value) : option value :=
  match rules with
  | [] => None
  | v :: rules' =>
      if decide (src_ip_key v = Some a) then Some v else first_match a rules'
  end.

(** A rule with its id taken away; any other item as it is. *)
Definition erase_id (v : value) : value :=
  match v with
  | VDict d => VDict (without_id d)
  | _ => v
  end.

(** The ids of the rules (dict items) of a list, in order. *)
Definition rule_ids (vs : list value) : list (option value) :=
  rule_id <$> filter (fun v => is_dict v = true) vs.

(** [k] consecutive ids [n, n+1, ...]. *)
Fixpoint consecutive (n : Z) (k : nat) : list (option value) :=
  match k with
  | O => []
  | S k' => Some (VInt n) :: consecutive (n + 1) k'
  end.

(** What C5 asks of [(added, skipped)]: the entries without and with a
    matching rule, counted; all of them and none when no entry is matched. *)
Definition counts_of (rules : list value) (ip_values : list pystr)
    (added skipped : nat) : Prop :=
  added = length (filter (fun ip => first_match ip rules = None)
                    (ip_order ip_values))
  /\ skipped = length (filter (fun ip => is_Some (first_match ip rules))
                        (ip_order ip_values))
  /\ (Forall (fun ip => first_match ip rules = None) (ip_order ip_values)
      -> added = length (ip_order ip_values) /\ skipped = 0%nat).

(** The rules of a top block that were synthesized: those of the entries
    that no existing rule matches. *)
Definition synthesized (rules : list value) (entries : list pystr)
    (block : list value) : list value :=
  (filter (fun p => first_match p.1 rules = None) (zip entries block)).*2.

(** The largest of a list of ids, [0] when there is none above it. *)
Definition max_of (ids : list Z) : Z := foldr Z.max 0 ids.

(** The items of a decoded value that is a list. *)
Definition items (v : value) : list value :=
  match v with VList l => l | _ => [] end.

(** The rule an allow-list entry gets in the top block, before ids are
    assigned: the first existing rule for it, or a new one. *)
Definition top_value (rules : list value) (ip : pystr) : value :=
  match first_match ip rules with
  | Some v => v
  | None => VDict (build_allow_rule ip 0)
  end.

(** A rule for an allow-listed address. *)
Definition listed (ips : list pystr) (v : value) : Prop :=
  match src_ip_key v with
  | Some key => key ∈ ips
  | None => False
  end.

#[global] Instance listed_dec ips v : Decision (listed ips v).
Proof. unfold listed. destruct (src_ip_key v); apply _. Defined.

(** The original rules that are kept below the top block. *)
Definition rest_values (ips : list pystr) (rules : list value) : list value :=
  filter (fun v => ~ listed ips v) rules.

(** The default policy fields of a synthesized rule. *)
Definition default_fields (src_ip : pystr) : pydict :=
  [ (py "enable", VInt 1);
    (py "protocol", VStr (py "Any"));
    (py "permission", VStr (py "Allow"));
    (py "interface_warning", VInt 0);
    (py "port_option", VStr (py "Any"));
    (py "src_ip", VStr src_ip);
    (py "interface", VStr (py "All"));
    (py "display_name", VStr (py "All")) ].

(** What C1 asks of the rule [v] placed for the entry [ip]. *)
Definition top_rule_for (rules_list : list value) (ip : pystr) (v : value)
  : Prop :=
  exists d, v = VDict d /\
    match first_match ip rules_list with
    | Some v0 => exists d0, v0 = VDict d0 /\ without_id d = without_id d0
    | None => without_id d = default_fields ip
    end.

(** The exceptions of class [ValueError]: [ValueError] itself and its
    subclass [UnicodeError]. *)
Inductive value_error : error -> Prop :=
  | value_error_plain msg : value_error (ValueError msg)
  | value_error_unicode : value_error UnicodeEncodeError.

Section Failures.

Context `{Library}.

(** The header names the column [col] and the row has no cell for it. *)
Definition lacks_cell (header row : list pystr) (col : pystr) : Prop :=
  exists i, index header col = Some i /\ row !! i = None.

(** The content of the row's ["rules"] field. *)
Definition rules_field (header row : list pystr) (raw : pystr) : Prop :=
  exists i, index header (py "rules") = Some i /\ row !! i = Some raw.

Definition undecodable (raw : pystr) : Prop :=
  raw <> [] /\ exists e, json_loads raw = JSONDecodeError e.

Definition not_a_list (raw : pystr) : Prop :=
  raw <> [] /\ exists v, json_loads raw = Decoded v /\ v <> VNone
                        /\ forall l, v <> VList l.

(** The failures C6 names. *)
Definition claimed_failure (header row : list pystr) : Prop :=
  index header (py "rules") = None
  \/ exists raw, rules_field header row raw
                 /\ (undecodable raw \/ not_a_list raw).

(** On the content of the ["rules"] field [json.loads] raises something
    that is no [JSONDecodeError]. *)
Definition loads_raises (header row : list pystr) : Prop :=
  exists raw e, rules_field header row raw /\ raw <> []
                /\ json_loads raw = LoadsRaise e.

(** On the content of the ["rulesv6"] field [json.loads] raises something
    that is no [ValueError]. *)
Definition rulesv6_raises (header row : list pystr) : Prop :=
  exists j raw e,
    index header (py "rulesv6") = Some j /\ row !! j = Some raw /\ raw <> []
    /\ json_loads raw = LoadsRaise e /\ ~ value_error e.

(** [json.dumps] raises on the new list. *)
Definition dumps_raises (header row ip_values : list pystr) (keep_ids : bool)
  : Prop :=
  exists i rules_list rulesv6_list e,
    decode_row header row = Ok (i, rules_list, rulesv6_list)
    /\ dump_json_field
         (VList (rules_out (rebuild rules_list
                              (max_id_any rules_list rulesv6_list)
                              ip_values keep_ids)))
       = Raise e.

End Failures.

(** *** The allow-list, the rules and the ids as the spec words them *)

(** A string without white space at either end. *)
Definition trimmed (t : pystr) : Prop :=
  match t with [] => True | c :: _ => is_space c = false end
  /\ match last t with Some c => is_space c = false | None => True end.

(** [t] is [s] without the white space around it. *)
Definition trim_of (s t : pystr) : Prop :=
  exists l r,
    s = l ++ t ++ r
    /\ Forall (fun c => is_space c = true) l
    /\ Forall (fun c => is_space c = true) r
    /\ trimmed t.

(** The entries of an allow-list, in its order: its values trimmed, those
    of white space only left out. *)
Inductive allow_list_entries : list pystr -> list pystr -> Prop :=
  | entries_nil : allow_list_entries [] []
  | entries_blank ip ips es :
      Forall (fun c => is_space c = true) ip ->
      allow_list_entries ips es ->
      allow_list_entries (ip :: ips) es
  | entries_entry ip e ips es :
      e <> [] -> trim_of ip e ->
      allow_list_entries ips es ->
      allow_list_entries (ip :: ips) (e :: es).

(** A rule for the address [a]: a dict whose ["src_ip"] is a string that,
    trimmed, is [a]. *)
Definition rule_for (a : pystr) (v : value) : Prop :=
  exists d s, v = VDict d /\ dict_get d (py "src_ip") = Some (VStr s)
              /\ trim_of s a.

Definition no_rule_for (a : pystr) (rules : list value) : Prop :=
  Forall (fun u => ~ rule_for a u) rules.

(** The first rule for [a], in the order of the collection. *)
Definition first_rule_for (a : pystr) (rules : list value) (v : value)
  : Prop :=
  exists pre post,
    rules = pre ++ v :: post /\ rule_for a v /\ no_rule_for a pre.

(** What C1 asks of the rule [v] that the top block has for the entry [a]:
    the fields, other than ["id"], of the first existing rule for [a], or
    the default fields with [a] as ["src_ip"] when there is none. *)
Definition entry_rule (rules : list value) (a : pystr) (v : value) : Prop :=
  exists d, v = VDict d /\
    ((exists d0, first_rule_for a rules (VDict d0)
                 /\ without_id d = without_id d0)
     \/ (no_rule_for a rules /\ without_id d = default_fields a)).

(** What C3 asks of the top block when ids are kept: the first existing
    rule of an entry is there as it was, and the rules of the entries
    without one carry the ids [n, n+1, ...] in the order of the entries. *)
Inductive kept_block (rules : list value)
  : Z -> list pystr -> list value -> Prop :=
  | kept_nil n : kept_block rules n [] []
  | kept_reused n a es v vs :
      first_rule_for a rules v ->
      kept_block rules n es vs ->
      kept_block rules n (a :: es) (v :: vs)
  | kept_new n a es d vs :
      no_rule_for a rules ->
      dict_get d (py "id") = Some (VInt n) ->
      kept_block rules (n + 1) es vs ->
      kept_block rules n (a :: es) (VDict d :: vs).

Section Observed.

Context `{Library}.

(** The integer that [int] reads off an id. *)
Inductive id_reads : value -> Z -> Prop :=
  | reads_int z : id_reads (VInt z) z
  | reads_bool b : id_reads (VBool b) (if b then 1 else 0)
  | reads_float f z : int_of_float f = Some z -> id_reads (VFloat f) z
  | reads_str s z : int_of_str s = Some z -> id_reads (VStr s) z.

(** An id observed in a collection: the id of one of its dicts. *)
Definition id_observed (vs : list value) (z : Z) : Prop :=
  exists d i, VDict d ∈ vs /\ dict_get d (py "id") = Some i /\ id_reads i z.

(** The maximum id observed, [0] when there is none above. *)
Definition highest_id (vs : list value) (m : Z) : Prop :=
  0 <= m
  /\ (forall z, id_observed vs z -> z <= m)
  /\ (m = 0 \/ id_observed vs m).

(** The rule collection that the content of the ["rules"] field stands
    for: none for an empty field or a JSON [null]. *)
Definition rules_decoded (raw : pystr) (rules : list value) : Prop :=
  (raw = [] /\ rules = [])
  \/ (raw <> []
      /\ ((json_loads raw = Decoded VNone /\ rules = [])
          \/ json_loads raw = Decoded (VList rules))).

(** The secondary collection, if present: the list that the ["rulesv6"]
    field of the row holds; no rules when there is no such field or it
    holds no list. *)
Definition rulesv6_rules (header row : list pystr) : list value :=
  match index header (py "rulesv6") with
  | Some j =>
      match row !! j with
      | Some raw =>
          if decide (raw = []) then []
          else match json_loads raw with
               | Decoded (VList l) => l
               | _ => []
               end
      | None => []
      end
  | None => []
  end.

(** [row'] is [row] with, in the ["rules"] field, the serialization of the
    collection [out] where it held that of [rules]. *)
Definition rewrites (header row row' : list pystr) (rules out : list value)
  : Prop :=
  exists i raw text,
    index header (py "rules") = Some i
    /\ row !! i = Some raw
    /\ rules_decoded raw rules
    /\ json_dumps (VList out) = Ok text
    /\ row' = <[i := text]> row.

End Observed.

(** C9 as the spec has it: the text of every record of the output, other
    than the first data row, is the text it had in the input. *)
Definition rows_verbatim (input output : pystr) : Prop :=
  exists rin rout,
    Csv.records (decode_sig input) = Ok rin
    /\ Csv.records (decode_sig output) = Ok rout
    /\ length rin = length rout
    /\ forall k, k <> 1%nat -> rin.*1 !! k = rout.*1 !! k.

(** ** Notions for the proofs *)

Section ReadRulesv6.

Context `{Library}.

(** The part of [decode_row] that reads the ["rulesv6"] field. *)
Definition read_rulesv6 (header row : list pystr) : result value :=
  match index header (py "rulesv6") with
  | None => Ok VNone
  | Some rulesv6_idx =>
      rulesv6_raw ← getitem row rulesv6_idx;
      match parse_json_field (Some rulesv6_raw) with
      | Ok v => Ok v
      | Raise e => if is_ValueError e then Ok VNone else Raise e
      end
  end.

(** The part that reads the ["rules"] field. *)
Definition read_rules (raw : pystr) : result (list value) :=
  rules_list ← parse_json_field (Some raw);
  match rules_list with
  | VNone => Ok []
  | VList l => Ok l
  | _ => Raise (ValueError (py "The 'rules' column does not contain a JSON list"))
  end.

End ReadRulesv6.

Definition ref_loc (r : ref) : option nat :=
  match r with RObj l => Some l | RVal _ => None end.

Definition locs (rs : list ref) : list nat := omap ref_loc rs.

(** In store [h], the reference [r] stands for the value [v]. *)
Definition stands_for (h : store) (r : ref) (v : value) : Prop :=
  match r with
  | RObj l => exists d, h !! l = Some d /\ v = VDict d
  | RVal v' => v = v' /\ is_dict v = false
  end.

(** The location of the first dict of [rs] whose trimmed ["src_ip"] is
    [key]. *)
Fixpoint first_loc (h : store) (key : pystr) (rs : list ref) : option nat :=
  match rs with
  | [] => None
  | RObj l :: rs' =>
      if decide (src_ip_key (deref h (RObj l)) = Some key) then Some l
      else first_loc h key rs'
  | RVal _ :: rs' => first_loc h key rs'
  end.

Definition unmatched (fs : gmap pystr nat) (ips : list pystr) : list pystr :=
  filter (fun ip => fs !! ip = None) ips.

(** The references of the top block, new objects being placed from
    location [n] on. *)
Fixpoint top_refs (fs : gmap pystr nat) (n : nat) (ips : list pystr)
  : list ref :=
  match ips with
  | [] => []
  | ip :: ips' =>
      match fs !! ip with
      | Some l => RObj l :: top_refs fs n ips'
      | None => RObj n :: top_refs fs (S n) ips'
      end
  end.

(** New rules with the ids [n, n+1, ...]. *)
Fixpoint numbered_rules (n : Z) (entries : list pystr) : list pydict :=
  match entries with
  | [] => []
  | ip :: entries' => build_allow_rule ip n :: numbered_rules (n + 1) entries'
  end.

(** The top block when ids are kept: an existing rule as it is, a new rule
    with the next free id. *)
Fixpoint top_values_keep (rules : list value) (n : Z) (entries : list pystr)
  : list value :=
  match entries with
  | [] => []
  | ip :: entries' =>
      match first_match ip rules with
      | Some v => v :: top_values_keep rules n entries'
      | None =>
          VDict (build_allow_rule ip n) :: top_values_keep rules (n + 1) entries'
      end
  end.

(** A reference that is usable in store [h]. *)
Definition ref_wf (h : store) (r : ref) : Prop :=
  match r with
  | RObj l => (l < length h)%nat
  | RVal v => is_dict v = false
  end.

(** ** Examples *)

(** [posixpath.splitext] *)
Fixpoint rfind (c : N) (i : Z) (s : pystr) : Z :=
  match s with
  | [] => -1
  | x :: s' =>
      let r := rfind c (i + 1) s' in
      if (0 <=? r) then r else if (x =? c)%N then i else -1
  end.

Definition posix_splitext (p : pystr) : pystr * pystr :=
  let sepIndex := rfind 47%N 0 p in
  let dotIndex := rfind 46%N 0 p in
  if (sepIndex <? dotIndex)
     && existsb (fun x => negb (x =? 46)%N)
          (take (Z.to_nat (dotIndex - (sepIndex + 1)))
             (drop (Z.to_nat (sepIndex + 1)) p))
  then (take (Z.to_nat dotIndex) p, drop (Z.to_nat dotIndex) p)
  else (p, []).

(** Decimal digits of a number. *)
Fixpoint digits_fuel (fuel : nat) (n : N) (acc : pystr) : pystr :=
  match fuel with
  | O => acc
  | S fuel' =>
      let acc' := (48 + n mod 10)%N :: acc in
      if (n <? 10)%N then acc' else digits_fuel fuel' (n / 10)%N acc'
  end.

Definition str_of_int (z : Z) : pystr :=
  (if (z <? 0) then [45%N] else [])
  ++ digits_fuel (S (N.to_nat (N.log2 (Z.abs_N z)))) (Z.abs_N z) [].

(** [json.dumps] with the separators [", "] and [": "], for values without
    floats and with strings that need no escape. *)
Fixpoint example_dumps (v : value) : pystr :=
  match v with
  | VNone => py "null"
  | VBool b => if b then py "true" else py "false"
  | VInt z => str_of_int z
  | VFloat _ => py "NaN"
  | VStr s => [34%N] ++ s ++ [34%N]
  | VList l =>
      py "["
      ++ (fix go (l : list value) : pystr :=
            match l with
            | [] => []
            | [x] => example_dumps x
            | x :: l' => example_dumps x ++ py ", " ++ go l'
            end) l
      ++ py "]"
  | VDict d =>
      py "{"
      ++ (fix go (d : list (pystr * value)) : pystr :=
            match d with
            | [] => []
            | [(k, x)] => [34%N] ++ k ++ [34%N] ++ py ": " ++ example_dumps x
            | (k, x) :: d' =>
                [34%N] ++ k ++ [34%N] ++ py ": " ++ example_dumps x
                ++ py ", " ++ go d'
            end) d
      ++ py "}"
  end.

Definition example_rules : list value :=
  [ VDict [(py "src_ip", VStr (py "5.6.7.8")); (py "id", VInt 7)] ].

Definition example_rules_text : pystr :=
  Eval vm_compute in example_dumps (VList example_rules).

(** A secondary collection, with a higher id. *)
Definition example_rulesv6 : list value :=
  [ VDict [(py "src_ip", VStr (py "::1")); (py "id", VInt 12)] ].

Definition example_rulesv6_text : pystr :=
  Eval vm_compute in example_dumps (VList example_rulesv6).

(** Two rules for one address, the first with white space around it, and
    between them a rule for another address. *)
Definition example_rules_spaced : list value :=
  [ VDict [(py "src_ip", VStr (py " 1.1.1.1 ")); (py "id", VInt 3);
           (py "enable", VInt 0)];
    VDict [(py "src_ip", VStr (py "8.8.8.8")); (py "id", VInt 5)];
    VDict [(py "src_ip", VStr (py "1.1.1.1")); (py "id", VInt 4)] ].

Definition example_rules_spaced_text : pystr :=
  Eval vm_compute in example_dumps (VList example_rules_spaced).

(** A hundred thousand opening brackets, on which [json.loads] raises
    [RecursionError]. *)
Definition example_deep_text : pystr := replicate (N.to_nat 100000) 91%N.

(** A library for the examples: [json.loads] on the few texts they use
    (none has an id that is a [str]), the serializer above (the examples
    have no integer that [json.dumps] refuses), POSIX paths. *)
Definition example_library : Library := {|
  int_of_str := fun _ => None;
  json_loads := fun s =>
    if decide (s = py "[]") then Decoded (VList [])
    else if decide (s = example_rules_text) then Decoded (VList example_rules)
    else if decide (s = example_rulesv6_text)
    then Decoded (VList example_rulesv6)
    else if decide (s = example_rules_spaced_text)
    then Decoded (VList example_rules_spaced)
    else if decide (s = py "7") then Decoded (VInt 7)
    else if decide (s = example_deep_text) then LoadsRaise RecursionError
    else JSONDecodeError (py "Expecting value: line 1 column 1 (char 0)");
  json_dumps := fun v => Ok (example_dumps v);
  splitext := posix_splitext
|}.

(** A table with LF line ends and no byte-order mark, and an allow-list. *)
Definition example_table : pystr :=
  py "rules,name" ++ [10%N] ++ py "[],a" ++ [10%N] ++ py "x,y" ++ [10%N].

Definition example_files : files :=
  {[ py "t.csv" := example_table;
     py "ip.txt" := py "# office" ++ [10%N] ++ py " 1.2.3.4 " ++ [10%N]
                    ++ [10%N] ]}.

(** ** Further notions *)

(** The ids [n, n+1, ...] given to the dicts of a list, in order, the other
    items left as they are. *)
Fixpoint renumber_values (n : Z) (vs : list value) : list value :=
  match vs with
  | [] => []
  | VDict d :: vs' =>
      VDict (dict_set d (py "id") (VInt n)) :: renumber_values (n + 1) vs'
  | v :: vs' => v :: renumber_values n vs'
  end.

(** *** The reader, character by character *)

(** Characters fed to the parser without the end-of-line mark. *)
Fixpoint feed_chars (r : Csv.reader) (cs : pystr) : result Csv.reader :=
  match cs with
  | [] => Ok r
  | c :: cs' => r' ← Csv.parse_process_char r (Some c); feed_chars r' cs'
  end.

(** What the reader returns when its input is exhausted. *)
Definition at_end (r : Csv.reader) : list (list pystr) :=
  match Csv.field r, Csv.state r with
  | [], Csv.START_RECORD | [], Csv.START_FIELD | [], Csv.IN_FIELD
  | [], Csv.QUOTE_IN_QUOTED_FIELD | [], Csv.EAT_CRNL => []
  | _, _ => [Csv.fields (Csv.parse_save_field r)]
  end.

(** After the end-of-line mark: a finished record is given out and the
    parser starts afresh, an unfinished one goes on. *)
Definition emit (r : Csv.reader)
    (k : Csv.reader -> result (list (list pystr)))
  : result (list (list pystr)) :=
  match Csv.state r with
  | Csv.START_RECORD => rows ← k Csv.parse_reset; Ok (Csv.fields r :: rows)
  | _ => k r
  end.

(** The rows of a text, read character by character, the end-of-line mark
    being fed after each line end; [pend] tells whether the current line
    has characters. *)
Fixpoint crows (r : Csv.reader) (pend : bool) (s : pystr)
  : result (list (list pystr)) :=
  match s with
  | [] =>
      if pend
      then r' ← Csv.parse_process_char r None; emit r' (fun r => Ok (at_end r))
      else Ok (at_end r)
  | c :: s' =>
      if (c =? Csv.LF)%N then
        r1 ← Csv.parse_process_char r (Some c);
        r2 ← Csv.parse_process_char r1 None;
        emit r2 (fun r => crows r false s')
      else if (c =? Csv.CR)%N then
        match s' with
        | c' :: s'' =>
            if (c' =? Csv.LF)%N then
              r1 ← Csv.parse_process_char r (Some c);
              r1' ← Csv.parse_process_char r1 (Some c');
              r2 ← Csv.parse_process_char r1' None;
              emit r2 (fun r => crows r false s'')
            else
              r1 ← Csv.parse_process_char r (Some c);
              r2 ← Csv.parse_process_char r1 None;
              emit r2 (fun r => crows r false s')
        | [] =>
            r1 ← Csv.parse_process_char r (Some c);
            r2 ← Csv.parse_process_char r1 None;
            emit r2 (fun r => crows r false s')
        end
      else
        r1 ← Csv.parse_process_char r (Some c);
        crows r1 true s'
  end.

(** The fields of the records. *)
Definition rows_of (m : result (list (pystr * list pystr)))
  : result (list (list pystr)) :=
  rs ← m; Ok (rs.*2).

(** A field that the reader accepts: [parse_add_char] refuses the
    character that would make it longer than the field limit. *)
Definition within_limit (f : pystr) : Prop :=
  (N.of_nat (length f) <= Csv.field_limit)%N.

(** The parser holds fields within the limit. *)
Definition reader_within (r : Csv.reader) : Prop :=
  within_limit (Csv.field r) /\ Forall within_limit (Csv.fields r).

(** * Properties *)

(** ** Strings *)

Lemma lstrip_idem s : lstrip (lstrip s) = lstrip s.
Proof.
  induction s as [|c s IH]; simpl; [done|].
  destruct (is_space c) eqn:E; [done|]. simpl. by rewrite E.
Qed.

Lemma lstrip_head s c t : lstrip s = c :: t -> is_space c = false.
Proof.
  induction s as [|a s IH]; simpl; [done|].
  destruct (is_space a) eqn:E; [done|]. by intros [= <- _].
Qed.

Lemma lstrip_fixed c t : is_space c = false -> lstrip (c :: t) = c :: t.
Proof. intros E. simpl. by rewrite E. Qed.

Lemma rstrip_idem s : rstrip (rstrip s) = rstrip s.
Proof.
  induction s as [|c s IH]; simpl; [done|].
  destruct (rstrip s) as [|a r] eqn:E.
  - destruct (is_space c) eqn:Ec; simpl; [done|]. by rewrite Ec.
  - simpl in *. by rewrite IH.
Qed.

(** Trimming on the right keeps the first character of a string that does
    not start with a space. *)
Lemma rstrip_head c t :
  is_space c = false -> exists t', rstrip (c :: t) = c :: t'.
Proof.
  intros E. simpl. destruct (rstrip t); [rewrite E|]; eauto.
Qed.

Lemma strip_idem s : strip (strip s) = strip s.
Proof.
  unfold strip. destruct (lstrip s) as [|c t] eqn:E; [done|].
  apply lstrip_head in E. destruct (rstrip_head c t E) as [t' Ht].
  rewrite Ht, (lstrip_fixed _ _ E), <- Ht. apply rstrip_idem.
Qed.

Lemma ip_order_trimmed ip_values ip :
  ip ∈ ip_order ip_values -> strip ip = ip /\ ip <> [].
Proof.
  unfold ip_order. intros [x [-> Hx]]%list_elem_of_fmap.
  apply list_elem_of_filter in Hx as [Hne _].
  split; [apply strip_idem | done].
Qed.

(** ** Dicts *)

Lemma dict_get_set d k v : dict_get (dict_set d k v) k = Some v.
Proof.
  induction d as [|[k' v'] d IH]; simpl.
  - by rewrite decide_True.
  - destruct (decide (k' = k)) as [->|Hne]; simpl.
    + by rewrite decide_True.
    + by rewrite decide_False.
Qed.

Lemma dict_get_set_ne d k k' v :
  k <> k' -> dict_get (dict_set d k v) k' = dict_get d k'.
Proof.
  intros Hne. induction d as [|[k0 v0] d IH]; simpl.
  - by rewrite decide_False.
  - destruct (decide (k0 = k)) as [->|Hk]; simpl.
    + by rewrite !decide_False.
    + destruct (decide (k0 = k')); [done | apply IH].
Qed.

Lemma without_id_set d v : without_id (dict_set d (py "id") v) = without_id d.
Proof.
  unfold without_id. induction d as [|[k' v'] d IH]; simpl.
  - by rewrite filter_cons_False, filter_nil by (simpl; tauto).
  - destruct (decide (k' = py "id")) as [->|Hne].
    + by rewrite !filter_cons_False by (simpl; tauto).
    + rewrite !filter_cons_True by done. by rewrite IH.
Qed.

Lemma dict_get_without_id d k :
  k <> py "id" -> dict_get (without_id d) k = dict_get d k.
Proof.
  intros Hne. unfold without_id. induction d as [|[k' v'] d IH]; [done|].
  simpl. destruct (decide (k' = py "id")) as [->|Hk].
  - rewrite filter_cons_False by (simpl; tauto). by rewrite decide_False.
  - rewrite filter_cons_True by done. simpl. by rewrite IH.
Qed.

Lemma src_ip_key_erase v : src_ip_key (erase_id v) = src_ip_key v.
Proof.
  destruct v; try done. simpl. by rewrite dict_get_without_id.
Qed.

Lemma build_allow_rule_set_id ip n m :
  dict_set (build_allow_rule ip n) (py "id") (VInt m) = build_allow_rule ip m.
Proof. reflexivity. Qed.

(** ** The store *)

Lemma stands_for_deref h r v : stands_for h r v -> deref h r = v.
Proof.
  destruct r as [l|v']; simpl.
  - by intros (d & -> & ->).
  - by intros [-> _].
Qed.

Lemma stands_for_app h h2 r v : stands_for h r v -> stands_for (h ++ h2) r v.
Proof.
  destruct r as [l|v']; simpl; [|done].
  intros (d & Hl & ->). exists d. split; [|done].
  by apply lookup_app_l_Some.
Qed.

Lemma stands_for_lt h l v : stands_for h (RObj l) v -> (l < length h)%nat.
Proof. intros (d & Hl & _). by eapply lookup_lt_Some. Qed.

Lemma Forall2_stands_for_deref h rs vs :
  Forall2 (stands_for h) rs vs -> deref h <$> rs = vs.
Proof.
  induction 1 as [|r v rs vs H _ IH]; [done|].
  rewrite fmap_cons. f_equal; [by apply stands_for_deref | done].
Qed.

Lemma locs_cons_obj l rs : locs (RObj l :: rs) = l :: locs rs.
Proof. done. Qed.

Lemma locs_cons_val v rs : locs (RVal v :: rs) = locs rs.
Proof. done. Qed.

Lemma locs_app rs1 rs2 : locs (rs1 ++ rs2) = locs rs1 ++ locs rs2.
Proof. apply omap_app. Qed.

Lemma alloc_fold vs : forall h rs,
  exists h' rs',
    foldl alloc_item (h, rs) vs = (h ++ h', rs ++ rs')
    /\ Forall2 (stands_for (h ++ h')) rs' vs
    /\ locs rs' = seq (length h) (length h').
Proof.
  induction vs as [|v vs IH]; intros h rs.
  - exists [], []. simpl. rewrite !app_nil_r. by repeat split.
  - assert (Hnd : is_dict v = false ->
      exists h' rs',
        foldl alloc_item (h, rs ++ [RVal v]) vs = (h ++ h', rs ++ rs')
        /\ Forall2 (stands_for (h ++ h')) rs' (v :: vs)
        /\ locs rs' = seq (length h) (length h')).
    { intros Hv. destruct (IH h (rs ++ [RVal v])) as (h' & rs' & E & F & L).
      exists h', (RVal v :: rs'). rewrite E, <- app_assoc.
      split; [done|]. split; [|done]. by constructor. }
    destruct v as [| | | | | |d]; try (by apply Hnd).
    simpl foldl.
    destruct (IH (h ++ [d]) (rs ++ [RObj (length h)])) as (h' & rs' & E & F & L).
    exists (d :: h'), (RObj (length h) :: rs').
    simpl in E |- *. rewrite E, <- !app_assoc. simpl.
    split; [done|]. rewrite <- app_assoc in F. simpl in F.
    split.
    + constructor; [|done]. exists d. split; [|done].
      by rewrite list_lookup_middle.
    + unfold locs in *. simpl. rewrite L, length_app. simpl.
      by rewrite Nat.add_1_r.
Qed.

(** The store and the references that decoding a list gives: each reference
    stands for its item, and the dicts sit at the locations [0, 1, ...]. *)
Lemma alloc_spec vs :
  exists h0 rs,
    alloc vs = (h0, rs)
    /\ Forall2 (stands_for h0) rs vs
    /\ locs rs = seq 0 (length h0).
Proof.
  destruct (alloc_fold vs [] []) as (h' & rs' & E & F & L).
  exists h', rs'. by repeat split.
Qed.

(** ** The first pass: [first_seen] *)

Lemma first_seen_fold h ips rs : forall fs0 key,
  foldl (first_seen_step h ips) fs0 rs !! key =
  match fs0 !! key with
  | Some l => Some l
  | None => if decide (key ∈ ips) then first_loc h key rs else None
  end.
Proof.
  induction rs as [|r rs IH]; intros fs0 key.
  - simpl. destruct (fs0 !! key); [done|]. by destruct (decide _).
  - simpl foldl. rewrite IH. destruct r as [l|v]; [|done].
    unfold first_seen_step. cbn [first_loc].
    destruct (src_ip_key (deref h (RObj l))) as [k|] eqn:E.
    + destruct (decide (k ∈ ips /\ fs0 !! k = None)) as [[Hin Hnone]|Hn].
      * destruct (decide (k = key)) as [->|Hk].
        -- rewrite lookup_insert_eq, Hnone.
           by rewrite !decide_True.
        -- rewrite lookup_insert_ne by done.
           destruct (fs0 !! key); [done|].
           destruct (decide (key ∈ ips)); [|done].
           rewrite decide_False; [done | congruence].
      * destruct (fs0 !! key) eqn:Ek; [done|].
        destruct (decide (key ∈ ips)); [|done].
        rewrite decide_False; [done|]. intros [= ->]. by apply Hn.
    + destruct (fs0 !! key); [done|].
      by destruct (decide (key ∈ ips)).
Qed.

Lemma first_seen_lookup h ips rs key :
  first_seen h ips rs !! key =
  if decide (key ∈ ips) then first_loc h key rs else None.
Proof. unfold first_seen. by rewrite first_seen_fold, lookup_empty. Qed.

Lemma src_ip_key_not_dict v : is_dict v = false -> src_ip_key v = None.
Proof. by destruct v. Qed.

Lemma first_loc_match h key rs vs :
  Forall2 (stands_for h) rs vs ->
  match first_loc h key rs with
  | Some l => exists d, h !! l = Some d /\ first_match key vs = Some (VDict d)
  | None => first_match key vs = None
  end.
Proof.
  induction 1 as [|r v rs vs H _ IH]; [done|].
  destruct r as [l|v']; simpl in *.
  - destruct H as (d & Hl & ->). rewrite Hl. simpl.
    destruct (decide (_ = Some key)); [eauto | done].
  - destruct H as [-> Hv].
    rewrite decide_False; [done|]. by rewrite src_ip_key_not_dict.
Qed.

Lemma first_loc_elem h key rs l :
  first_loc h key rs = Some l ->
  RObj l ∈ rs /\ src_ip_key (deref h (RObj l)) = Some key.
Proof.
  induction rs as [|r rs IH]; [done|]. destruct r as [l'|v]; simpl.
  - destruct (decide _) as [E|_].
    + intros [= <-]. split; [left | done].
    + intros [? ?]%IH. split; [by right | done].
  - intros [? ?]%IH. split; [by right | done].
Qed.

(** ** The second pass: the top block *)

Lemma build_top_fold fs ips : forall st,
  foldl (top_step fs) st ips =
  TopState
    (ts_store st ++ ((fun ip => build_allow_rule ip 0) <$> unmatched fs ips))
    (top_rules st ++ top_refs fs (length (ts_store st)) ips)
    (created_rules st ++ seq (length (ts_store st)) (length (unmatched fs ips)))
    (added st + length (unmatched fs ips))%nat
    (skipped st + length (filter (fun ip => is_Some (fs !! ip)) ips))%nat.
Proof.
  unfold unmatched.
  induction ips as [|ip ips IH]; intros st.
  - simpl. rewrite !app_nil_r, !Nat.add_0_r. by destruct st.
  - simpl foldl. rewrite IH. unfold top_step. cbn [top_refs].
    destruct (fs !! ip) as [l|] eqn:E.
    + rewrite filter_cons_False by (by rewrite E).
      rewrite (filter_cons_True (fun ip => is_Some (fs !! ip)))
        by (by rewrite E).
      simpl. rewrite <- app_assoc. f_equal. lia.
    + rewrite filter_cons_True by done.
      rewrite (filter_cons_False (fun ip => is_Some (fs !! ip)))
        by (rewrite E; by intros [? ?]).
      simpl. rewrite length_app, <- !app_assoc. simpl.
      rewrite Nat.add_1_r. f_equal. lia.
Qed.

Lemma top_refs_deref h0 ips rs vs allow :
  Forall2 (stands_for h0) rs vs ->
  forall entries x,
    entries ⊆ allow ->
    (forall ip, ip ∈ allow -> ip ∈ ips) ->
    deref ((h0 ++ x) ++ ((fun ip => build_allow_rule ip 0)
                           <$> unmatched (first_seen h0 ips rs) entries))
      <$> top_refs (first_seen h0 ips rs) (length (h0 ++ x)) entries
    = top_value vs <$> entries.
Proof.
  intros F entries. unfold unmatched. set (fs := first_seen h0 ips rs).
  induction entries as [|ip entries IH]; intros x Hsub Hin; [done|].
  assert (Hip : ip ∈ ips) by (apply Hin, Hsub; left).
  assert (Hsub' : entries ⊆ allow) by (intros ? ?; apply Hsub; by right).
  pose proof (first_seen_lookup h0 ips rs ip) as Hfs. fold fs in Hfs.
  rewrite decide_True in Hfs by done.
  pose proof (first_loc_match h0 ip rs vs F) as Hm.
  assert (Htv : top_value vs <$> ip :: entries
                = top_value vs ip :: (top_value vs <$> entries)) by done.
  rewrite Htv. clear Htv. unfold top_value at 1.
  destruct (fs !! ip) as [l|] eqn:E; rewrite <- Hfs in Hm.
  - destruct Hm as (d & Hl & ->).
    rewrite filter_cons_False by (by rewrite E).
    cbn [top_refs]. rewrite E, fmap_cons. f_equal.
    + simpl. rewrite <- app_assoc. by rewrite (lookup_app_l_Some _ _ _ _ Hl).
    + by apply IH.
  - rewrite Hm. rewrite filter_cons_True by done.
    cbn [top_refs]. rewrite E, !fmap_cons. f_equal.
    + simpl. by rewrite list_lookup_middle.
    + specialize (IH (x ++ [build_allow_rule ip 0]) Hsub' Hin).
      rewrite <- IH. f_equal.
      * f_equal. rewrite <- !app_assoc. done.
      * f_equal. rewrite !length_app. simpl. lia.
Qed.

Lemma in_top_block_listed (h : store) (ips : gset pystr)
    (allow : list pystr) (r : ref) (v : value) :
  (forall ip, ip ∈ ips <-> ip ∈ allow) ->
  stands_for h r v ->
  in_top_block h ips r = false <-> ~ listed allow v.
Proof.
  intros Hips H. unfold in_top_block, listed.
  destruct r as [l|v'].
  - rewrite (stands_for_deref _ _ _ H).
    destruct (src_ip_key v) as [key|]; [|tauto].
    rewrite bool_decide_eq_false. by rewrite Hips.
  - destruct H as [-> Hv]. rewrite src_ip_key_not_dict by done. tauto.
Qed.

Lemma remaining_rules_spec (h : store) (ips : gset pystr)
    (allow : list pystr) (rs : list ref) (vs : list value) :
  (forall ip, ip ∈ ips <-> ip ∈ allow) ->
  Forall2 (stands_for h) rs vs ->
  Forall2 (stands_for h) (remaining_rules h ips rs) (rest_values allow vs).
Proof.
  intros Hips. unfold remaining_rules, rest_values.
  induction 1 as [|r v rs vs H _ IH]; [constructor|].
  pose proof (in_top_block_listed h ips allow r v Hips H) as Hiff.
  destruct (decide (listed allow v)) as [Hl|Hl].
  - rewrite !filter_cons_False; [done | tauto | tauto].
  - rewrite !filter_cons_True; [by constructor | done | tauto].
Qed.

(** ** Assigning ids *)

Lemma set_id_erase h l n : without_id <$> set_id h l n = without_id <$> h.
Proof.
  unfold set_id. apply list_eq. intros i.
  rewrite !list_lookup_fmap, list_lookup_alter.
  destruct (decide (l = i)) as [->|]; [|done].
  destruct (h !! i); [|done]. simpl. by rewrite without_id_set.
Qed.

Lemma set_id_length h l n : length (set_id h l n) = length h.
Proof. apply length_alter. Qed.

Lemma assign_created_erase created : forall h n,
  without_id <$> (assign_created h n created).1 = without_id <$> h.
Proof.
  unfold assign_created.
  induction created as [|l created IH]; intros h n; [done|].
  simpl. by rewrite IH, set_id_erase.
Qed.

Lemma renumber_erase rs : forall h n,
  without_id <$> (renumber h n rs).1 = without_id <$> h.
Proof.
  unfold renumber.
  induction rs as [|r rs IH]; intros h n; [done|].
  simpl. destruct r; rewrite IH; [apply set_id_erase | done].
Qed.

Lemma deref_erase h h' r :
  without_id <$> h = without_id <$> h' ->
  erase_id (deref h r) = erase_id (deref h' r).
Proof.
  intros E. destruct r as [l|v]; [|done]. simpl.
  assert (E' : (without_id <$> h) !! l = (without_id <$> h') !! l)
    by (by rewrite E).
  rewrite !list_lookup_fmap in E'.
  destruct (h !! l), (h' !! l); simpl in *; congruence.
Qed.

(** ** The new list, piece by piece *)

Lemma ip_set_elem ip_values ip :
  ip ∈ ip_set ip_values <-> ip ∈ ip_order ip_values.
Proof. unfold ip_set. apply elem_of_list_to_set. Qed.

(** [rebuild] laid out: the decoded objects, the two passes, and the store
    after the ids are assigned. *)
Lemma rebuild_unfold rules_list max_id_any ip_values keep_ids :
  exists h0 rs fs,
    Forall2 (stands_for h0) rs rules_list
    /\ locs rs = seq 0 (length h0)
    /\ fs = first_seen h0 (ip_set ip_values) rs
    /\ rebuild rules_list max_id_any ip_values keep_ids =
       let news := (fun ip => build_allow_rule ip 0)
                     <$> unmatched fs (ip_order ip_values) in
       let new_list := top_refs fs (length h0) (ip_order ip_values)
                       ++ remaining_rules h0 (ip_set ip_values) rs in
       Rebuilt
         (if keep_ids
          then (assign_created (h0 ++ news) (max_id_any + 1)
                  (seq (length h0) (length news))).1
          else (renumber (h0 ++ news) 1 new_list).1)
         new_list
         (length (unmatched fs (ip_order ip_values)))
         (length (filter (fun ip => is_Some (fs !! ip)) (ip_order ip_values))).
Proof.
  destruct (alloc_spec rules_list) as (h0 & rs & E & F & L).
  exists h0, rs, (first_seen h0 (ip_set ip_values) rs).
  repeat split; [done | done |].
  unfold rebuild. rewrite E. unfold build_top. rewrite build_top_fold.
  simpl. by rewrite length_fmap.
Qed.

(** Ids apart, the new list is the top block, one rule per entry in the
    allow-list's order, followed by the rules for other addresses in their
    original order. *)
Lemma rules_out_erase rules_list max_id_any ip_values keep_ids :
  erase_id <$> rules_out (rebuild rules_list max_id_any ip_values keep_ids)
  = erase_id <$> ((top_value rules_list <$> ip_order ip_values)
                  ++ rest_values (ip_order ip_values) rules_list).
Proof.
  destruct (rebuild_unfold rules_list max_id_any ip_values keep_ids)
    as (h0 & rs & fs & F & L & -> & ->).
  set (fs := first_seen h0 (ip_set ip_values) rs).
  set (news := (fun ip => build_allow_rule ip 0)
                 <$> unmatched fs (ip_order ip_values)).
  cbv zeta. unfold rules_out. cbn [rb_store new_rules_list].
  set (h := if keep_ids then _ else _).
  assert (Hh : without_id <$> h = without_id <$> (h0 ++ news)).
  { unfold h. destruct keep_ids;
      [apply assign_created_erase | apply renumber_erase]. }
  rewrite <- list_fmap_compose.
  rewrite (list_fmap_ext _ (erase_id ∘ deref (h0 ++ news)))
    by (intros ? r _; simpl; by apply deref_erase).
  rewrite list_fmap_compose. f_equal.
  rewrite fmap_app. f_equal.
  - pose proof (top_refs_deref h0 (ip_set ip_values) rs rules_list
                  (ip_order ip_values) F (ip_order ip_values) []) as H.
    rewrite app_nil_r in H. apply H; [done|].
    intros ip. apply ip_set_elem.
  - apply Forall2_stands_for_deref.
    eapply Forall2_impl; [|intros ? ? H; apply stands_for_app, H].
    apply remaining_rules_spec; [apply ip_set_elem | done].
Qed.

Lemma first_match_Some a rules v :
  first_match a rules = Some v -> src_ip_key v = Some a /\ v ∈ rules.
Proof.
  induction rules as [|w rules IH]; [done|]. simpl.
  destruct (decide (src_ip_key w = Some a)) as [E|_].
  - intros [= <-]. split; [done | left].
  - intros [? ?]%IH. split; [done | by right].
Qed.

Lemma first_match_None a rules :
  first_match a rules = None <-> forall v, v ∈ rules -> src_ip_key v <> Some a.
Proof.
  induction rules as [|w rules IH]; simpl.
  - split; [|done]. intros _ v Hv. by apply elem_of_nil in Hv.
  - destruct (decide (src_ip_key w = Some a)) as [E|E].
    + split; [done|]. intros H. exfalso. apply (H w); [left | done].
    + rewrite IH. split.
      * intros H v [->|Hv]%elem_of_cons; [done | by apply H].
      * intros H v Hv. apply H. by right.
Qed.

Lemma src_ip_key_dict v a : src_ip_key v = Some a -> exists d, v = VDict d.
Proof. destruct v; try done. eauto. Qed.

Lemma erase_id_dict v d :
  erase_id v = VDict d -> exists d', v = VDict d' /\ without_id d' = d.
Proof. destruct v; try done. intros [= <-]. eauto. Qed.

Lemma without_id_build_allow_rule ip n :
  without_id (build_allow_rule ip n) = default_fields ip.
Proof. reflexivity. Qed.

(** ** The claims about the top block *)

(** The new list begins with one rule per entry of [ip_order]: the first
    rule of the original list with that trimmed ["src_ip"], its fields
    other than ["id"] unchanged, or a rule with the default policy fields
    and the entry as ["src_ip"]. *)
Lemma top_block_rules rules_list max_id_any ip_values keep_ids :
  Forall2 (fun ip v => top_rule_for rules_list ip v)
    (ip_order ip_values)
    (take (length (ip_order ip_values))
       (rules_out (rebuild rules_list max_id_any ip_values keep_ids))).
Proof.
  pose proof (rules_out_erase rules_list max_id_any ip_values keep_ids) as E.
  apply (f_equal (take (length (ip_order ip_values)))) in E.
  rewrite fmap_app, take_app_length' in E by (by rewrite !length_fmap).
  rewrite <- fmap_take in E. symmetry in E.
  rewrite <- list_fmap_compose in E.
  apply list_eq_Forall2 in E.
  apply (Forall2_fmap_1 (erase_id ∘ top_value rules_list) erase_id) in E.
  eapply Forall2_impl; [exact E|]. clear E.
  intros ip v E. simpl in E. unfold top_rule_for, top_value in *.
  destruct (first_match ip rules_list) as [v0|] eqn:Hm.
  - destruct (first_match_Some _ _ _ Hm) as [[d0 ->]%src_ip_key_dict _].
    symmetry in E. apply erase_id_dict in E as (d & -> & E). eauto.
  - symmetry in E. apply erase_id_dict in E as (d & -> & E).
    exists d. by rewrite E.
Qed.

(** ** Counts *)

Lemma filter_iff_elem {A} (P Q : A -> Prop) `{!forall x, Decision (P x)}
    `{!forall x, Decision (Q x)} (l : list A) :
  (forall x, x ∈ l -> P x <-> Q x) -> filter P l = filter Q l.
Proof.
  induction l as [|a l IH]; intros HPQ; [done|].
  assert (Ha : P a <-> Q a) by (apply HPQ; left).
  assert (Hl : filter P l = filter Q l)
    by (apply IH; intros; apply HPQ; by right).
  destruct (decide (P a)).
  - rewrite !filter_cons_True by tauto. by rewrite Hl.
  - rewrite !filter_cons_False by tauto. done.
Qed.

(** An entry is absent from [first_seen] exactly when no rule matches it. *)
Lemma first_seen_None h0 ip_values rs vs ip :
  Forall2 (stands_for h0) rs vs ->
  ip ∈ ip_order ip_values ->
  first_seen h0 (ip_set ip_values) rs !! ip = None
  <-> first_match ip vs = None.
Proof.
  intros F Hip. rewrite first_seen_lookup.
  rewrite decide_True by (by apply ip_set_elem).
  pose proof (first_loc_match h0 ip rs vs F) as Hm.
  destruct (first_loc h0 ip rs).
  - destruct Hm as (d & _ & ->). done.
  - by rewrite Hm.
Qed.

(** The counts of the loop over the allow-list. *)
Lemma rebuild_counts rules_list max_id_any ip_values keep_ids :
  let rb := rebuild rules_list max_id_any ip_values keep_ids in
  counts_of rules_list ip_values (rb_added rb) (rb_skipped rb).
Proof.
  destruct (rebuild_unfold rules_list max_id_any ip_values keep_ids)
    as (h0 & rs & fs & F & L & -> & ->).
  cbv zeta. cbn [rb_added rb_skipped]. unfold unmatched, counts_of.
  assert (E1 : filter (fun ip => first_seen h0 (ip_set ip_values) rs !! ip = None)
                 (ip_order ip_values)
               = filter (fun ip => first_match ip rules_list = None)
                   (ip_order ip_values)).
  { apply filter_iff_elem. intros ip Hip. by apply first_seen_None. }
  assert (E2 : filter (fun ip => is_Some (first_seen h0 (ip_set ip_values) rs !! ip))
                 (ip_order ip_values)
               = filter (fun ip => is_Some (first_match ip rules_list))
                   (ip_order ip_values)).
  { apply filter_iff_elem. intros ip Hip.
    rewrite <- !not_eq_None_Some. by rewrite first_seen_None. }
  rewrite E1, E2. clear E1 E2. split; [done|]. split; [done|].
  intros Hall. induction Hall as [|ip l Hip _ IH]; [done|].
  rewrite filter_cons_True by done.
  rewrite filter_cons_False by (rewrite Hip; by intros [? ?]).
  simpl. destruct IH as [-> ->]. done.
Qed.

(** ** Keeping ids *)

Lemma assign_created_seq entries : forall (hpre : store) n,
  (assign_created (hpre ++ ((fun ip => build_allow_rule ip 0) <$> entries)) n
     (seq (length hpre) (length entries))).1
  = hpre ++ numbered_rules n entries.
Proof.
  unfold assign_created.
  induction entries as [|ip entries IH]; intros hpre n; [done|].
  rewrite fmap_cons. simpl length. simpl seq. simpl foldl.
  assert (E : set_id (hpre ++ build_allow_rule ip 0
                        :: ((fun ip => build_allow_rule ip 0) <$> entries))
                (length hpre) n
              = (hpre ++ [build_allow_rule ip n])
                ++ ((fun ip => build_allow_rule ip 0) <$> entries)).
  { unfold set_id. apply list_eq. intros i.
    rewrite list_lookup_alter. rewrite <- app_assoc. simpl.
    destruct (decide (length hpre = i)) as [<-|Hne].
    - by rewrite !list_lookup_middle.
    - destruct (decide (i < length hpre)%nat).
      + by rewrite !lookup_app_l.
      + rewrite !lookup_app_r by lia.
        destruct (i - length hpre)%nat eqn:Ei; [lia | done]. }
  rewrite E.
  specialize (IH (hpre ++ [build_allow_rule ip n]) (n + 1)).
  rewrite length_app in IH. simpl in IH. rewrite Nat.add_1_r in IH.
  rewrite IH, <- app_assoc. done.
Qed.

Lemma top_refs_deref_keep h0 ips rs vs allow :
  Forall2 (stands_for h0) rs vs ->
  forall entries x n,
    entries ⊆ allow ->
    (forall ip, ip ∈ allow -> ip ∈ ips) ->
    deref ((h0 ++ x)
           ++ numbered_rules n (unmatched (first_seen h0 ips rs) entries))
      <$> top_refs (first_seen h0 ips rs) (length (h0 ++ x)) entries
    = top_values_keep vs n entries.
Proof.
  intros F entries. unfold unmatched. set (fs := first_seen h0 ips rs).
  induction entries as [|ip entries IH]; intros x n Hsub Hin; [done|].
  assert (Hip : ip ∈ ips) by (apply Hin, Hsub; left).
  assert (Hsub' : entries ⊆ allow) by (intros ? ?; apply Hsub; by right).
  pose proof (first_seen_lookup h0 ips rs ip) as Hfs. fold fs in Hfs.
  rewrite decide_True in Hfs by done.
  pose proof (first_loc_match h0 ip rs vs F) as Hm.
  cbn [top_values_keep].
  destruct (fs !! ip) as [l|] eqn:E; rewrite <- Hfs in Hm.
  - destruct Hm as (d & Hl & ->).
    rewrite filter_cons_False by (by rewrite E).
    cbn [top_refs]. rewrite E, fmap_cons. f_equal.
    + simpl. rewrite <- app_assoc. by rewrite (lookup_app_l_Some _ _ _ _ Hl).
    + by apply IH.
  - rewrite Hm. rewrite filter_cons_True by done.
    cbn [top_refs numbered_rules]. rewrite E, !fmap_cons. f_equal.
    + simpl. by rewrite list_lookup_middle.
    + specialize (IH (x ++ [build_allow_rule ip n]) (n + 1) Hsub' Hin).
      rewrite <- IH. f_equal.
      * f_equal. rewrite <- !app_assoc. done.
      * f_equal. rewrite !length_app. simpl. lia.
Qed.

(** With [keep_ids], the new list is the top block, existing rules as they
    were and new rules numbered from [max_id_any + 1], followed by the
    untouched rules for other addresses. *)
Lemma rules_out_keep rules_list max_id_any ip_values :
  rules_out (rebuild rules_list max_id_any ip_values true)
  = top_values_keep rules_list (max_id_any + 1) (ip_order ip_values)
    ++ rest_values (ip_order ip_values) rules_list.
Proof.
  destruct (rebuild_unfold rules_list max_id_any ip_values true)
    as (h0 & rs & fs & F & L & -> & ->).
  cbv zeta. unfold rules_out. cbn [rb_store new_rules_list].
  rewrite length_fmap, assign_created_seq, fmap_app. f_equal.
  - pose proof (top_refs_deref_keep h0 (ip_set ip_values) rs rules_list
                  (ip_order ip_values) F (ip_order ip_values) []) as H.
    rewrite app_nil_r in H. apply H; [done|].
    intros ip. apply ip_set_elem.
  - apply Forall2_stands_for_deref.
    eapply Forall2_impl; [|intros ? ? H; apply stands_for_app, H].
    apply remaining_rules_spec; [apply ip_set_elem | done].
Qed.

Lemma top_values_keep_length rules entries : forall n,
  length (top_values_keep rules n entries) = length entries.
Proof.
  induction entries as [|ip entries IH]; intros n; [done|]. simpl.
  destruct (first_match ip rules); simpl; by rewrite IH.
Qed.

Lemma top_values_keep_reused rules entries : forall n,
  Forall2 (fun ip v =>
             match first_match ip rules with
             | Some v0 => v = v0
             | None => True
             end) entries (top_values_keep rules n entries).
Proof.
  induction entries as [|ip entries IH]; intros n; [constructor|]. simpl.
  destruct (first_match ip rules) eqn:E; constructor;
    try (by rewrite E); apply IH.
Qed.

Lemma top_values_keep_ids rules entries : forall n,
  rule_id <$> synthesized rules entries (top_values_keep rules n entries)
  = consecutive n
      (length (filter (fun ip => first_match ip rules = None) entries)).
Proof.
  unfold synthesized.
  induction entries as [|ip entries IH]; intros n; [done|].
  cbn [top_values_keep].
  destruct (first_match ip rules) eqn:E; cbn [zip zip_with].
  - rewrite !filter_cons_False by (simpl; by rewrite E). apply IH.
  - rewrite !filter_cons_True by done.
    rewrite !fmap_cons. simpl. f_equal. apply IH.
Qed.

Lemma foldr_max_init l : forall a n,
  foldr Z.max (Z.max a n) l = Z.max n (foldr Z.max a l).
Proof.
  induction l as [|x l IH]; intros a n; simpl; [lia|]. rewrite IH. lia.
Qed.

Lemma max_of_nonneg l : 0 <= max_of l.
Proof. unfold max_of. induction l as [|x l IH]; simpl; lia. Qed.

Lemma max_of_app l1 l2 : max_of (l1 ++ l2) = Z.max (max_of l1) (max_of l2).
Proof.
  unfold max_of. induction l1 as [|x l1 IH]; simpl.
  - pose proof (max_of_nonneg l2). unfold max_of in *. lia.
  - rewrite IH. lia.
Qed.

Lemma max_of_ge l : Forall (fun n => n <= max_of l) l.
Proof.
  unfold max_of. induction l as [|x l IH]; constructor; simpl; [lia|].
  eapply Forall_impl; [exact IH|]. simpl. intros. lia.
Qed.

Lemma max_of_attained l : max_of l = 0 \/ max_of l ∈ l.
Proof.
  unfold max_of. induction l as [|x l IH]; simpl; [by left|].
  destruct (Z.max_spec x (foldr Z.max 0 l)) as [[_ ->]|[_ ->]].
  - destruct IH as [?|?]; [by left | right; by right].
  - right; left.
Qed.

Section MaxId.

Context `{Library}.

Lemma collect_fold_max vs : forall acc,
  (foldl collect_step acc vs).1
  = foldr Z.max acc.1 (observed_ids vs).
Proof.
  unfold observed_ids.
  induction vs as [|v vs IH]; intros acc; [done|].
  simpl foldl. rewrite IH. clear IH.
  destruct v as [| | | | | |d]; try done.
  simpl. destruct (dict_get d (py "id")) as [i|]; simpl; [|done].
  destruct (py_int i) as [n|]; simpl; [|done].
  apply foldr_max_init.
Qed.

Lemma collect_max vs :
  (collect_existing_ids_and_src_ips vs).1
  = max_of (observed_ids vs).
Proof. unfold collect_existing_ids_and_src_ips. by rewrite collect_fold_max. Qed.

Lemma max_id_any_spec rules_list rulesv6_list :
  max_id_any rules_list rulesv6_list
  = max_of (observed_ids rules_list
            ++ observed_ids (items rulesv6_list)).
Proof.
  unfold max_id_any. rewrite max_of_app, !collect_max.
  pose proof (max_of_nonneg (observed_ids rules_list)).
  destruct rulesv6_list; cbn [items];
    try (change (max_of (observed_ids [])) with 0; lia).
  by rewrite collect_max.
Qed.

(** With [keep_ids], on the list built from the decoded rules: a reused
    rule is in the top block as it was, the rules below the block too, and
    the synthesized rules get the consecutive ids above the highest id. *)
Lemma keep_ids_rebuild rules_list rulesv6_list ip_values :
  let m := max_id_any rules_list rulesv6_list in
  let entries := ip_order ip_values in
  let out := rules_out (rebuild rules_list m ip_values true) in
  let block := take (length entries) out in
  m = max_of (observed_ids rules_list
              ++ observed_ids (items rulesv6_list))
  /\ Forall (fun n => n <= m)
       (observed_ids rules_list
        ++ observed_ids (items rulesv6_list))
  /\ Forall2 (fun ip v =>
                match first_match ip rules_list with
                | Some v0 => v = v0
                | None => True
                end) entries block
  /\ rule_id <$> synthesized rules_list entries block
     = consecutive (m + 1)
         (length (filter (fun ip => first_match ip rules_list = None) entries))
  /\ drop (length entries) out = rest_values entries rules_list.
Proof.
  intros m entries out block.
  assert (Hout : out = top_values_keep rules_list (m + 1) entries
                       ++ rest_values entries rules_list)
    by apply rules_out_keep.
  assert (Hblock : block = top_values_keep rules_list (m + 1) entries).
  { unfold block. rewrite Hout.
    by rewrite take_app_length' by (by rewrite top_values_keep_length). }
  split; [apply max_id_any_spec|].
  split; [unfold m; rewrite max_id_any_spec; apply max_of_ge|].
  rewrite Hblock. split; [apply top_values_keep_reused|].
  split; [apply top_values_keep_ids|].
  rewrite Hout.
  by rewrite drop_app_length' by (by rewrite top_values_keep_length).
Qed.

End MaxId.

(** ** Renumbering *)

Lemma stands_for_wf h r v : stands_for h r v -> ref_wf h r.
Proof.
  destruct r as [l|v']; simpl.
  - intros (d & Hl & _). by eapply lookup_lt_Some.
  - by intros [-> ?].
Qed.

Lemma renumber_cons h n r rs :
  renumber h n (r :: rs) =
  match r with
  | RObj l => renumber (set_id h l n) (n + 1) rs
  | RVal _ => renumber h n rs
  end.
Proof. by destruct r. Qed.

Lemma renumber_length rs : forall h n,
  length (renumber h n rs).1 = length h.
Proof.
  induction rs as [|r rs IH]; intros h n; [done|].
  rewrite renumber_cons. destruct r; rewrite IH; [apply set_id_length | done].
Qed.

Lemma renumber_untouched rs : forall h n l,
  l ∉ locs rs -> (renumber h n rs).1 !! l = h !! l.
Proof.
  induction rs as [|r rs IH]; intros h n l Hl; [done|].
  rewrite renumber_cons. destruct r as [l'|v].
  - unfold locs in Hl. simpl in Hl. apply not_elem_of_cons in Hl as [Hne Hl].
    rewrite IH by done. unfold set_id. by rewrite list_lookup_alter_ne.
  - by apply IH.
Qed.

Lemma rule_ids_cons v vs :
  rule_ids (v :: vs)
  = if is_dict v then rule_id v :: rule_ids vs else rule_ids vs.
Proof.
  unfold rule_ids. destruct (is_dict v) eqn:E.
  - by rewrite filter_cons_True.
  - rewrite filter_cons_False; [done | by rewrite E].
Qed.

(** Renumbering a list whose dicts are pairwise distinct objects gives them
    consecutive ids in the order of the list. *)
Lemma renumber_ids rs : forall h n,
  NoDup (locs rs) ->
  Forall (ref_wf h) rs ->
  rule_ids (deref (renumber h n rs).1 <$> rs)
  = consecutive n (length (locs rs)).
Proof.
  induction rs as [|r rs IH]; intros h n Hnd Hwf; [done|].
  apply Forall_cons in Hwf as [Hr Hwf].
  rewrite renumber_cons, fmap_cons, rule_ids_cons.
  destruct r as [l|v]; simpl in Hr.
  - unfold locs in Hnd |- *. simpl in Hnd |- *.
    apply NoDup_cons in Hnd as [Hl Hnd].
    destruct (lookup_lt_is_Some_2 h l Hr) as [d Hd].
    assert (E : (renumber (set_id h l n) (n + 1) rs).1 !! l
                = Some (dict_set d (py "id") (VInt n))).
    { rewrite renumber_untouched by done.
      unfold set_id. by rewrite list_lookup_alter_eq, Hd. }
    rewrite E. simpl. rewrite dict_get_set. f_equal.
    apply IH; [done|].
    eapply Forall_impl; [exact Hwf|].
    intros [l'|v']; simpl; [by rewrite set_id_length | done].
  - cbn [deref]. rewrite Hr. by apply IH.
Qed.

Lemma locs_length_dicts h rs vs :
  Forall2 (stands_for h) rs vs ->
  length (locs rs) = length (filter (fun v => is_dict v = true) vs).
Proof.
  induction 1 as [|r v rs vs H _ IH]; [done|].
  destruct r as [l|v']; simpl in H.
  - destruct H as (d & _ & ->). rewrite filter_cons_True by done.
    rewrite locs_cons_obj. simpl. by rewrite IH.
  - destruct H as [-> Hv]. rewrite filter_cons_False by (by rewrite Hv).
    by rewrite locs_cons_val.
Qed.

Lemma rest_values_nil rules : rest_values [] rules = rules.
Proof.
  unfold rest_values. induction rules as [|v rules IH]; [done|].
  rewrite filter_cons_True, IH; [done|].
  unfold listed. destruct (src_ip_key v); [apply not_elem_of_nil | tauto].
Qed.

Lemma remaining_rules_empty h rs : remaining_rules h ∅ rs = rs.
Proof.
  unfold remaining_rules. induction rs as [|r rs IH]; [done|].
  rewrite filter_cons_True, IH; [done|].
  destruct r as [l|v]; [|done]. unfold in_top_block.
  destruct (src_ip_key _); [|done].
  apply bool_decide_eq_false, not_elem_of_empty.
Qed.

(** C7: with an empty allow-list and [keep_ids] the new list is the old one;
    without [keep_ids] it has the same items in the same order, each dict
    with the same fields apart from ["id"], and the dicts carry the ids
    [1, 2, ...] in order. *)
Theorem empty_allow_list_round_trip rules_list max_id_any :
  rules_out (rebuild rules_list max_id_any [] true) = rules_list
  /\ erase_id <$> rules_out (rebuild rules_list max_id_any [] false)
     = erase_id <$> rules_list
  /\ rule_ids (rules_out (rebuild rules_list max_id_any [] false))
     = consecutive 1 (length (filter (fun v => is_dict v = true) rules_list)).
Proof.
  split; [|split].
  - rewrite rules_out_keep. simpl. apply rest_values_nil.
  - rewrite rules_out_erase. simpl. by rewrite rest_values_nil.
  - destruct (rebuild_unfold rules_list max_id_any [] false)
      as (h0 & rs & fs & F & L & -> & ->).
    cbv zeta. unfold rules_out. cbn [rb_store new_rules_list].
    change (ip_order []) with (@nil pystr).
    change (ip_set []) with (∅ : gset pystr).
    simpl. rewrite app_nil_r, remaining_rules_empty.
    rewrite renumber_ids.
    + by rewrite (locs_length_dicts h0 rs rules_list).
    + rewrite L. apply NoDup_seq.
    + eapply Forall2_Forall_l; [exact F|].
      apply Forall_forall. intros v _ r Hr. by eapply stands_for_wf.
Qed.

(** ** The row and the files *)

Lemma bind_Ok {A B} (a : A) (k : A -> result B) : Ok a ≫= k = k a.
Proof. done. Qed.

Lemma bind_Raise {A B} e (k : A -> result B) : Raise e ≫= k = Raise e.
Proof. done. Qed.

Ltac bind_step := rewrite ?bind_Ok, ?bind_Raise.

Lemma write_all_ok chunks : forall first text,
  write_all first chunks = (text, Ok ()) ->
  text = match chunks with
         | [] => []
         | _ :: _ => (if first then [BOM] else []) ++ concat chunks
         end.
Proof.
  induction chunks as [|c chunks IH]; intros first text; simpl.
  - by intros [= <-].
  - destruct (encodable c); [|done].
    destruct (write_all false chunks) as [t r] eqn:E.
    intros [= <- ->]. rewrite (IH false t E).
    destruct chunks; simpl; by rewrite ?app_nil_r.
Qed.

Lemma bak_ne (csv_path : pystr) : csv_path ++ py ".bak" <> csv_path.
Proof.
  intros E. apply (f_equal length) in E. rewrite length_app in E.
  simpl in E. lia.
Qed.

Section ScriptFacts.

Context `{Library}.

Lemma update_rules_in_row_decoded header row ip_values keep_ids
    i rules_list rulesv6_list :
  decode_row header row = Ok (i, rules_list, rulesv6_list) ->
  let rb := rebuild rules_list (max_id_any rules_list rulesv6_list)
              ip_values keep_ids in
  update_rules_in_row header row ip_values keep_ids
  = text ← dump_json_field (VList (rules_out rb));
    Ok (<[i := text]> row, (rb_added rb, rb_skipped rb)).
Proof. intros E. unfold update_rules_in_row. by rewrite E. Qed.

Lemma decode_row_eq_update header row ip_values keep_ids :
  update_rules_in_row header row ip_values keep_ids
  = '(i, rules_list, rulesv6_list) ← decode_row header row;
    let rb := rebuild rules_list (max_id_any rules_list rulesv6_list)
                ip_values keep_ids in
    text ← dump_json_field (VList (rules_out rb));
    Ok (<[i := text]> row, (rb_added rb, rb_skipped rb)).
Proof. done. Qed.

Lemma update_rules_in_row_inv header row ip_values keep_ids row' a s :
  update_rules_in_row header row ip_values keep_ids = Ok (row', (a, s)) ->
  exists i rules_list rulesv6_list text,
    decode_row header row = Ok (i, rules_list, rulesv6_list)
    /\ let rb := rebuild rules_list
                   (max_id_any rules_list rulesv6_list)
                   ip_values keep_ids in
       dump_json_field (VList (rules_out rb)) = Ok text
       /\ row' = <[i := text]> row
       /\ a = rb_added rb /\ s = rb_skipped rb.
Proof.
  unfold update_rules_in_row.
  destruct (decode_row header row) as [[[i rules] v6]|e] eqn:E; bind_step;
    [|done].
  destruct (dump_json_field _) as [text|e] eqn:Ed; bind_step; [|done].
  intros [= <- <- <-]. by exists i, rules, v6, text.
Qed.

Lemma decode_row_eq header row :
  decode_row header row
  = match index header (py "rules") with
    | None => Raise (ValueError (py "CSV header is missing 'rules' column"))
    | Some i =>
        match row !! i with
        | None => Raise IndexError
        | Some raw =>
            rules_list ← read_rules raw;
            rulesv6_list ← read_rulesv6 header row;
            Ok (i, rules_list, rulesv6_list)
        end
    end.
Proof.
  unfold decode_row, read_rules, read_rulesv6, getitem.
  destruct (index header (py "rules")) as [i|]; bind_step; [|done].
  destruct (row !! i) as [raw|]; bind_step; [|done].
  by destruct (parse_json_field (Some raw)) as [v|e]; bind_step.
Qed.

Lemma read_rules_Ok raw rules :
  read_rules raw = Ok rules <-> rules_decoded raw rules.
Proof.
  unfold read_rules, parse_json_field, rules_decoded.
  destruct (decide (raw = [])) as [->|Hne]; bind_step.
  - split; [intros [= <-]; by left|]. by intros [[_ ->]|[? _]].
  - destruct (json_loads raw) as [v|e|e] eqn:Hj; bind_step.
    + split.
      * intros Hv. right. split; [done|].
        destruct v; simplify_eq; by (left + right).
      * intros [[? _]|[_ [[[= ->] ->]|[= ->]]]]; done.
    + split; [done|]. by intros [[? _]|[_ [[? _]|?]]].
    + split; [done|]. by intros [[? _]|[_ [[? _]|?]]].
Qed.

Lemma read_rules_Raise header row i raw :
  index header (py "rules") = Some i -> row !! i = Some raw ->
  (exists e, read_rules raw = Raise e)
  <-> (undecodable raw \/ not_a_list raw) \/ loads_raises header row.
Proof.
  intros Hi Hraw. unfold read_rules, parse_json_field, undecodable, not_a_list,
    loads_raises, rules_field.
  destruct (decide (raw = [])) as [->|Hne]; bind_step.
  - split; [by intros [? ?]|].
    intros [[[? _]|[? _]]|(raw' & e & (i' & ? & ?) & ? & _)];
      by simplify_eq.
  - destruct (json_loads raw) as [v|e|e] eqn:Hj; bind_step.
    + assert (Hlist : (exists l, v = VList l) \/ v = VNone
                      \/ (v <> VNone /\ forall l, v <> VList l))
        by (destruct v; eauto; right; right; done).
      destruct Hlist as [[l ->]|[->|[Hn Hl]]].
      * split; [by intros [? ?]|].
        intros [[[_ [? ?]]|[_ (v' & ? & ? & Hl')]]
               |(raw' & e & (i' & ? & ?) & ? & ?)];
          simplify_eq; try congruence; by edestruct Hl'.
      * split; [by intros [? ?]|].
        intros [[[_ [? ?]]|[_ (v' & ? & ? & Hl')]]
               |(raw' & e & (i' & ? & ?) & ? & ?)];
          simplify_eq; congruence.
      * split.
        -- intros _. left. right. split; [done|]. by exists v.
        -- intros _.
           destruct v as [| | | | |l|];
             [by destruct Hn | by eexists | by eexists | by eexists
             | by eexists | by destruct (Hl l) | by eexists].
    + split; [|intros _; by eexists]. intros _. left. left.
      split; [done | by exists e].
    + split; [|intros _; by eexists]. intros _. right.
      exists raw, e. split; [by exists i | done].
Qed.

Lemma is_ValueError_spec e : is_ValueError e = true <-> value_error e.
Proof.
  split.
  - destruct e; try done; constructor.
  - by intros [msg|].
Qed.

Lemma read_rulesv6_Raise header row :
  (exists e, read_rulesv6 header row = Raise e)
  <-> lacks_cell header row (py "rulesv6") \/ rulesv6_raises header row.
Proof.
  unfold read_rulesv6, lacks_cell, rulesv6_raises, getitem, parse_json_field.
  destruct (index header (py "rulesv6")) as [j|]; bind_step.
  2:{ split; [by intros [? ?]|].
      by intros [(? & ? & ?)|(? & ? & ? & ? & ?)]. }
  destruct (row !! j) as [raw|] eqn:Hraw; bind_step.
  2:{ split; [intros _; left; by exists j | intros _; by eexists]. }
  destruct (decide (raw = [])) as [->|Hne].
  { split; [by intros [? ?]|].
    intros [(? & ? & ?)|(? & ? & ? & ? & ? & ? & ?)]; by simplify_eq. }
  destruct (json_loads raw) as [v|e|e] eqn:Hj.
  - split; [by intros [? ?]|].
    intros [(? & ? & ?)|(? & ? & ? & ? & ? & ? & ? & ?)];
      simplify_eq; congruence.
  - split; [by intros [? ?]|].
    intros [(? & ? & ?)|(? & ? & ? & ? & ? & ? & ? & ?)];
      simplify_eq; congruence.
  - destruct (is_ValueError e) eqn:He.
    + split; [by intros [? ?]|].
      intros [(? & ? & ?)|(? & ? & e' & ? & ? & ? & ? & Hv)];
        simplify_eq; try congruence.
      exfalso. apply Hv. apply is_ValueError_spec. congruence.
    + split; [|intros _; by eexists]. intros _. right.
      exists j, raw, e. repeat (split; [done|]).
      rewrite <- is_ValueError_spec. congruence.
Qed.

Lemma read_rulesv6_Ok header row v :
  read_rulesv6 header row = Ok v -> items v = rulesv6_rules header row.
Proof.
  unfold read_rulesv6, rulesv6_rules, getitem, parse_json_field.
  destruct (index header (py "rulesv6")) as [j|]; bind_step;
    [|by intros [= <-]].
  destruct (row !! j) as [raw|]; bind_step; [|done].
  destruct (decide (raw = [])); [by intros [= <-]|].
  destruct (json_loads raw) as [v'|e|e].
  - intros [= <-]. by destruct v'.
  - by intros [= <-].
  - destruct (is_ValueError e); [by intros [= <-] | done].
Qed.

Lemma decode_row_Ok header row i rules_list rulesv6_list :
  decode_row header row = Ok (i, rules_list, rulesv6_list)
  <-> index header (py "rules") = Some i
      /\ (exists raw, row !! i = Some raw /\ rules_decoded raw rules_list)
      /\ read_rulesv6 header row = Ok rulesv6_list.
Proof.
  rewrite decode_row_eq.
  destruct (index header (py "rules")) as [i'|];
    [|split; [done | by intros [? _]]].
  destruct (row !! i') as [raw|] eqn:Hraw.
  2:{ split; [done|]. intros ([= ->] & (raw & ? & _) & _). congruence. }
  destruct (read_rules raw) as [rules|e] eqn:Er; bind_step.
  - apply read_rules_Ok in Er.
    destruct (read_rulesv6 header row) as [v6|e]; bind_step.
    + split.
      * intros [= <- <- <-]. split; [done|]. split; [by exists raw | done].
      * intros ([= ->] & (raw' & ? & Hd) & [= ->]). simplify_eq.
        apply read_rules_Ok in Er, Hd. congruence.
    + split; [done|]. by intros (_ & _ & ?).
  - split; [done|]. intros ([= ->] & (raw' & ? & Hd) & _). simplify_eq.
    apply read_rules_Ok in Hd. congruence.
Qed.

Lemma decode_row_index header row i rules_list rulesv6_list :
  decode_row header row = Ok (i, rules_list, rulesv6_list) ->
  index header (py "rules") = Some i.
Proof. by intros (? & _)%decode_row_Ok. Qed.

(** What [process] has done when it returns. *)
Lemma process_inv fs csv_path ip_txt_path output_path in_place make_backup
    keep_ids fs' a s :
  process fs csv_path ip_txt_path output_path in_place make_backup keep_ids
  = (fs', Ok (a, s)) ->
  exists header row rows ip_values row' fs1,
    load_csv fs csv_path = Ok (header, row :: rows)
    /\ read_ip_list fs ip_txt_path = Ok ip_values
    /\ update_rules_in_row header row ip_values keep_ids = Ok (row', (a, s))
    /\ (if in_place && make_backup then backup fs csv_path else (fs, Ok ()))
       = (fs1, Ok ())
    /\ fs' = <[out_path csv_path output_path in_place
               := BOM :: concat (Csv.writerow <$> header :: row' :: rows)]> fs1.
Proof.
  unfold process.
  destruct (load_csv fs csv_path) as [[header data_rows]|e] eqn:El; [|done].
  destruct (read_ip_list fs ip_txt_path) as [ip_values|e] eqn:Ei; [|done].
  destruct data_rows as [|row rows]; [done|].
  destruct (update_rules_in_row header row ip_values keep_ids)
    as [[row' [a' s']]|e] eqn:Eu; [|done].
  destruct (if in_place && make_backup then _ else _) as [fs1 [[]|e]] eqn:Eb;
    [|done].
  unfold dump_csv.
  destruct (write_all true _) as [text [[]|e]] eqn:Ew; [|done].
  simpl. intros [= <- <- <-].
  apply write_all_ok in Ew. subst text.
  by exists header, row, rows, ip_values, row', fs1.
Qed.

Lemma decode_row_raises header row :
  (exists e, decode_row header row = Raise e)
  <-> claimed_failure header row
      \/ lacks_cell header row (py "rules")
      \/ lacks_cell header row (py "rulesv6")
      \/ loads_raises header row
      \/ rulesv6_raises header row.
Proof.
  rewrite decode_row_eq. unfold claimed_failure.
  destruct (index header (py "rules")) as [i|] eqn:Hi.
  2:{ split; [intros _; by (left; left) | intros _; by eexists]. }
  destruct (row !! i) as [raw|] eqn:Hraw.
  2:{ split; [intros _; right; left; by exists i | intros _; by eexists]. }
  pose proof (read_rules_Raise header row i raw Hi Hraw) as Hr.
  pose proof (read_rulesv6_Raise header row) as H6.
  assert (Hcell : ~ lacks_cell header row (py "rules"))
    by (intros (i' & ? & ?); congruence).
  assert (Hfield : forall raw', rules_field header row raw' -> raw' = raw)
    by (intros raw' (i' & ? & ?); congruence).
  destruct (read_rules raw) as [rules|e]; bind_step.
  - assert (Hr' : ~ ((undecodable raw \/ not_a_list raw)
                     \/ loads_raises header row))
      by (rewrite <- Hr; by intros [? ?]).
    destruct (read_rulesv6 header row) as [v6|e]; bind_step.
    + split; [by intros [? ?]|]. intros Hc. exfalso.
      assert (H6' : ~ (lacks_cell header row (py "rulesv6")
                       \/ rulesv6_raises header row))
        by (rewrite <- H6; by intros [? ?]).
      destruct Hc as [[?|(raw' & Hf & Hc)]|[?|[?|[?|?]]]]; try done;
        try (apply H6'; by (left + right)).
      * apply Hfield in Hf as ->. apply Hr'. by left.
      * apply Hr'. by right.
    + split; [|intros _; by eexists]. intros _.
      destruct (proj1 H6) as [?|?]; [by eexists | by do 2 right; left
                                     | by do 4 right].
  - split; [|intros _; by eexists]. intros _.
    destruct (proj1 Hr) as [?|?]; [by eexists | | by do 3 right; left].
    left. right. exists raw. split; [by exists i | done].
Qed.

(** C5: the pair [(added, skipped)] that [update_rules_in_row] returns, and
    that [process] returns unchanged, counts the allow-list entries that no
    existing rule matches by trimmed ["src_ip"] and those that some existing
    rule matches; when no entry is matched it is [(N, 0)] for [N] entries. *)
Theorem added_skipped_counts :
  (forall header row ip_values keep_ids row' a s,
     update_rules_in_row header row ip_values keep_ids = Ok (row', (a, s)) ->
     exists i rules_list rulesv6_list,
       decode_row header row = Ok (i, rules_list, rulesv6_list)
       /\ counts_of rules_list ip_values a s)
  /\ (forall fs csv_path ip_txt_path output_path in_place make_backup keep_ids
        fs' a s,
        process fs csv_path ip_txt_path output_path in_place make_backup
          keep_ids = (fs', Ok (a, s)) ->
        exists header row rows ip_values row',
          load_csv fs csv_path = Ok (header, row :: rows)
          /\ read_ip_list fs ip_txt_path = Ok ip_values
          /\ update_rules_in_row header row ip_values keep_ids
             = Ok (row', (a, s))).
Proof.
  split.
  - intros header row ip_values keep_ids row' a s E.
    apply update_rules_in_row_inv in E
      as (i & rules & v6 & text & Ed & _ & _ & -> & ->).
    exists i, rules, v6. split; [done | apply rebuild_counts].
  - intros fs csv_path ip_txt_path output_path in_place make_backup keep_ids
      fs' a s E.
    apply process_inv in E
      as (header & row & rows & ip_values & row' & fs1 & ? & ? & ? & _).
    by exists header, row, rows, ip_values, row'.
Qed.

End ScriptFacts.

(** ** An empty rule list *)

Lemma renumber_objs ls : forall h n,
  renumber h n (RObj <$> ls) = assign_created h n ls.
Proof.
  unfold renumber, assign_created.
  induction ls as [|l ls IH]; intros h n; [done|]. simpl. apply IH.
Qed.

Lemma top_refs_unmatched entries : forall n,
  top_refs ∅ n entries = RObj <$> seq n (length entries).
Proof.
  induction entries as [|ip entries IH]; intros n; [done|].
  cbn [top_refs]. rewrite lookup_empty, IH. done.
Qed.

Lemma unmatched_empty entries : unmatched ∅ entries = entries.
Proof.
  unfold unmatched. induction entries as [|ip entries IH]; [done|].
  rewrite filter_cons_True by apply lookup_empty. by rewrite IH.
Qed.

Lemma deref_all (h : store) : forall hpre,
  deref (hpre ++ h) <$> (RObj <$> seq (length hpre) (length h)) = VDict <$> h.
Proof.
  induction h as [|d h IH]; intros hpre; [done|].
  simpl length. simpl seq. rewrite !fmap_cons. f_equal.
  - simpl. by rewrite list_lookup_middle.
  - specialize (IH (hpre ++ [d])). rewrite length_app in IH. simpl in IH.
    rewrite Nat.add_1_r, <- app_assoc in IH. exact IH.
Qed.

Lemma numbered_rules_length entries : forall n,
  length (numbered_rules n entries) = length entries.
Proof.
  induction entries as [|ip entries IH]; intros n; [done|].
  simpl. by rewrite IH.
Qed.

(** From no rules at all, the new list is one synthesized rule per entry,
    numbered from [max_id_any + 1] with [keep_ids] and from 1 without. *)
Lemma rebuild_empty max_id_any ip_values keep_ids :
  let rb := rebuild [] max_id_any ip_values keep_ids in
  rules_out rb
  = VDict <$> numbered_rules (if keep_ids then max_id_any + 1 else 1)
                (ip_order ip_values)
  /\ rb_added rb = length (ip_order ip_values)
  /\ rb_skipped rb = 0%nat.
Proof.
  split.
  - unfold rebuild, rules_out.
    change (alloc []) with (@nil pydict, @nil ref). cbv zeta.
    change (first_seen [] (ip_set ip_values) []) with (∅ : gmap pystr nat).
    change (remaining_rules [] (ip_set ip_values) []) with (@nil ref).
    unfold build_top. rewrite build_top_fold.
    cbn [ts_store top_rules created_rules rb_store new_rules_list length app].
    rewrite unmatched_empty, top_refs_unmatched, app_nil_r.
    assert (E : (if keep_ids
                 then (assign_created
                         ((fun ip => build_allow_rule ip 0) <$> ip_order ip_values)
                         (max_id_any + 1)
                         (seq 0 (length (ip_order ip_values)))).1
                 else (renumber
                         ((fun ip => build_allow_rule ip 0) <$> ip_order ip_values)
                         1 (RObj <$> seq 0 (length (ip_order ip_values)))).1)
                = numbered_rules (if keep_ids then max_id_any + 1 else 1)
                    (ip_order ip_values)).
    { destruct keep_ids; rewrite ?renumber_objs;
        apply (assign_created_seq (ip_order ip_values) []). }
    rewrite E.
    pose proof (deref_all (numbered_rules (if keep_ids then max_id_any + 1 else 1)
                             (ip_order ip_values)) []) as Hd.
    rewrite numbered_rules_length in Hd. exact Hd.
  - destruct (rebuild_counts [] max_id_any ip_values keep_ids) as (_ & _ & Hc).
    apply Hc. by apply Forall_forall.
Qed.

(** ** The spec's words and the code's *)

Lemma lstrip_spaces l s :
  Forall (fun c => is_space c = true) l -> lstrip (l ++ s) = lstrip s.
Proof. induction 1 as [|c l Hc _ IH]; [done|]. simpl. by rewrite Hc. Qed.

Lemma lstrip_split s :
  exists l, s = l ++ lstrip s /\ Forall (fun c => is_space c = true) l.
Proof.
  induction s as [|c s (l & IH & Hl)]; [by exists []|]. simpl.
  destruct (is_space c) eqn:E.
  - exists (c :: l). split; [by rewrite IH at 1 | by constructor].
  - by exists [].
Qed.

Lemma rstrip_all_spaces r :
  Forall (fun c => is_space c = true) r -> rstrip r = [].
Proof. induction 1 as [|c r Hc _ IH]; [done|]. simpl. by rewrite IH, Hc. Qed.

Lemma rstrip_spaces t r :
  Forall (fun c => is_space c = true) r -> rstrip (t ++ r) = rstrip t.
Proof.
  intros Hr. induction t as [|c t IH]; simpl.
  - by apply rstrip_all_spaces.
  - by rewrite IH.
Qed.

Lemma rstrip_split s :
  exists r, s = rstrip s ++ r /\ Forall (fun c => is_space c = true) r.
Proof.
  induction s as [|c s (r & IH & Hr)]; [by exists []|]. simpl.
  destruct (rstrip s) as [|a t] eqn:E.
  - simpl in IH. subst s. destruct (is_space c) eqn:Ec.
    + exists (c :: r). split; [done | by constructor].
    + by exists r.
  - exists r. split; [by rewrite IH at 1 | done].
Qed.

Lemma rstrip_last s :
  match last (rstrip s) with
  | Some c => is_space c = false
  | None => True
  end.
Proof.
  induction s as [|c s IH]; [done|]. simpl.
  destruct (rstrip s) as [|a t] eqn:E.
  - by destruct (is_space c) eqn:Ec.
  - exact IH.
Qed.

Lemma rstrip_unchanged t :
  match last t with Some c => is_space c = false | None => True end ->
  rstrip t = t.
Proof.
  induction t as [|c t IH]; [done|]. destruct t as [|c' t].
  - simpl. by intros ->.
  - intros Hl. specialize (IH Hl). cbn [rstrip] in *. by rewrite IH.
Qed.

(** [strip] gives the string without the white space around it, and only
    that. *)
Lemma strip_trim_of s : trim_of s (strip s).
Proof.
  destruct (lstrip_split s) as (l & Hs & Hl).
  destruct (rstrip_split (lstrip s)) as (r & Ht & Hr).
  exists l, r. split; [|split; [done|split; [done|]]].
  - unfold strip. by rewrite <- Ht.
  - split; [|apply rstrip_last]. unfold strip.
    destruct (lstrip s) as [|c t] eqn:E; [done|].
    apply lstrip_head in E. by destruct (rstrip_head c t E) as [t' ->].
Qed.

Lemma trim_of_strip s t : trim_of s t -> strip s = t.
Proof.
  intros (l & r & -> & Hl & Hr & Hfirst & Hlast). unfold strip.
  rewrite lstrip_spaces by done. destruct t as [|c t].
  - simpl. destruct (lstrip_split r) as (l' & Hr' & _).
    assert (Hsp : Forall (fun c => is_space c = true) (lstrip r)).
    { rewrite Hr' in Hr. by apply Forall_app in Hr as [_ ?]. }
    by apply rstrip_all_spaces.
  - rewrite <- app_comm_cons, lstrip_fixed by done.
    rewrite app_comm_cons, rstrip_spaces by done.
    by apply rstrip_unchanged.
Qed.

Lemma strip_fixed_trimmed s : strip s = s -> trimmed s.
Proof.
  intros E. destruct (strip_trim_of s) as (_ & _ & _ & _ & _ & Ht).
  by rewrite E in Ht.
Qed.

Lemma strip_nil_spaces s :
  strip s = [] -> Forall (fun c => is_space c = true) s.
Proof.
  intros E. destruct (strip_trim_of s) as (l & r & Hs & Hl & Hr & _).
  rewrite E in Hs. rewrite Hs. by apply Forall_app.
Qed.

Lemma ip_order_entries ip_values :
  allow_list_entries ip_values (ip_order ip_values).
Proof.
  unfold ip_order. induction ip_values as [|ip ips IH]; [constructor|].
  destruct (decide (strip ip = [])) as [E|E].
  - rewrite filter_cons_False by (by intros ?).
    apply entries_blank; [by apply strip_nil_spaces | done].
  - rewrite filter_cons_True by done. rewrite fmap_cons.
    apply entries_entry; [done | apply strip_trim_of | done].
Qed.

Lemma allow_list_entries_ip_order ip_values entries :
  allow_list_entries ip_values entries -> entries = ip_order ip_values.
Proof.
  unfold ip_order. induction 1 as [|ip ips es Hsp _ IH|ip e ips es Hne Ht _ IH].
  - done.
  - rewrite filter_cons_False; [done|]. intros Hs. apply Hs.
    apply trim_of_strip. exists ip, []. rewrite app_nil_r.
    by repeat split.
  - apply trim_of_strip in Ht. subst e.
    rewrite filter_cons_True by done. by rewrite fmap_cons, IH.
Qed.

Lemma rule_for_key a v : rule_for a v <-> src_ip_key v = Some a.
Proof.
  unfold rule_for, src_ip_key. split.
  - intros (d & s & -> & -> & Ht). by rewrite (trim_of_strip _ _ Ht).
  - destruct v as [| | | | | |d]; try done.
    destruct (dict_get d (py "src_ip")) as [[| | | |s| |]|] eqn:E; try done.
    intros [= <-]. exists d, s. split; [done|]. split; [done|].
    apply strip_trim_of.
Qed.

Lemma first_match_first_rule a rules v :
  first_match a rules = Some v -> first_rule_for a rules v.
Proof.
  induction rules as [|w rules IH]; [done|]. simpl.
  destruct (decide (src_ip_key w = Some a)) as [E|E].
  - intros [= <-]. exists [], rules. split; [done|].
    split; [by apply rule_for_key | constructor].
  - intros (pre & post & -> & Hr & Hpre)%IH.
    exists (w :: pre), post. split; [done|]. split; [done|].
    constructor; [by rewrite rule_for_key | done].
Qed.

Lemma first_match_no_rule a rules :
  first_match a rules = None -> no_rule_for a rules.
Proof.
  rewrite first_match_None. intros Hn. apply Forall_forall.
  intros v Hv. rewrite rule_for_key. by apply Hn.
Qed.

Lemma top_rule_for_entry_rule rules a v :
  top_rule_for rules a v -> entry_rule rules a v.
Proof.
  intros (d & -> & Hd). exists d. split; [done|].
  destruct (first_match a rules) as [v0|] eqn:E.
  - destruct Hd as (d0 & -> & Hd). left. exists d0.
    split; [by apply first_match_first_rule | done].
  - right. split; [by apply first_match_no_rule | done].
Qed.

Lemma top_values_keep_block rules entries : forall n,
  kept_block rules n entries (top_values_keep rules n entries).
Proof.
  induction entries as [|a entries IH]; intros n; [constructor|].
  cbn [top_values_keep]. destruct (first_match a rules) as [v|] eqn:E.
  - apply kept_reused; [by apply first_match_first_rule | apply IH].
  - apply kept_new; [by apply first_match_no_rule | done | apply IH].
Qed.

Section ObservedFacts.

Context `{Library}.

Lemma py_int_reads v z : py_int v = Some z <-> id_reads v z.
Proof.
  split.
  - destruct v; simpl; try done.
    + intros [= <-]. constructor.
    + intros [= <-]. constructor.
    + by constructor.
    + by constructor.
  - by intros [z'|b|f z' Hf|s z' Hs].
Qed.

Lemma observed_ids_elem vs z : z ∈ observed_ids vs <-> id_observed vs z.
Proof.
  unfold observed_ids, id_observed. rewrite list_elem_of_omap. split.
  - intros (v & Hv & Hz). destruct v as [| | | | | |d]; try done.
    simpl in Hz. destruct (dict_get d (py "id")) as [i|] eqn:Ei; [|done].
    simpl in Hz. exists d, i. split; [done|]. split; [done|].
    by apply py_int_reads.
  - intros (d & i & Hd & Hi & Hz). exists (VDict d). split; [done|].
    simpl. rewrite Hi. simpl. by apply py_int_reads.
Qed.

Lemma max_id_any_highest rules_list rulesv6_list :
  highest_id (rules_list ++ items rulesv6_list)
    (max_id_any rules_list rulesv6_list).
Proof.
  rewrite max_id_any_spec. unfold observed_ids at 1 2.
  rewrite <- omap_app. fold (observed_ids (rules_list ++ items rulesv6_list)).
  set (ids := observed_ids (rules_list ++ items rulesv6_list)).
  split; [apply max_of_nonneg|]. split.
  - intros z Hz%observed_ids_elem.
    by apply (proj1 (Forall_forall _ _) (max_of_ge ids)).
  - destruct (max_of_attained ids) as [?|Hm]; [by left|].
    right. by apply observed_ids_elem.
Qed.

(** What a successful [update_rules_in_row] has done, in the words of the
    spec: the row has, in the ["rules"] field, the serialization of the
    list that the code built from the collection the field held. *)
Lemma update_rules_in_row_rewrites header row ip_values keep_ids row' counts :
  update_rules_in_row header row ip_values keep_ids = Ok (row', counts) ->
  exists rules_list m,
    rewrites header row row' rules_list
      (rules_out (rebuild rules_list m ip_values keep_ids))
    /\ highest_id (rules_list ++ rulesv6_rules header row) m.
Proof.
  destruct counts as [a s].
  intros (i & rules & v6 & text & Hd & Hj & -> & _)%update_rules_in_row_inv.
  apply decode_row_Ok in Hd as (Hi & (raw & Hraw & Hr) & H6).
  exists rules, (max_id_any rules v6). split.
  - by exists i, raw, text.
  - rewrite <- (read_rulesv6_Ok _ _ _ H6). apply max_id_any_highest.
Qed.

End ObservedFacts.

Section ScriptClaims.

Context `{Library}.

(** C1, a defect (the one of C4).  What holds for every input: when
    [update_rules_in_row] returns, the ["rules"] field holds the
    serialization of a list that begins with one rule for each entry of the
    allow-list (its values trimmed, the blank ones left out), in the
    allow-list's order: the first rule of the original collection whose
    trimmed ["src_ip"] is the entry, its fields other than ["id"] unchanged,
    or, when there is none, a rule with the default policy fields and the
    entry as ["src_ip"].  That is one rule per entry, not one per address:
    for the allow-list that names 9.9.9.9 twice the list begins with two
    rules for 9.9.9.9, where the spec has the repeated entry collapse to
    one rule. *)
Theorem top_block_one_rule_per_entry :
  (forall header row ip_values keep_ids row' counts,
     update_rules_in_row header row ip_values keep_ids = Ok (row', counts) ->
     exists rules out entries,
       rewrites header row row' rules out
       /\ allow_list_entries ip_values entries
       /\ Forall2 (entry_rule rules) entries (take (length entries) out))
  /\ update_rules_in_row (H := example_library) [py "rules"] [py "[]"]
       [py "9.9.9.9"; py "9.9.9.9"] false
     = Ok ([example_dumps
              (VList [VDict (build_allow_rule (py "9.9.9.9") 1);
                      VDict (build_allow_rule (py "9.9.9.9") 2)])],
           (2%nat, 0%nat)).
Proof.
  split; [|by vm_compute].
  intros header row ip_values keep_ids row' counts E.
  apply update_rules_in_row_rewrites in E as (rules & m & Hw & _).
  exists rules, (rules_out (rebuild rules m ip_values keep_ids)),
    (ip_order ip_values).
  split; [done|]. split; [apply ip_order_entries|].
  eapply Forall2_impl; [apply top_block_rules|].
  intros a v. apply top_rule_for_entry_rule.
Qed.

(** C3: when [update_rules_in_row] returns with [keep_ids], the ["rules"]
    field holds the serialization of a list whose top block has, for an
    allow-list entry with an existing rule, the first such rule as it was,
    id included, and for the entries without one, in allow-list order,
    rules with the ids [m + 1], [m + 2], ... where [m] is the maximum of
    the ids that [int] reads off the dicts of the ["rules"] collection and
    of the list that the ["rulesv6"] field of the row holds, if it holds
    one ([0] when no id is above it); the rules below the block are as they
    were. *)
Theorem keep_ids_assignment header row ip_values row' counts :
  update_rules_in_row header row ip_values true = Ok (row', counts) ->
  exists rules out entries m,
    rewrites header row row' rules out
    /\ allow_list_entries ip_values entries
    /\ highest_id (rules ++ rulesv6_rules header row) m
    /\ kept_block rules (m + 1) entries (take (length entries) out)
    /\ drop (length entries) out = rest_values entries rules.
Proof.
  intros E. apply update_rules_in_row_rewrites in E as (rules & m & Hw & Hm).
  exists rules, (rules_out (rebuild rules m ip_values true)),
    (ip_order ip_values), m.
  split; [done|]. split; [apply ip_order_entries|]. split; [done|].
  rewrite rules_out_keep.
  rewrite take_app_length', drop_app_length'
    by (by rewrite top_values_keep_length).
  split; [apply top_values_keep_block | done].
Qed.

(** C6: [update_rules_in_row] raises exactly when the header lacks the
    ["rules"] column, or the content of the field does not decode as JSON,
    or it decodes to something that is neither a list nor [None], or the row
    has no cell under the ["rules"] column or under a ["rulesv6"] column
    that the header names, or [json.loads] raises something else than
    [JSONDecodeError] on the ["rules"] field, or something that is no
    [ValueError] on the ["rulesv6"] field, or [json.dumps] raises on the new
    list.  When the field does not decode, the message holds the decoder's
    error and the first 2000 characters of the content; another exception
    of [json.loads] on the field comes out as it is. *)
Theorem update_rules_in_row_raises header row ip_values keep_ids :
  ((exists e, update_rules_in_row header row ip_values keep_ids = Raise e)
   <-> claimed_failure header row
       \/ lacks_cell header row (py "rules")
       \/ lacks_cell header row (py "rulesv6")
       \/ loads_raises header row
       \/ rulesv6_raises header row
       \/ dumps_raises header row ip_values keep_ids)
  /\ (forall raw e,
        rules_field header row raw -> raw <> [] ->
        json_loads raw = JSONDecodeError e ->
        update_rules_in_row header row ip_values keep_ids
        = Raise (ValueError
                   (py "Failed to parse JSON from CSV field. Error: " ++ e
                    ++ [10%N] ++ py "Value (truncated): " ++ take 2000 raw))
        /\ (length (take 2000 raw) <= 2000)%nat)
  /\ (forall raw e,
        rules_field header row raw -> raw <> [] ->
        json_loads raw = LoadsRaise e ->
        update_rules_in_row header row ip_values keep_ids = Raise e).
Proof.
  split; [|split].
  - pose proof (decode_row_raises header row) as Hd.
    unfold update_rules_in_row, dumps_raises.
    destruct (decode_row header row) as [[[i rules] v6]|e]; bind_step.
    + assert (Hd' : ~ (claimed_failure header row
                       \/ lacks_cell header row (py "rules")
                       \/ lacks_cell header row (py "rulesv6")
                       \/ loads_raises header row
                       \/ rulesv6_raises header row))
        by (rewrite <- Hd; by intros [? ?]).
      destruct (dump_json_field _) as [text|e] eqn:Ej; bind_step.
      * split; [by intros [? ?]|]. intros Hc. exfalso.
        destruct Hc as [?|[?|[?|[?|[?|(i' & r' & v' & e & [= <- <- <-] & Ee)]]]]];
          [apply Hd'; tauto.. |].
        congruence.
      * split; [|intros _; by eexists]. intros _. do 5 right.
        by exists i, rules, v6, e.
    + split; [|intros _; by eexists]. intros _.
      destruct (proj1 Hd) as [?|[?|[?|[?|?]]]]; [by eexists | tauto..].
  - intros raw e (i & Hi & Hraw) Hne Hj.
    split; [|rewrite length_take; lia].
    rewrite decode_row_eq_update, decode_row_eq, Hi, Hraw.
    unfold read_rules, parse_json_field.
    rewrite decide_False by done. rewrite Hj. by bind_step.
  - intros raw e (i & Hi & Hraw) Hne Hj.
    rewrite decode_row_eq_update, decode_row_eq, Hi, Hraw.
    unfold read_rules, parse_json_field.
    rewrite decide_False by done. rewrite Hj. by bind_step.
Qed.

(** C10: when the ["rules"] field of the row is the empty string,
    [update_rules_in_row] takes the rule list to be empty: unless the
    reading of a ["rulesv6"] field raises (no cell for it, or [json.loads]
    raising something that is no [ValueError]), every allow-list entry gets
    a synthesized rule, and unless [json.dumps] raises on this list, the
    function does not raise, all entries are counted as added and the field
    is overwritten with the serialized list.  [parse_json_field] gives
    [None] for an absent value as for the empty string, but a row without
    the cell makes [update_rules_in_row] raise [IndexError]. *)
Theorem empty_rules_field header row ip_values keep_ids i :
  index header (py "rules") = Some i ->
  parse_json_field None = Ok VNone
  /\ parse_json_field (Some []) = Ok VNone
  /\ (row !! i = None ->
      update_rules_in_row header row ip_values keep_ids = Raise IndexError)
  /\ (row !! i = Some [] ->
      ~ lacks_cell header row (py "rulesv6") ->
      ~ rulesv6_raises header row ->
      exists rulesv6_list,
        decode_row header row = Ok (i, [], rulesv6_list)
        /\ let new :=
             VList (VDict <$> numbered_rules
                      (if keep_ids then max_id_any [] rulesv6_list + 1 else 1)
                      (ip_order ip_values)) in
           match dump_json_field new with
           | Ok text =>
               update_rules_in_row header row ip_values keep_ids
               = Ok (<[i := text]> row, (length (ip_order ip_values), 0%nat))
           | Raise e =>
               update_rules_in_row header row ip_values keep_ids = Raise e
           end).
Proof.
  intros Hi. split; [done|]. split; [done|]. split.
  - intros Hraw. by rewrite decode_row_eq_update, decode_row_eq, Hi, Hraw.
  - intros Hraw Hcell Hv6.
    destruct (read_rulesv6 header row) as [v6|e] eqn:E6.
    2:{ exfalso.
        destruct (proj1 (read_rulesv6_Raise header row)); [by eexists|..];
          done. }
    assert (Hd : decode_row header row = Ok (i, [], v6)).
    { apply decode_row_Ok. split; [done|]. split; [|done].
      exists []. split; [done | by left]. }
    exists v6. split; [done|].
    rewrite (update_rules_in_row_decoded _ _ _ _ _ _ _ Hd). cbv zeta.
    destruct (rebuild_empty (max_id_any [] v6) ip_values keep_ids)
      as (-> & -> & ->).
    by destruct (dump_json_field _).
Qed.

(** C8: when [process] runs in place with backups, a file that is already
    at the backup path (the table path with [".bak"] appended) has the same
    content afterwards, whatever the outcome; when there is none and
    [process] succeeds, the backup path holds the original content of the
    table. *)
Theorem backup_written_once fs csv_path ip_txt_path output_path keep_ids :
  let r := process fs csv_path ip_txt_path output_path true true keep_ids in
  match fs !! (csv_path ++ py ".bak") with
  | Some b => r.1 !! (csv_path ++ py ".bak") = Some b
  | None =>
      match r.2 with
      | Ok _ => r.1 !! (csv_path ++ py ".bak") = fs !! csv_path
      | Raise _ =>
          r.1 !! (csv_path ++ py ".bak") = None
          \/ r.1 !! (csv_path ++ py ".bak") = fs !! csv_path
      end
  end.
Proof.
  cbv zeta. unfold process.
  assert (Hfail : forall e : error,
    match fs !! (csv_path ++ py ".bak") with
    | Some b => fs !! (csv_path ++ py ".bak") = Some b
    | None => fs !! (csv_path ++ py ".bak") = None
              \/ fs !! (csv_path ++ py ".bak") = fs !! csv_path
    end).
  { intros _. destruct (fs !! (csv_path ++ py ".bak")); [done | by left]. }
  destruct (load_csv fs csv_path) as [[header data_rows]|e] eqn:El;
    [|apply (Hfail e)].
  destruct (read_ip_list fs ip_txt_path) as [ip_values|e];
    [|apply (Hfail e)].
  destruct data_rows as [|row rows]; [apply (Hfail IndexError)|].
  destruct (update_rules_in_row header row ip_values keep_ids)
    as [[row' [a s]]|e]; [|apply (Hfail e)].
  clear Hfail. cbn [andb]. unfold backup, dump_csv, out_path.
  assert (Hc : exists content, fs !! csv_path = Some content).
  { unfold load_csv in El. destruct (fs !! csv_path); [by eexists | done]. }
  destruct Hc as [content Hc]. rewrite Hc.
  destruct (write_all true _) as [text r].
  destruct (fs !! (csv_path ++ py ".bak")) as [b|] eqn:Hb.
  - destruct r; simpl; by rewrite lookup_insert_ne, Hb by (symmetry; apply bak_ne).
  - destruct r as [[]|e]; simpl;
      rewrite lookup_insert_ne, lookup_insert_eq by (symmetry; apply bak_ne);
      [done | by right].
Qed.

(** C9: when [process] succeeds, the file it writes is the rendering, by
    [csv.writer] in its default dialect behind a byte-order mark, of the
    header as it was read and of the rows as they were read, except that
    the ["rules"] field of the first data row has a new content.  (The
    text of a row is therefore the writer's, whatever its text was in the
    input.) *)
Theorem output_rows_preserved fs csv_path ip_txt_path output_path in_place
    make_backup keep_ids fs' counts :
  process fs csv_path ip_txt_path output_path in_place make_backup keep_ids
  = (fs', Ok counts) ->
  exists header row rows i new_rules,
    load_csv fs csv_path = Ok (header, row :: rows)
    /\ index header (py "rules") = Some i
    /\ fs' !! out_path csv_path output_path in_place
       = Some (BOM :: concat (Csv.writerow <$>
                                header :: <[i := new_rules]> row :: rows)).
Proof.
  destruct counts as [a s]. intros E.
  apply process_inv in E
    as (header & row & rows & ip_values & row' & fs1 & El & _ & Eu & _ & ->).
  apply update_rules_in_row_inv in Eu
    as (i & rules & v6 & text & Ed & _ & -> & _).
  exists header, row, rows, i. eexists.
  split; [done|]. split; [by eapply decode_row_index|].
  by rewrite lookup_insert_eq.
Qed.

End ScriptClaims.

(** ** One rule per address *)

Lemma filter_fmap_length {A} (P : A -> Prop) `{!forall x, Decision (P x)}
    (f : A -> A) (l : list A) :
  (forall x, P (f x) <-> P x) ->
  length (filter P (f <$> l)) = length (filter P l).
Proof.
  intros Hf. induction l as [|x l IH]; [done|]. rewrite fmap_cons.
  destruct (decide (P x)).
  - rewrite (filter_cons_True P (f x)) by (by apply Hf).
    rewrite (filter_cons_True P x) by done. simpl. by rewrite IH.
  - rewrite (filter_cons_False P (f x)) by (by rewrite Hf).
    by rewrite (filter_cons_False P x) by done.
Qed.

Lemma top_value_key rules ip :
  strip ip = ip -> src_ip_key (top_value rules ip) = Some ip.
Proof.
  intros Hs. unfold top_value.
  destruct (first_match ip rules) as [v|] eqn:E.
  - by apply first_match_Some in E as [? _].
  - change (Some (strip ip) = Some ip). by rewrite Hs.
Qed.

(** The new list holds, for an allow-listed address, as many rules as the
    allow-list names the address; in particular exactly one when it is
    named once. *)
Lemma rules_per_address rules_list max_id_any ip_values keep_ids a :
  a ∈ ip_order ip_values ->
  length (filter (fun v => src_ip_key v = Some a)
            (rules_out (rebuild rules_list max_id_any ip_values keep_ids)))
  = length (filter (fun ip => ip = a) (ip_order ip_values)).
Proof.
  intros Ha.
  rewrite <- (filter_fmap_length _ erase_id)
    by (intros v; by rewrite src_ip_key_erase).
  rewrite rules_out_erase.
  rewrite filter_fmap_length by (intros v; by rewrite src_ip_key_erase).
  rewrite filter_app, length_app.
  assert (Hrest : filter (fun v => src_ip_key v = Some a)
                    (rest_values (ip_order ip_values) rules_list) = []).
  { unfold rest_values. induction rules_list as [|v vs IH]; [done|].
    destruct (decide (listed (ip_order ip_values) v)) as [Hl|Hl].
    - by rewrite filter_cons_False by tauto.
    - rewrite filter_cons_True by done. rewrite filter_cons_False; [done|].
      intros E. apply Hl. unfold listed. by rewrite E. }
  rewrite Hrest. simpl. rewrite Nat.add_0_r.
  assert (Htrim : Forall (fun ip => strip ip = ip) (ip_order ip_values)).
  { apply Forall_forall. intros ip Hip.
    by destruct (ip_order_trimmed ip_values ip Hip). }
  clear Ha Hrest. induction Htrim as [|ip entries Hip _ IH]; [done|].
  rewrite fmap_cons. pose proof (top_value_key rules_list ip Hip) as Hk.
  destruct (decide (ip = a)) as [->|Hne].
  - rewrite !filter_cons_True by done. simpl. by rewrite IH.
  - rewrite !filter_cons_False; [done | done | congruence].
Qed.

(** ** Renumbering the whole list *)

Lemma consecutive_length k : forall n, length (consecutive n k) = k.
Proof. induction k as [|k IH]; intros n; simpl; [done | by rewrite IH]. Qed.

Lemma locs_elem l rs : l ∈ locs rs <-> RObj l ∈ rs.
Proof.
  unfold locs. rewrite list_elem_of_omap. split.
  - intros ([l'|v] & Hr & E); simpl in E; [|done]. by simplify_eq.
  - intros Hr. by exists (RObj l).
Qed.

Lemma locs_sublist rs1 rs2 :
  rs1 `sublist_of` rs2 -> locs rs1 `sublist_of` locs rs2.
Proof.
  induction 1 as [|r rs1 rs2 _ IH|r rs1 rs2 _ IH]; [done| |].
  - destruct r; [rewrite !locs_cons_obj; by constructor | by rewrite !locs_cons_val].
  - destruct r; [rewrite locs_cons_obj; by constructor | by rewrite locs_cons_val].
Qed.

Lemma top_refs_elem fs entries l : forall n,
  l ∈ locs (top_refs fs n entries) ->
  (exists ip, ip ∈ entries /\ fs !! ip = Some l)
  \/ (n <= l < n + length (unmatched fs entries))%nat.
Proof.
  unfold unmatched.
  induction entries as [|ip entries IH]; intros n; cbn [top_refs].
  - intros Hl. by apply elem_of_nil in Hl.
  - destruct (fs !! ip) as [l'|] eqn:E; rewrite locs_cons_obj.
    + rewrite filter_cons_False by (by rewrite E).
      intros [->|Hl]%elem_of_cons.
      * left. exists ip. split; [left | done].
      * destruct (IH n Hl) as [(ip' & ? & ?)|?]; [left | by right].
        exists ip'. split; [by right | done].
    + rewrite filter_cons_True by done.
      intros [->|Hl]%elem_of_cons.
      * right. simpl. lia.
      * destruct (IH (S n) Hl) as [(ip' & ? & ?)|?]; [left | right; simpl; lia].
        exists ip'. split; [by right | done].
Qed.

Lemma top_refs_NoDup fs n0 entries :
  (forall ip l, fs !! ip = Some l -> (l < n0)%nat) ->
  (forall ip ip' l, fs !! ip = Some l -> fs !! ip' = Some l -> ip = ip') ->
  forall n, (n0 <= n)%nat ->
  NoDup (filter (fun ip => is_Some (fs !! ip)) entries) ->
  NoDup (locs (top_refs fs n entries)).
Proof.
  intros Hlt Hinj.
  induction entries as [|ip entries IH]; intros n Hn Hnd; cbn [top_refs].
  - constructor.
  - destruct (fs !! ip) as [l|] eqn:E; rewrite locs_cons_obj.
    + rewrite filter_cons_True in Hnd by (by rewrite E).
      apply NoDup_cons in Hnd as [Hip Hnd].
      apply NoDup_cons. split; [|by apply IH].
      intros [(ip' & Hin & E')|Hr]%top_refs_elem.
      * assert (ip = ip') by (by eapply Hinj). subst ip'.
        apply Hip. apply list_elem_of_filter. by rewrite E.
      * apply Hlt in E. lia.
    + rewrite filter_cons_False in Hnd by (rewrite E; by intros [? ?]).
      apply NoDup_cons. split; [|apply IH; [lia | done]].
      intros [(ip' & Hin & E')|Hr]%top_refs_elem.
      * apply Hlt in E'. lia.
      * lia.
Qed.

Lemma top_refs_wf fs (h : store) entries : forall n,
  (forall ip l, fs !! ip = Some l -> (l < n)%nat) ->
  (n + length (unmatched fs entries) <= length h)%nat ->
  Forall (ref_wf h) (top_refs fs n entries).
Proof.
  unfold unmatched.
  induction entries as [|ip entries IH]; intros n Hlt Hn; cbn [top_refs].
  - constructor.
  - destruct (fs !! ip) as [l|] eqn:E.
    + rewrite filter_cons_False in Hn by (by rewrite E).
      constructor; [|by apply IH]. simpl. apply Hlt in E. lia.
    + rewrite filter_cons_True in Hn by done. simpl in Hn.
      constructor; [simpl; lia|]. apply IH; [|lia].
      intros ip' l E'. apply Hlt in E'. lia.
Qed.

(** C2: without [keep_ids], when no allow-listed address that has an
    existing rule is named twice, the rules (dict items) of the new list
    are pairwise distinct objects and carry, whatever ids they had, the ids
    [1, 2, ..., k] in the order of the list, [k] being the number of rules
    in it; an item that is not a dict has no id. *)
Theorem renumbered_in_order rules_list max_id_any ip_values :
  NoDup (filter (fun ip => is_Some (first_match ip rules_list))
           (ip_order ip_values)) ->
  let out := rules_out (rebuild rules_list max_id_any ip_values false) in
  rule_ids out = consecutive 1 (length (rule_ids out)).
Proof.
  intros Hnd.
  destruct (rebuild_unfold rules_list max_id_any ip_values false)
    as (h0 & rs & fs & F & L & Hfs & ->).
  cbv zeta. unfold rules_out. cbn [rb_store new_rules_list].
  set (news := (fun ip => build_allow_rule ip 0)
                 <$> unmatched fs (ip_order ip_values)).
  set (top := top_refs fs (length h0) (ip_order ip_values)).
  set (rest := remaining_rules h0 (ip_set ip_values) rs).
  assert (Hlt : forall ip l, fs !! ip = Some l ->
                  RObj l ∈ rs /\ src_ip_key (deref h0 (RObj l)) = Some ip
                  /\ ip ∈ ip_set ip_values).
  { intros ip l E. subst fs. rewrite first_seen_lookup in E.
    destruct (decide (ip ∈ ip_set ip_values)); [|done].
    apply first_loc_elem in E as [? ?]. done. }
  assert (Hwf0 : Forall (ref_wf h0) rs).
  { eapply Forall2_Forall_l; [exact F|].
    apply Forall_forall. intros v _ r Hr. by eapply stands_for_wf. }
  assert (Hlt' : forall ip l, fs !! ip = Some l -> (l < length h0)%nat).
  { intros ip l E. apply Hlt in E as [Hr _].
    rewrite Forall_forall in Hwf0. apply (Hwf0 _ Hr). }
  assert (Hmatched : filter (fun ip => is_Some (fs !! ip)) (ip_order ip_values)
                     = filter (fun ip => is_Some (first_match ip rules_list))
                         (ip_order ip_values)).
  { apply filter_iff_elem. intros ip Hip. subst fs.
    rewrite <- !not_eq_None_Some. by rewrite first_seen_None. }
  assert (Hnd' : NoDup (locs (top ++ rest))).
  { rewrite locs_app. apply NoDup_app. split; [|split].
    - apply (top_refs_NoDup fs (length h0)); [done | | done | by rewrite Hmatched].
      intros ip ip' l E E'. apply Hlt in E as (_ & E & _).
      apply Hlt in E' as (_ & E' & _). congruence.
    - intros l Htop Hrest.
      apply locs_elem in Hrest. unfold rest, remaining_rules in Hrest.
      apply list_elem_of_filter in Hrest as [Hblock Hr].
      assert (Hl : (l < length h0)%nat)
        by (rewrite Forall_forall in Hwf0; apply (Hwf0 _ Hr)).
      apply top_refs_elem in Htop as [(ip & _ & E)|?]; [|lia].
      apply Hlt in E as (_ & E & Hin).
      unfold in_top_block in Hblock. rewrite E in Hblock.
      by rewrite bool_decide_eq_false in Hblock.
    - eapply sublist_NoDup; [|apply locs_sublist, sublist_filter].
      rewrite L. apply NoDup_seq. }
  assert (Hwf : Forall (ref_wf (h0 ++ news)) (top ++ rest)).
  { apply Forall_app. split.
    - apply top_refs_wf; [done|]. unfold news.
      by rewrite length_app, length_fmap.
    - eapply Forall_impl; [apply Forall_forall; intros r Hr|].
      + apply list_elem_of_filter in Hr as [_ Hr].
        rewrite Forall_forall in Hwf0. apply (Hwf0 _ Hr).
      + intros [l|v]; simpl; [rewrite length_app; lia | done]. }
  rewrite (renumber_ids _ _ _ Hnd' Hwf). by rewrite consecutive_length.
Qed.

(** ** The rules below the top block *)

Lemma listed_erase ips v : listed ips (erase_id v) <-> listed ips v.
Proof. unfold listed. by rewrite src_ip_key_erase. Qed.

Lemma is_dict_erase v : is_dict (erase_id v) = is_dict v.
Proof. by destruct v. Qed.

Lemma rest_values_not_listed ips rules :
  Forall (fun v => ~ listed ips v) (rest_values ips rules).
Proof.
  unfold rest_values. apply Forall_forall. intros v Hv.
  by apply list_elem_of_filter in Hv as [? _].
Qed.

Lemma rules_out_length rules_list max_id_any ip_values keep_ids :
  length (rules_out (rebuild rules_list max_id_any ip_values keep_ids))
  = (length (ip_order ip_values)
     + length (rest_values (ip_order ip_values) rules_list))%nat.
Proof.
  pose proof (rules_out_erase rules_list max_id_any ip_values keep_ids) as E.
  apply (f_equal length) in E.
  by rewrite !length_fmap, length_app, length_fmap in E.
Qed.

Lemma rules_out_tail_erase rules_list max_id_any ip_values keep_ids :
  erase_id <$> drop (length (ip_order ip_values))
                 (rules_out (rebuild rules_list max_id_any ip_values keep_ids))
  = erase_id <$> rest_values (ip_order ip_values) rules_list.
Proof.
  pose proof (rules_out_erase rules_list max_id_any ip_values keep_ids) as E.
  apply (f_equal (drop (length (ip_order ip_values)))) in E.
  rewrite fmap_app, drop_app_length' in E by (by rewrite !length_fmap).
  by rewrite <- fmap_drop in E.
Qed.

Lemma Forall_erase_inv (P : value -> Prop) (l k : list value) :
  (forall v, P (erase_id v) <-> P v) ->
  erase_id <$> l = erase_id <$> k -> Forall P k -> Forall P l.
Proof.
  intros HP E Hk. apply list_eq_Forall2 in E.
  apply (Forall2_fmap_1 erase_id erase_id) in E.
  revert Hk. induction E as [|x y l k Hxy _ IH]; [done|].
  intros [Hy Hk]%Forall_cons. constructor; [|by apply IH].
  apply HP. rewrite Hxy. by apply HP.
Qed.

Lemma filter_not_dict_erase (l k : list value) :
  erase_id <$> l = erase_id <$> k ->
  filter (fun v => is_dict v = false) l = filter (fun v => is_dict v = false) k.
Proof.
  intros E. apply list_eq_Forall2 in E.
  apply (Forall2_fmap_1 erase_id erase_id) in E.
  induction E as [|x y l k Hxy _ IH]; [done|].
  destruct (is_dict x) eqn:Hx.
  - assert (Hy : is_dict y = true)
      by (by rewrite <- is_dict_erase, <- Hxy, is_dict_erase).
    rewrite !filter_cons_False by congruence. done.
  - assert (Hy : is_dict y = false)
      by (by rewrite <- is_dict_erase, <- Hxy, is_dict_erase).
    rewrite !filter_cons_True by done.
    f_equal; [|done]. destruct x, y; try done.
Qed.

Lemma top_value_dict rules ip : is_dict (top_value rules ip) = true.
Proof.
  unfold top_value. destruct (first_match ip rules) as [v|] eqn:E; [|done].
  apply first_match_Some in E as [E _].
  by apply src_ip_key_dict in E as [d ->].
Qed.

Lemma rules_out_tail_not_listed rules_list max_id_any ip_values keep_ids :
  Forall (fun v => ~ listed (ip_order ip_values) v)
    (drop (length (ip_order ip_values))
       (rules_out (rebuild rules_list max_id_any ip_values keep_ids))).
Proof.
  eapply Forall_erase_inv;
    [intros v; by rewrite listed_erase | apply rules_out_tail_erase
    | apply rest_values_not_listed].
Qed.

(** X1: below the top block the new list holds the original items that are
    not rules for an allow-listed address, all of them, in their original
    order and unchanged apart from ["id"]; no rule for an allow-listed
    address is left there; and the items that are not dicts are those of the
    original list, unchanged and in order. *)
Theorem remaining_rules_kept rules_list max_id_any ip_values keep_ids :
  let entries := ip_order ip_values in
  let out := rules_out (rebuild rules_list max_id_any ip_values keep_ids) in
  length out = (length entries + length (rest_values entries rules_list))%nat
  /\ erase_id <$> drop (length entries) out
     = erase_id <$> filter (fun v => ~ listed entries v) rules_list
  /\ Forall (fun v => ~ listed entries v) (drop (length entries) out)
  /\ filter (fun v => is_dict v = false) out
     = filter (fun v => is_dict v = false) rules_list.
Proof.
  cbv zeta. split; [apply rules_out_length|].
  split; [apply rules_out_tail_erase|]. split.
  - apply rules_out_tail_not_listed.
  - rewrite (filter_not_dict_erase _ _
               (rules_out_erase rules_list max_id_any ip_values keep_ids)).
    rewrite filter_app.
    assert (Htop : filter (fun v => is_dict v = false)
                     (top_value rules_list <$> ip_order ip_values) = []).
    { induction (ip_order ip_values) as [|ip l IH]; [done|].
      rewrite fmap_cons, filter_cons_False; [done|].
      by rewrite top_value_dict. }
    rewrite Htop. clear Htop. simpl. unfold rest_values.
    induction rules_list as [|v vs IH]; [done|].
    destruct (is_dict v) eqn:Hv.
    + rewrite (filter_cons_False (fun v => is_dict v = false) v) by congruence.
      destruct (decide (listed (ip_order ip_values) v)).
      * rewrite (filter_cons_False (fun v => ~ listed _ v)) by tauto.
        exact IH.
      * rewrite (filter_cons_True (fun v => ~ listed _ v)) by done.
        rewrite filter_cons_False by congruence. exact IH.
    + assert (~ listed (ip_order ip_values) v)
        by (unfold listed; rewrite src_ip_key_not_dict by done; tauto).
      rewrite (filter_cons_True (fun v => ~ listed _ v)) by done.
      rewrite !(filter_cons_True (fun v => is_dict v = false) v) by done.
      by rewrite IH.
Qed.

(** ** A second run *)

Lemma top_block_keys rules_list max_id_any ip_values keep_ids :
  Forall2 (fun ip v => src_ip_key v = Some ip)
    (ip_order ip_values)
    (take (length (ip_order ip_values))
       (rules_out (rebuild rules_list max_id_any ip_values keep_ids))).
Proof.
  pose proof (rules_out_erase rules_list max_id_any ip_values keep_ids) as E.
  apply (f_equal (take (length (ip_order ip_values)))) in E.
  rewrite fmap_app, take_app_length' in E by (by rewrite !length_fmap).
  rewrite <- fmap_take in E. symmetry in E.
  rewrite <- list_fmap_compose in E.
  apply list_eq_Forall2 in E.
  apply (Forall2_fmap_1 (erase_id ∘ top_value rules_list) erase_id) in E.
  assert (Htrim : Forall (fun ip => strip ip = ip) (ip_order ip_values)).
  { apply Forall_forall. intros ip Hip.
    by destruct (ip_order_trimmed ip_values ip Hip). }
  revert Htrim. induction E as [|ip v l k Hv _ IH]; [constructor|].
  intros [Hip Hl]%Forall_cons. constructor; [|by apply IH].
  simpl in Hv. rewrite <- src_ip_key_erase, <- Hv, src_ip_key_erase.
  by apply top_value_key.
Qed.

Lemma first_match_skip a (P : list value) v X :
  Forall (fun w => src_ip_key w <> Some a) P ->
  src_ip_key v = Some a ->
  first_match a (P ++ v :: X) = Some v.
Proof.
  intros HP Hv. induction HP as [|w P Hw _ IH]; simpl.
  - by rewrite decide_True.
  - by rewrite decide_False.
Qed.

Lemma top_values_keep_fixed R n entries T :
  Forall2 (fun ip v => src_ip_key v = Some ip) entries T ->
  NoDup entries ->
  forall P,
    Forall (fun w => forall ip, ip ∈ entries -> src_ip_key w <> Some ip) P ->
    top_values_keep (P ++ T ++ R) n entries = T.
Proof.
  induction 1 as [|ip v entries T Hv _ IH]; intros Hnd P HP; [done|].
  apply NoDup_cons in Hnd as [Hip Hnd]. cbn [top_values_keep].
  rewrite <- app_comm_cons, first_match_skip; [|
    eapply Forall_impl; [exact HP|]; intros w Hw; apply Hw; left | done].
  f_equal. specialize (IH Hnd (P ++ [v])).
  rewrite <- app_assoc in IH. apply IH.
  apply Forall_app. split.
  - eapply Forall_impl; [exact HP|]. intros w Hw ip' Hin. apply Hw. by right.
  - constructor; [|constructor]. intros ip' Hin. rewrite Hv.
    intros [= <-]. done.
Qed.

Lemma rest_values_fixed entries (T R : list value) :
  Forall (listed entries) T ->
  Forall (fun v => ~ listed entries v) R ->
  rest_values entries (T ++ R) = R.
Proof.
  intros HT HR. unfold rest_values. rewrite filter_app.
  assert (E1 : filter (fun v => ~ listed entries v) T = []).
  { induction HT as [|v T Hv _ IH]; [done|].
    by rewrite filter_cons_False by tauto. }
  assert (E2 : filter (fun v => ~ listed entries v) R = R).
  { induction HR as [|v R Hv _ IH]; [done|].
    by rewrite filter_cons_True, IH by done. }
  by rewrite E1, E2.
Qed.

(** The new list is a top block whose rules have the entries as trimmed
    ["src_ip"], followed by items that are no rules for an entry. *)
Lemma rules_out_shape rules_list max_id_any ip_values keep_ids :
  exists T R,
    rules_out (rebuild rules_list max_id_any ip_values keep_ids) = T ++ R
    /\ Forall2 (fun ip v => src_ip_key v = Some ip) (ip_order ip_values) T
    /\ Forall (fun v => ~ listed (ip_order ip_values) v) R.
Proof.
  exists (take (length (ip_order ip_values))
            (rules_out (rebuild rules_list max_id_any ip_values keep_ids))),
         (drop (length (ip_order ip_values))
            (rules_out (rebuild rules_list max_id_any ip_values keep_ids))).
  split; [by rewrite take_drop|]. split; [apply top_block_keys|].
  apply rules_out_tail_not_listed.
Qed.

Lemma keys_listed entries (T : list value) :
  Forall2 (fun ip v => src_ip_key v = Some ip) entries T ->
  Forall (listed entries) T.
Proof.
  intros F. apply Forall_forall. intros v Hv.
  apply list_elem_of_lookup in Hv as [i Hi].
  destruct (Forall2_lookup_r _ _ _ _ _ F Hi) as (ip & Hip & Hk).
  unfold listed. rewrite Hk. by eapply list_elem_of_lookup_2.
Qed.

(** X2: a second run over the list that a first run has produced, with the
    same allow-list, finds a rule for every entry: it adds nothing and
    counts every entry as skipped. *)
Theorem second_run_adds_nothing rules_list m ip_values keep_ids m' keep_ids' :
  let out := rules_out (rebuild rules_list m ip_values keep_ids) in
  let rb := rebuild out m' ip_values keep_ids' in
  rb_added rb = 0%nat /\ rb_skipped rb = length (ip_order ip_values).
Proof.
  cbv zeta.
  set (out := rules_out (rebuild rules_list m ip_values keep_ids)).
  destruct (rebuild_counts out m' ip_values keep_ids') as (-> & -> & _).
  assert (Hall : Forall (fun ip => is_Some (first_match ip out))
                   (ip_order ip_values)).
  { apply Forall_forall. intros ip Hip.
    destruct (first_match ip out) eqn:E; [by eexists|]. exfalso.
    pose proof (rules_per_address rules_list m ip_values keep_ids ip Hip) as Hc.
    fold out in Hc.
    assert (Hin : ip ∈ filter (fun x => x = ip) (ip_order ip_values))
      by (by apply list_elem_of_filter).
    destruct (filter (fun v => src_ip_key v = Some ip) out) as [|v l] eqn:Ef.
    - destruct (filter (fun x => x = ip) (ip_order ip_values)); [|done].
      by apply elem_of_nil in Hin.
    - assert (Hv : v ∈ filter (fun v => src_ip_key v = Some ip) out)
        by (rewrite Ef; left).
      apply list_elem_of_filter in Hv as [Hk Hv].
      rewrite first_match_None in E. by apply (E v). }
  induction Hall as [|ip l Hip _ IH]; [done|].
  rewrite filter_cons_False by (destruct Hip as [? ->]; done).
  rewrite filter_cons_True by done. simpl. destruct IH as [-> ->]. done.
Qed.

(** X3: when the allow-list names no address twice, a second run with
    [keep_ids] over the list that a first run has produced, with the same
    allow-list, gives that list again. *)
Theorem second_run_keep_ids_fixed rules_list m ip_values keep_ids m' :
  NoDup (ip_order ip_values) ->
  let out := rules_out (rebuild rules_list m ip_values keep_ids) in
  rules_out (rebuild out m' ip_values true) = out.
Proof.
  intros Hnd. cbv zeta.
  destruct (rules_out_shape rules_list m ip_values keep_ids)
    as (T & R & -> & HT & HR).
  rewrite rules_out_keep.
  rewrite (top_values_keep_fixed R _ _ T HT Hnd []) by constructor.
  by rewrite rest_values_fixed by (by try apply (keys_listed _ _ HT)).
Qed.

(** ** The renumbered list as a function of the old one *)

Lemma deref_set_id_other h l n rs :
  l ∉ locs rs -> deref (set_id h l n) <$> rs = deref h <$> rs.
Proof.
  intros Hl. apply list_fmap_ext. intros i [l'|v] Hr; [|done]. simpl.
  unfold set_id. rewrite list_lookup_alter_ne; [done|].
  intros <-. apply Hl, locs_elem. by eapply list_elem_of_lookup_2.
Qed.

Lemma renumber_deref rs : forall h n,
  NoDup (locs rs) ->
  Forall (ref_wf h) rs ->
  deref (renumber h n rs).1 <$> rs = renumber_values n (deref h <$> rs).
Proof.
  induction rs as [|r rs IH]; intros h n Hnd Hwf; [done|].
  apply Forall_cons in Hwf as [Hr Hwf].
  rewrite renumber_cons, !fmap_cons.
  destruct r as [l|v]; simpl in Hr.
  - rewrite locs_cons_obj in Hnd. apply NoDup_cons in Hnd as [Hl Hnd].
    destruct (lookup_lt_is_Some_2 h l Hr) as [d Hd].
    assert (E : (renumber (set_id h l n) (n + 1) rs).1 !! l
                = Some (dict_set d (py "id") (VInt n))).
    { rewrite renumber_untouched by done.
      unfold set_id. by rewrite list_lookup_alter_eq, Hd. }
    cbn [deref]. rewrite E, Hd. cbn [from_option renumber_values]. f_equal.
    rewrite IH; [by rewrite deref_set_id_other | done |].
    eapply Forall_impl; [exact Hwf|].
    intros [l'|v']; simpl; [by rewrite set_id_length | done].
  - cbn [deref]. rewrite locs_cons_val in Hnd.
    destruct v; try (cbn [renumber_values]; f_equal; by apply IH).
    done.
Qed.

Lemma renumber_values_idem vs : forall n,
  renumber_values n (renumber_values n vs) = renumber_values n vs.
Proof.
  assert (Hset : forall (d : pydict) k v,
            dict_set (dict_set d k v) k v = dict_set d k v).
  { intros d k v. induction d as [|[k' v'] d IH]; simpl.
    - by rewrite decide_True.
    - destruct (decide (k' = k)) as [->|Hne]; simpl.
      + by rewrite decide_True.
      + by rewrite decide_False, IH. }
  induction vs as [|v vs IH]; intros n; [done|].
  destruct v; cbn [renumber_values]; rewrite ?Hset, IH; done.
Qed.

Lemma top_values_keep_matched rules entries : forall n,
  Forall (fun ip => is_Some (first_match ip rules)) entries ->
  top_values_keep rules n entries = top_value rules <$> entries.
Proof.
  intros n Hall. induction Hall as [|ip entries [v Hv] _ IH]; [done|].
  cbn [top_values_keep]. rewrite fmap_cons. unfold top_value at 1.
  by rewrite Hv, IH.
Qed.

(** The new list without [keep_ids], from the old one. *)
Lemma rules_out_renumber_values rules_list max_id_any ip_values :
  NoDup (filter (fun ip => is_Some (first_match ip rules_list))
           (ip_order ip_values)) ->
  rules_out (rebuild rules_list max_id_any ip_values false)
  = renumber_values 1
      ((top_value rules_list <$> ip_order ip_values)
       ++ filter (fun v => ~ listed (ip_order ip_values) v) rules_list).
Proof.
  intros Hnd.
  destruct (rebuild_unfold rules_list max_id_any ip_values false)
    as (h0 & rs & fs & F & L & Hfs & ->).
  cbv zeta. unfold rules_out. cbn [rb_store new_rules_list].
  set (news := (fun ip => build_allow_rule ip 0)
                 <$> unmatched fs (ip_order ip_values)).
  set (top := top_refs fs (length h0) (ip_order ip_values)).
  set (rest := remaining_rules h0 (ip_set ip_values) rs).
  assert (Hlt : forall ip l, fs !! ip = Some l ->
                  RObj l ∈ rs /\ src_ip_key (deref h0 (RObj l)) = Some ip
                  /\ ip ∈ ip_set ip_values).
  { intros ip l E. subst fs. rewrite first_seen_lookup in E.
    destruct (decide (ip ∈ ip_set ip_values)); [|done].
    apply first_loc_elem in E as [? ?]. done. }
  assert (Hwf0 : Forall (ref_wf h0) rs).
  { eapply Forall2_Forall_l; [exact F|].
    apply Forall_forall. intros v _ r Hr. by eapply stands_for_wf. }
  assert (Hlt' : forall ip l, fs !! ip = Some l -> (l < length h0)%nat).
  { intros ip l E. apply Hlt in E as [Hr _].
    rewrite Forall_forall in Hwf0. apply (Hwf0 _ Hr). }
  assert (Hmatched : filter (fun ip => is_Some (fs !! ip)) (ip_order ip_values)
                     = filter (fun ip => is_Some (first_match ip rules_list))
                         (ip_order ip_values)).
  { apply filter_iff_elem. intros ip Hip. subst fs.
    rewrite <- !not_eq_None_Some. by rewrite first_seen_None. }
  assert (Hnd' : NoDup (locs (top ++ rest))).
  { rewrite locs_app. apply NoDup_app. split; [|split].
    - apply (top_refs_NoDup fs (length h0)); [done | | done | by rewrite Hmatched].
      intros ip ip' l E E'. apply Hlt in E as (_ & E & _).
      apply Hlt in E' as (_ & E' & _). congruence.
    - intros l Htop Hrest.
      apply locs_elem in Hrest. unfold rest, remaining_rules in Hrest.
      apply list_elem_of_filter in Hrest as [Hblock Hr].
      assert (Hl : (l < length h0)%nat)
        by (rewrite Forall_forall in Hwf0; apply (Hwf0 _ Hr)).
      apply top_refs_elem in Htop as [(ip & _ & E)|?]; [|lia].
      apply Hlt in E as (_ & E & Hin).
      unfold in_top_block in Hblock. rewrite E in Hblock.
      by rewrite bool_decide_eq_false in Hblock.
    - eapply sublist_NoDup; [|apply locs_sublist, sublist_filter].
      rewrite L. apply NoDup_seq. }
  assert (Hwf : Forall (ref_wf (h0 ++ news)) (top ++ rest)).
  { apply Forall_app. split.
    - apply top_refs_wf; [done|]. unfold news.
      by rewrite length_app, length_fmap.
    - eapply Forall_impl; [apply Forall_forall; intros r Hr|].
      + apply list_elem_of_filter in Hr as [_ Hr].
        rewrite Forall_forall in Hwf0. apply (Hwf0 _ Hr).
      + intros [l|v]; simpl; [rewrite length_app; lia | done]. }
  rewrite (renumber_deref _ _ _ Hnd' Hwf). f_equal.
  rewrite fmap_app. f_equal.
  - pose proof (top_refs_deref h0 (ip_set ip_values) rs rules_list
                  (ip_order ip_values) F (ip_order ip_values) []) as Ht.
    rewrite app_nil_r in Ht. subst fs. apply Ht; [done|].
    intros ip. apply ip_set_elem.
  - apply Forall2_stands_for_deref.
    eapply Forall2_impl; [|intros ? ? Hs; apply stands_for_app, Hs].
    apply remaining_rules_spec; [apply ip_set_elem | done].
Qed.

(** X4: without [keep_ids], when no allow-listed address that has an
    existing rule is named twice, the new list is the list of the rules of
    the entries (for each the first rule with that trimmed ["src_ip"], or a
    new rule) followed by the items that are no rules for an entry, with
    the ids [1, 2, ...] assigned to the dicts in that order. *)
Theorem rules_out_renumbered rules_list max_id_any ip_values :
  NoDup (filter (fun ip => is_Some (first_match ip rules_list))
           (ip_order ip_values)) ->
  rules_out (rebuild rules_list max_id_any ip_values false)
  = renumber_values 1
      ((top_value rules_list <$> ip_order ip_values)
       ++ filter (fun v => ~ listed (ip_order ip_values) v) rules_list).
Proof. apply rules_out_renumber_values. Qed.

(** X5: when the allow-list names no address twice, a second run without
    [keep_ids] over the list that a first run without [keep_ids] has
    produced, with the same allow-list, gives that list again. *)
Theorem second_run_renumber_fixed rules_list m ip_values m' :
  NoDup (ip_order ip_values) ->
  let out := rules_out (rebuild rules_list m ip_values false) in
  rules_out (rebuild out m' ip_values false) = out.
Proof.
  intros Hnd. cbv zeta.
  assert (Hsub : forall rules,
            NoDup (filter (fun ip => is_Some (first_match ip rules))
                     (ip_order ip_values)))
    by (intros rules; by apply NoDup_filter).
  rewrite (rules_out_renumber_values _ m' _ (Hsub _)).
  pose proof (rules_out_renumber_values rules_list m ip_values (Hsub _)) as Hout.
  destruct (rules_out_shape rules_list m ip_values false)
    as (T & R & E & HT & HR).
  assert (Htop : top_value (T ++ R) <$> ip_order ip_values = T).
  { rewrite <- (top_values_keep_matched _ _ 0).
    - by apply (top_values_keep_fixed R 0 _ T HT Hnd []).
    - apply Forall_forall. intros ip Hip.
      apply list_elem_of_lookup in Hip as [i Hi].
      destruct (Forall2_lookup_l _ _ _ _ _ HT Hi) as (v & Hv & Hk).
      destruct (first_match ip (T ++ R)) eqn:Em; [by eexists|].
      rewrite first_match_None in Em. exfalso. apply (Em v); [|done].
      apply elem_of_app. left. by eapply list_elem_of_lookup_2. }
  rewrite E, Htop.
  fold (rest_values (ip_order ip_values) (T ++ R)).
  rewrite rest_values_fixed by (by try apply (keys_listed _ _ HT)).
  rewrite <- E, Hout. apply renumber_values_idem.
Qed.

(** ** More on the row and the files *)

Ltac bind_step_in H := rewrite ?bind_Ok, ?bind_Raise in H.

Lemma ip_order_fixed ips :
  Forall (fun v => strip v = v /\ v <> []) ips -> ip_order ips = ips.
Proof.
  unfold ip_order. induction 1 as [|v ips [Hs Hne] _ IH]; [done|].
  rewrite filter_cons_True by (by rewrite Hs).
  by rewrite fmap_cons, Hs, IH.
Qed.

(** X6: [read_ip_list] raises [FileNotFoundError], the path in its
    message, when there is no file; the entries it returns are trimmed, not
    empty and no comments, so that the trimming and dropping of blanks that
    [update_rules_in_row] does again leaves them as they are. *)
Theorem read_ip_list_entries (fs : files) (ip_txt_path : pystr) :
  (fs !! ip_txt_path = None ->
   read_ip_list fs ip_txt_path
   = Raise (FileNotFoundError (py "IP list file not found: " ++ ip_txt_path)))
  /\ (forall ip_values,
        read_ip_list fs ip_txt_path = Ok ip_values ->
        Forall (fun v => trimmed v /\ v <> []
                         /\ startswith v (py "#") = false) ip_values
        /\ ip_order ip_values = ip_values).
Proof.
  unfold read_ip_list. split; [by intros ->|].
  intros ip_values. destruct (fs !! ip_txt_path) as [text|]; [|done].
  intros [= <-].
  assert (H : Forall (fun v => strip v = v /\ v <> []
                               /\ startswith v (py "#") = false)
                (filter (fun value => value <> []
                                      /\ startswith value (py "#") = false)
                   (strip <$> Csv.lines_from [] text))).
  { apply Forall_forall. intros v Hv.
    apply list_elem_of_filter in Hv as [[Hne Hc] Hv].
    apply list_elem_of_fmap in Hv as (line & -> & _).
    split; [apply strip_idem | done]. }
  split.
  - eapply Forall_impl; [exact H|]. intros v (? & ? & ?).
    split; [by apply strip_fixed_trimmed | done].
  - apply ip_order_fixed.
    eapply Forall_impl; [exact H|]. by intros v (? & ? & _).
Qed.

Section Frames.

Context `{Library}.

(** X7: [update_rules_in_row] changes the row in the ["rules"] cell only:
    the row keeps its length and every other cell, the ["rulesv6"] cell
    among them. *)
Theorem update_rules_in_row_frame header row ip_values keep_ids row' counts :
  update_rules_in_row header row ip_values keep_ids = Ok (row', counts) ->
  length row' = length row
  /\ exists i, index header (py "rules") = Some i
      /\ (i < length row)%nat
      /\ forall j, j <> i -> row' !! j = row !! j.
Proof.
  destruct counts as [a s]. intros E.
  apply update_rules_in_row_inv in E
    as (i & rules & v6 & text & Ed & _ & -> & _).
  split; [apply length_insert|]. exists i.
  split; [by eapply decode_row_index|]. split.
  - unfold decode_row, getitem in Ed.
    rewrite (decode_row_index _ _ _ _ _ Ed) in Ed. bind_step_in Ed.
    destruct (row !! i) eqn:Hr; [by eapply lookup_lt_Some | done].
  - intros j Hj. by rewrite list_lookup_insert_ne.
Qed.

(** X8: [process] writes to the output path and, when it runs in place with
    backups, to the backup path; every other file is as it was, whatever
    the outcome (so is the allow-list, unless it is given as output path
    or is at the backup path). *)
Theorem process_frame fs csv_path ip_txt_path output_path in_place make_backup
    keep_ids p :
  p <> out_path csv_path output_path in_place ->
  p <> csv_path ++ py ".bak" \/ in_place && make_backup = false ->
  (process fs csv_path ip_txt_path output_path in_place make_backup keep_ids).1
    !! p = fs !! p.
Proof.
  intros Hout Hbak. unfold process.
  destruct (load_csv fs csv_path) as [[header data_rows]|e]; [|done].
  destruct (read_ip_list fs ip_txt_path) as [ip_values|e]; [|done].
  destruct data_rows as [|row rows]; [done|].
  destruct (update_rules_in_row header row ip_values keep_ids)
    as [[row' [a s]]|e]; [|done].
  assert (Hb : forall fs1 r,
            (if in_place && make_backup then backup fs csv_path
             else (fs, Ok ())) = (fs1, r) -> fs1 !! p = fs !! p).
  { intros fs1 r. destruct (in_place && make_backup); [|by intros [= <- _]].
    destruct Hbak as [Hbak|?]; [|done]. unfold backup.
    destruct (fs !! (csv_path ++ py ".bak")); [by intros [= <- _]|].
    destruct (fs !! csv_path); intros [= <- _]; by rewrite lookup_insert_ne. }
  destruct (if in_place && make_backup then _ else _) as [fs1 [[]|e]] eqn:Eb;
    [|by eapply Hb].
  unfold dump_csv. destruct (write_all true _) as [text r]. simpl.
  rewrite lookup_insert_ne by done. by eapply Hb.
Qed.

(** X9: [process] writes nothing before the table and the allow-list are
    read and the first data row is updated: unless [load_csv],
    [read_ip_list] and [update_rules_in_row] have all returned, no file has
    changed, and no backup has been written. *)
Theorem process_failure_leaves_files fs csv_path ip_txt_path output_path
    in_place make_backup keep_ids :
  (process fs csv_path ip_txt_path output_path in_place make_backup keep_ids).1
  = fs
  \/ exists header row rows ip_values row' counts,
       load_csv fs csv_path = Ok (header, row :: rows)
       /\ read_ip_list fs ip_txt_path = Ok ip_values
       /\ update_rules_in_row header row ip_values keep_ids
          = Ok (row', counts).
Proof.
  unfold process.
  destruct (load_csv fs csv_path) as [[header data_rows]|e0]; [|by left].
  destruct (read_ip_list fs ip_txt_path) as [ip_values|e0]; [|by left].
  destruct data_rows as [|row rows]; [by left|].
  destruct (update_rules_in_row header row ip_values keep_ids)
    as [[row' counts]|e0] eqn:Eu; [|by left].
  right. by exists header, row, rows, ip_values, row', counts.
Qed.

End Frames.

Section Collect.

Context `{Library}.

Lemma collect_fold_src_ips vs : forall acc key,
  key ∈ (foldl collect_step acc vs).2
  <-> key ∈ acc.2 \/ exists v, v ∈ vs /\ src_ip_key v = Some key.
Proof.
  induction vs as [|v vs IH]; intros acc key.
  - simpl. split; [by left|]. intros [?|(v & Hv & _)]; [done|].
    by apply elem_of_nil in Hv.
  - simpl foldl. rewrite IH. clear IH.
    assert (Hstep : key ∈ (collect_step acc v).2
                    <-> key ∈ acc.2 \/ src_ip_key v = Some key).
    { destruct v as [| | | | | |d]; simpl; try (split; [by left | by intros [?|?]]).
      destruct (dict_get d (py "src_ip")) as [[| | | |s| |]|]; simpl;
        try (split; [by left | by intros [?|?]]).
      rewrite elem_of_union, elem_of_singleton.
      split; [intros [->|?]; [by right | by left]
             |intros [?|[= <-]]; [by right | by left]]. }
    rewrite Hstep. split.
    + intros [[?|?]|(w & ? & ?)]; [by left | right; exists v | right; exists w];
        (split; [|done]); [left | by right].
    + intros [?|(w & [->|?]%elem_of_cons & ?)];
        [by left; left | by left; right | right; by exists w].
Qed.

(** X10: [collect_existing_ids_and_src_ips] returns the largest id that
    [int] reads off the dicts of the list, 0 when none is above it, and the
    set of the trimmed ["src_ip"] strings of its dicts. *)
Theorem collect_existing_ids_and_src_ips_spec rules_list :
  (collect_existing_ids_and_src_ips rules_list).1
  = max_of (observed_ids rules_list)
  /\ forall key,
       key ∈ (collect_existing_ids_and_src_ips rules_list).2
       <-> exists v, v ∈ rules_list /\ src_ip_key v = Some key.
Proof.
  split; [apply collect_max|]. intros key.
  unfold collect_existing_ids_and_src_ips. rewrite collect_fold_src_ips.
  simpl. split; [intros [?|?]; [set_solver | done] | by right].
Qed.

End Collect.

(** ** Reading what the writer wrote *)

Lemma feed_chars_app a : forall r b,
  feed_chars r (a ++ b) = r' ← feed_chars r a; feed_chars r' b.
Proof.
  induction a as [|c a IH]; intros r b; [done|]. simpl.
  destruct (Csv.parse_process_char r (Some c)) as [r'|e]; bind_step; [|done].
  apply IH.
Qed.

Lemma feed_line_chars line : forall r,
  Csv.feed_line r line
  = r' ← feed_chars r line; Csv.parse_process_char r' None.
Proof.
  induction line as [|c line IH]; intros r; [done|]. simpl.
  destruct (Csv.parse_process_char r (Some c)) as [r'|e]; bind_step; [|done].
  apply IH.
Qed.

Lemma rows_of_records_nil r raw :
  rows_of (Csv.records_from r raw []) = Ok (at_end r).
Proof.
  unfold rows_of, at_end. simpl.
  destruct (Csv.field r), (Csv.state r); done.
Qed.

Lemma rows_of_raw lines : forall r raw raw',
  rows_of (Csv.records_from r raw lines)
  = rows_of (Csv.records_from r raw' lines).
Proof.
  induction lines as [|line lines IH]; intros r raw raw'.
  - by rewrite !rows_of_records_nil.
  - simpl. destruct (Csv.feed_line r line) as [r'|e]; bind_step; [|done].
    destruct (Csv.state r'); try apply IH.
    unfold rows_of.
    destruct (Csv.records_from Csv.parse_reset [] lines); by bind_step.
Qed.

Lemma rows_of_records_cons r raw line lines :
  rows_of (Csv.records_from r raw (line :: lines))
  = r' ← Csv.feed_line r line;
    emit r' (fun r0 => rows_of (Csv.records_from r0 [] lines)).
Proof.
  simpl. destruct (Csv.feed_line r line) as [r'|e]; bind_step; [|done].
  unfold emit. destruct (Csv.state r'); try apply rows_of_raw.
  unfold rows_of.
  destruct (Csv.records_from Csv.parse_reset [] lines); by bind_step.
Qed.

Lemma lines_from_head s : forall cur,
  cur <> [] -> exists x rest, Csv.lines_from cur s = (cur ++ x) :: rest.
Proof.
  induction s as [|c s IH]; intros cur Hcur; simpl.
  - exists [], []. rewrite app_nil_r. by destruct cur.
  - destruct (c =? Csv.LF)%N; [by eexists _, _|].
    destruct (c =? Csv.CR)%N.
    + destruct s as [|c' s']; [by eexists _, _|].
      destruct (c' =? Csv.LF)%N; by eexists _, _.
    + destruct (IH (cur ++ [c])) as (x & rest & ->); [by destruct cur|].
      exists (c :: x), rest. by rewrite <- app_assoc.
Qed.

Lemma rows_of_feed_error r raw cur s e :
  cur <> [] -> feed_chars r cur = Raise e ->
  rows_of (Csv.records_from r raw (Csv.lines_from cur s)) = Raise e.
Proof.
  intros Hcur He. destruct (lines_from_head s cur Hcur) as (x & rest & ->).
  rewrite rows_of_records_cons, feed_line_chars, feed_chars_app, He.
  by bind_step.
Qed.

(** Reading line by line is reading character by character. *)
Lemma crows_lines n : forall s, (length s <= n)%nat ->
  forall cur r raw rc,
    feed_chars r cur = Ok rc ->
    rows_of (Csv.records_from r raw (Csv.lines_from cur s))
    = crows rc (bool_decide (cur <> [])) s.
Proof.
  induction n as [|n IH]; intros s Hn cur r raw rc Hrc.
  - destruct s; [|simpl in Hn; lia]. simpl.
    destruct cur as [|c cur].
    + simpl in Hrc. injection Hrc as <-. apply rows_of_records_nil.
    + rewrite bool_decide_true by done.
      rewrite rows_of_records_cons, feed_line_chars, Hrc. bind_step.
      destruct (Csv.parse_process_char rc None) as [r'|e]; bind_step; [|done].
      unfold emit. destruct (Csv.state r');
        by rewrite ?rows_of_records_nil.
  - destruct s as [|c s].
    { apply (IH []); [simpl; lia | done]. }
    simpl in Hn.
    assert (Hline : forall line rest s',
      (length s' <= n)%nat ->
      Csv.lines_from [] s' = rest ->
      forall rl, feed_chars rc line = Ok rl ->
      rows_of (Csv.records_from r raw ((cur ++ line) :: rest))
      = r2 ← Csv.parse_process_char rl None;
        emit r2 (fun r0 => crows r0 false s')).
    { intros line rest s' Hs' <- rl Hrl.
      rewrite rows_of_records_cons, feed_line_chars, feed_chars_app, Hrc.
      bind_step. rewrite Hrl. bind_step.
      destruct (Csv.parse_process_char rl None) as [r2|e]; bind_step; [|done].
      unfold emit.
      destruct (Csv.state r2);
        rewrite ?(IH s' Hs' [] _ [] _ eq_refl); done. }
    assert (Hline_err : forall line rest e,
      feed_chars rc line = Raise e ->
      rows_of (Csv.records_from r raw ((cur ++ line) :: rest)) = Raise e).
    { intros line rest e He.
      rewrite rows_of_records_cons, feed_line_chars, feed_chars_app, Hrc.
      bind_step. rewrite He. by bind_step. }
    cbn [Csv.lines_from crows].
    destruct (c =? Csv.LF)%N eqn:Elf.
    { destruct (Csv.parse_process_char rc (Some c)) as [r1|e] eqn:E1; bind_step.
      - apply (Hline [c]); [lia | done | simpl; by rewrite E1].
      - apply Hline_err. simpl. by rewrite E1. }
    destruct (c =? Csv.CR)%N eqn:Ecr.
    { destruct s as [|c' s'].
      - destruct (Csv.parse_process_char rc (Some c)) as [r1|e] eqn:E1; bind_step.
        + apply (Hline [c] [] []); [simpl; lia | done | simpl; by rewrite E1].
        + apply Hline_err. simpl. by rewrite E1.
      - simpl in Hn. destruct (c' =? Csv.LF)%N eqn:Elf'.
        + destruct (Csv.parse_process_char rc (Some c)) as [r1|e] eqn:E1;
            bind_step.
          * destruct (Csv.parse_process_char r1 (Some c')) as [r1'|e] eqn:E2;
              bind_step.
            -- apply (Hline [c; c']); [lia | done|].
               simpl. rewrite E1. bind_step. by rewrite E2.
            -- apply Hline_err. simpl. rewrite E1. bind_step. by rewrite E2.
          * apply Hline_err. simpl. by rewrite E1.
        + destruct (Csv.parse_process_char rc (Some c)) as [r1|e] eqn:E1;
            bind_step.
          * apply (Hline [c]); [simpl; lia | done | simpl; by rewrite E1].
          * apply Hline_err. simpl. by rewrite E1. }
    assert (Hc : feed_chars r (cur ++ [c])
                 = Csv.parse_process_char rc (Some c)).
    { rewrite feed_chars_app, Hrc. bind_step. simpl.
      destruct (Csv.parse_process_char rc (Some c)); by bind_step. }
    destruct (Csv.parse_process_char rc (Some c)) as [r1|e] eqn:E1; bind_step.
    + rewrite (IH s ltac:(lia) (cur ++ [c]) r raw r1 Hc).
      by rewrite bool_decide_true by (by destruct cur).
    + apply rows_of_feed_error; [by destruct cur | done].
Qed.

Lemma reader_rows_crows text :
  Csv.reader_rows text = crows Csv.parse_reset false text.
Proof.
  unfold Csv.reader_rows, Csv.records.
  change (rows_of (Csv.records_from Csv.parse_reset [] (Csv.lines_from [] text))
          = crows Csv.parse_reset false text).
  by rewrite (crows_lines (length text) text (le_n _) [] _ [] _ eq_refl).
Qed.

Lemma parse_add_char_ok r c :
  (N.of_nat (length (Csv.field r)) < Csv.field_limit)%N ->
  Csv.parse_add_char r c
  = Ok (Csv.Reader (Csv.state r) (Csv.field r ++ [c]) (Csv.fields r)).
Proof.
  intros Hlen. unfold Csv.parse_add_char.
  destruct (N.leb_spec Csv.field_limit (N.of_nat (length (Csv.field r))));
    [lia | done].
Qed.

Lemma parse_add_char_state r c r' :
  Csv.parse_add_char r c = Ok r' -> Csv.state r' = Csv.state r.
Proof.
  unfold Csv.parse_add_char.
  destruct (_ <=? _)%N; [done|]. by intros [= <-].
Qed.

(** Inside a quoted field whether the line has characters is of no
    account. *)
Lemma crows_pend_quoted r s p p' :
  Csv.state r = Csv.IN_QUOTED_FIELD -> crows r p s = crows r p' s.
Proof.
  intros Hst. destruct s; [|done]. cbn [crows].
  assert (Hend : (r' ← Csv.parse_process_char r None;
                  emit r' (fun r0 => Ok (at_end r0))) = Ok (at_end r)).
  { unfold Csv.parse_process_char. rewrite Hst. bind_step.
    unfold emit. by rewrite Hst. }
  destruct p, p'; by rewrite ?Hend.
Qed.

(** A character other than the quote, inside a quoted field, is added to
    the field. *)
Lemma crows_quoted_char r p p' c s :
  Csv.state r = Csv.IN_QUOTED_FIELD -> c <> Csv.quote ->
  crows r p (c :: s) = r1 ← Csv.parse_add_char r c; crows r1 p' s.
Proof.
  intros Hst Hc.
  assert (Hstep : forall r0 c0, Csv.state r0 = Csv.IN_QUOTED_FIELD ->
            c0 <> Csv.quote ->
            Csv.parse_process_char r0 (Some c0) = Csv.parse_add_char r0 c0).
  { intros r0 c0 H0 Hc0. unfold Csv.parse_process_char. rewrite H0.
    destruct (N.eqb_spec c0 Csv.quote); done. }
  assert (Heol : forall r0 k, Csv.state r0 = Csv.IN_QUOTED_FIELD ->
            (r2 ← Csv.parse_process_char r0 None; emit r2 k) = k r0).
  { intros r0 k H0. unfold Csv.parse_process_char. rewrite H0. bind_step.
    unfold emit. by rewrite H0. }
  cbn [crows]. rewrite (Hstep r c Hst Hc).
  destruct (Csv.parse_add_char r c) as [r1|e] eqn:E1; bind_step.
  2:{ destruct (c =? Csv.LF)%N; [done|]. destruct (c =? Csv.CR)%N; [|done].
      destruct s as [|c' s']; [done|]. by destruct (c' =? Csv.LF)%N. }
  pose proof (parse_add_char_state _ _ _ E1) as Hst1. rewrite Hst in Hst1.
  destruct (c =? Csv.LF)%N.
  { rewrite Heol by done. by apply crows_pend_quoted. }
  destruct (c =? Csv.CR)%N; [|by apply crows_pend_quoted].
  destruct s as [|c' s'].
  { rewrite Heol by done. by apply crows_pend_quoted. }
  destruct (N.eqb_spec c' Csv.LF) as [->|Hlf].
  - cbn [crows]. change (Csv.LF =? Csv.LF)%N with true. cbn iota.
    done.
  - rewrite Heol by done. by apply crows_pend_quoted.
Qed.

Lemma double_quotes_cons c f :
  Csv.double_quotes (c :: f)
  = (if (c =? Csv.quote)%N then [Csv.quote; Csv.quote] else [c])
    ++ Csv.double_quotes f.
Proof. done. Qed.

(** A character that ends no line. *)
Lemma crows_char r p c s :
  c <> Csv.LF -> c <> Csv.CR ->
  crows r p (c :: s) = r1 ← Csv.parse_process_char r (Some c); crows r1 true s.
Proof.
  intros Hlf Hcr. cbn [crows].
  destruct (N.eqb_spec c Csv.LF); [done|].
  by destruct (N.eqb_spec c Csv.CR).
Qed.

(** The line end that the writer puts. *)
Lemma crows_crlf r p s :
  crows r p (Csv.CR :: Csv.LF :: s)
  = r1 ← Csv.parse_process_char r (Some Csv.CR);
    r1' ← Csv.parse_process_char r1 (Some Csv.LF);
    r2 ← Csv.parse_process_char r1' None;
    emit r2 (fun r0 => crows r0 false s).
Proof. done. Qed.

(** The content of a quoted field and its closing quote. *)
Lemma crows_quoted f : forall fld fs p s,
  (N.of_nat (length fld + length f) <= Csv.field_limit)%N ->
  crows (Csv.Reader Csv.IN_QUOTED_FIELD fld fs) p
    (Csv.double_quotes f ++ Csv.quote :: s)
  = crows (Csv.Reader Csv.QUOTE_IN_QUOTED_FIELD (fld ++ f) fs) true s.
Proof.
  induction f as [|c f IH]; intros fld fs p s Hlen.
  - rewrite app_nil_r. cbn [Csv.double_quotes mbind list_bind app].
    by rewrite crows_char.
  - rewrite double_quotes_cons. simpl in Hlen.
    assert (Hadd : forall st, Csv.parse_add_char (Csv.Reader st fld fs) c
                   = Ok (Csv.Reader st (fld ++ [c]) fs)).
    { intros st. rewrite parse_add_char_ok; [done | simpl; lia]. }
    replace (fld ++ c :: f) with ((fld ++ [c]) ++ f) by by rewrite <- app_assoc.
    destruct (N.eqb_spec c Csv.quote) as [->|Hq].
    + cbn [app]. rewrite crows_char by done.
      change (Csv.parse_process_char
                (Csv.Reader Csv.IN_QUOTED_FIELD fld fs) (Some Csv.quote))
        with (Ok (Csv.Reader Csv.QUOTE_IN_QUOTED_FIELD fld fs)).
      bind_step. rewrite crows_char by done.
      change (Csv.parse_process_char
                (Csv.Reader Csv.QUOTE_IN_QUOTED_FIELD fld fs) (Some Csv.quote))
        with (r' ← Csv.parse_add_char
                     (Csv.Reader Csv.QUOTE_IN_QUOTED_FIELD fld fs) Csv.quote;
              Ok (Csv.set_state r' Csv.IN_QUOTED_FIELD)).
      rewrite Hadd. bind_step.
      apply IH. rewrite length_app. simpl. lia.
    + cbn [app]. rewrite (crows_quoted_char _ p true) by done.
      rewrite Hadd. bind_step. apply IH. rewrite length_app. simpl. lia.
Qed.

(** A field the writer leaves unquoted has no character that the reader
    treats specially. *)
Lemma needs_quotes_cons c f :
  Csv.needs_quotes (c :: f) = false ->
  c <> Csv.comma /\ c <> Csv.quote /\ c <> Csv.CR /\ c <> Csv.LF
  /\ Csv.needs_quotes f = false.
Proof.
  unfold Csv.needs_quotes. cbn [existsb]. intros Hf.
  apply orb_false_elim in Hf as [Hc Hf].
  destruct (N.eqb_spec c Csv.comma), (N.eqb_spec c Csv.quote),
    (N.eqb_spec c Csv.CR), (N.eqb_spec c Csv.LF); done.
Qed.

Lemma plain_char_tests c :
  c <> Csv.comma -> c <> Csv.quote -> c <> Csv.CR -> c <> Csv.LF ->
  Csv.is_newline c = false /\ (c =? Csv.quote)%N = false
  /\ (c =? Csv.comma)%N = false.
Proof.
  intros. unfold Csv.is_newline.
  destruct (N.eqb_spec c Csv.comma), (N.eqb_spec c Csv.quote),
    (N.eqb_spec c Csv.CR), (N.eqb_spec c Csv.LF); done.
Qed.

(** The content of an unquoted field. *)
Lemma crows_plain f : forall fld fs s,
  Csv.needs_quotes f = false ->
  (N.of_nat (length fld + length f) <= Csv.field_limit)%N ->
  crows (Csv.Reader Csv.IN_FIELD fld fs) true (f ++ s)
  = crows (Csv.Reader Csv.IN_FIELD (fld ++ f) fs) true s.
Proof.
  induction f as [|c f IH]; intros fld fs s Hf Hlen.
  - by rewrite app_nil_r.
  - apply needs_quotes_cons in Hf as (Hc1 & Hc2 & Hc3 & Hc4 & Hf).
    destruct (plain_char_tests c) as (Hn & Hq & Hcm); [done..|].
    simpl in Hlen. cbn [app]. rewrite crows_char by done.
    unfold Csv.parse_process_char. cbn [Csv.state]. rewrite Hn, Hcm.
    rewrite parse_add_char_ok by (simpl; lia). bind_step.
    cbn [Csv.state Csv.field Csv.fields].
    replace (fld ++ c :: f) with ((fld ++ [c]) ++ f) by by rewrite <- app_assoc.
    apply IH; [done|]. rewrite length_app. simpl. lia.
Qed.

(** A field as the writer puts it, read from the start of a field. *)
Lemma crows_field st f fs p s :
  st = Csv.START_RECORD \/ st = Csv.START_FIELD ->
  Csv.join_append f <> [] ->
  (N.of_nat (length f) <= Csv.field_limit)%N ->
  exists st', (st' = Csv.IN_FIELD \/ st' = Csv.QUOTE_IN_QUOTED_FIELD)
    /\ crows (Csv.Reader st [] fs) p (Csv.join_append f ++ s)
       = crows (Csv.Reader st' f fs) true s.
Proof.
  intros Hst Hne Hlen. unfold Csv.join_append in *.
  destruct (Csv.needs_quotes f) eqn:Hq.
  - exists Csv.QUOTE_IN_QUOTED_FIELD. split; [by right|].
    cbn [app]. rewrite crows_char by done.
    replace (Csv.parse_process_char (Csv.Reader st [] fs) (Some Csv.quote))
      with (Ok (Csv.Reader Csv.IN_QUOTED_FIELD [] fs))
      by by destruct Hst as [-> | ->].
    bind_step. rewrite <- app_assoc. cbn [app].
    by rewrite crows_quoted.
  - exists Csv.IN_FIELD. split; [by left|].
    destruct f as [|c f]; [done|].
    apply needs_quotes_cons in Hq as (Hc1 & Hc2 & Hc3 & Hc4 & Hf).
    destruct (plain_char_tests c) as (Hn & Hq & Hcm); [done..|].
    simpl in Hlen. cbn [app]. rewrite crows_char by done.
    replace (Csv.parse_process_char (Csv.Reader st [] fs) (Some c))
      with (Ok (Csv.Reader Csv.IN_FIELD [c] fs)).
    2:{ destruct Hst as [-> | ->]; unfold Csv.parse_process_char;
          cbn [Csv.state Csv.set_state Csv.field Csv.fields];
          rewrite Hn, Hq, Hcm, parse_add_char_ok by (simpl; lia); done. }
    bind_step. rewrite crows_plain; [done..|]. simpl. lia.
Qed.

(** The comma after a field. *)
Lemma crows_comma st f fs s :
  st = Csv.IN_FIELD \/ st = Csv.QUOTE_IN_QUOTED_FIELD ->
  crows (Csv.Reader st f fs) true (Csv.comma :: s)
  = crows (Csv.Reader Csv.START_FIELD [] (fs ++ [f])) true s.
Proof.
  intros Hst. rewrite crows_char by done. by destruct Hst as [-> | ->].
Qed.

(** The line end after a field. *)
Lemma crows_end st f fs s :
  st = Csv.IN_FIELD \/ st = Csv.QUOTE_IN_QUOTED_FIELD ->
  crows (Csv.Reader st f fs) true (Csv.CR :: Csv.LF :: s)
  = rows ← crows Csv.parse_reset false s; Ok ((fs ++ [f]) :: rows).
Proof.
  intros Hst. rewrite crows_crlf. by destruct Hst as [-> | ->].
Qed.

(** An empty field, which takes no character, before a comma or a line
    end. *)
Lemma crows_empty_comma st fs p s :
  st = Csv.START_RECORD \/ st = Csv.START_FIELD ->
  crows (Csv.Reader st [] fs) p (Csv.comma :: s)
  = crows (Csv.Reader Csv.START_FIELD [] (fs ++ [[]])) true s.
Proof.
  intros Hst. rewrite crows_char by done. by destruct Hst as [-> | ->].
Qed.

Lemma crows_empty_end fs p s :
  crows (Csv.Reader Csv.START_FIELD [] fs) p (Csv.CR :: Csv.LF :: s)
  = rows ← crows Csv.parse_reset false s; Ok ((fs ++ [[]]) :: rows).
Proof. by rewrite crows_crlf. Qed.

Lemma join_append_nil f : Csv.join_append f = [] -> f = [].
Proof. unfold Csv.join_append. by destruct (Csv.needs_quotes f). Qed.

(** A field and the comma after it. *)
Lemma crows_field_comma st f fs p s :
  st = Csv.START_RECORD \/ st = Csv.START_FIELD ->
  (N.of_nat (length f) <= Csv.field_limit)%N ->
  crows (Csv.Reader st [] fs) p (Csv.join_append f ++ Csv.comma :: s)
  = crows (Csv.Reader Csv.START_FIELD [] (fs ++ [f])) true s.
Proof.
  intros Hst Hlen. destruct (decide (Csv.join_append f = [])) as [He|Hne].
  - rewrite He. apply join_append_nil in He as ->. by apply crows_empty_comma.
  - destruct (crows_field st f fs p (Csv.comma :: s)) as (st' & Hst' & ->);
      [done..|]. by apply crows_comma.
Qed.

(** The fields of a record from the second on, and the line end. *)
Lemma crows_join fs' : forall f fs p s,
  Forall (fun f => (N.of_nat (length f) <= Csv.field_limit)%N) (f :: fs') ->
  crows (Csv.Reader Csv.START_FIELD [] fs) p
    (Csv.join_fields (Csv.join_append <$> f :: fs') ++ Csv.CR :: Csv.LF :: s)
  = rows ← crows Csv.parse_reset false s; Ok ((fs ++ f :: fs') :: rows).
Proof.
  induction fs' as [|f' fs' IH]; intros f fs p s Hlen.
  - apply Forall_cons in Hlen as [Hlen _]. cbn [fmap list_fmap Csv.join_fields].
    destruct (decide (Csv.join_append f = [])) as [He|Hne].
    + rewrite He. apply join_append_nil in He as ->. apply crows_empty_end.
    + destruct (crows_field Csv.START_FIELD f fs p (Csv.CR :: Csv.LF :: s))
        as (st' & Hst' & ->); [by right | done..|]. by apply crows_end.
  - apply Forall_cons in Hlen as [Hlen Hlen'].
    rewrite fmap_cons.
    change (Csv.join_fields (Csv.join_append f :: (Csv.join_append <$> f' :: fs')))
      with (Csv.join_append f ++ [Csv.comma]
            ++ Csv.join_fields (Csv.join_append <$> f' :: fs')).
    rewrite <- !app_assoc. cbn [app].
    rewrite crows_field_comma by (done || by right).
    rewrite IH by done. by rewrite <- app_assoc.
Qed.

(** A record as [writerow] puts it is read back, and the reader starts
    afresh after it. *)
Lemma crows_writerow row s :
  Forall (fun f => (N.of_nat (length f) <= Csv.field_limit)%N) row ->
  crows Csv.parse_reset false (Csv.writerow row ++ s)
  = rows ← crows Csv.parse_reset false s; Ok (row :: rows).
Proof.
  intros Hlen. unfold Csv.writerow, Csv.parse_reset.
  destruct row as [|f [|f' fs']].
  - done.
  - apply Forall_cons in Hlen as [Hlen _]. cbn [fmap list_fmap Csv.join_fields].
    destruct (Csv.join_append f) as [|c j] eqn:Hj.
    + apply join_append_nil in Hj as ->. done.
    + rewrite <- Hj, <- app_assoc. cbn [app].
      destruct (crows_field Csv.START_RECORD f [] false (Csv.CR :: Csv.LF :: s))
        as (st' & Hst' & ->); [by left | by rewrite Hj | done |].
      by rewrite crows_end.
  - apply Forall_cons in Hlen as [Hlen Hlen'].
    rewrite fmap_cons.
    change (Csv.join_fields (Csv.join_append f :: (Csv.join_append <$> f' :: fs')))
      with (Csv.join_append f ++ [Csv.comma]
            ++ Csv.join_fields (Csv.join_append <$> f' :: fs')).
    assert (Hne : Csv.join_append f ++ [Csv.comma]
                  ++ Csv.join_fields (Csv.join_append <$> f' :: fs') <> []).
    { by destruct (Csv.join_append f). }
    destruct (Csv.join_append f ++ [Csv.comma]
              ++ Csv.join_fields (Csv.join_append <$> f' :: fs')) eqn:Hrec;
      [done|]. rewrite <- Hrec. clear Hrec Hne.
    rewrite <- !app_assoc. cbn [app].
    rewrite crows_field_comma by (done || by left).
    by rewrite crows_join.
Qed.

(** The rows that [csv.writer] wrote are the rows that [csv.reader] reads. *)
Lemma reader_rows_writerows rows :
  Forall (Forall (fun f => (N.of_nat (length f) <= Csv.field_limit)%N)) rows ->
  Csv.reader_rows (concat (Csv.writerow <$> rows)) = Ok rows.
Proof.
  intros Hlen. rewrite reader_rows_crows.
  induction Hlen as [|row rows Hrow _ IH]; [done|].
  rewrite fmap_cons. cbn [concat]. rewrite crows_writerow by done.
  rewrite IH. by bind_step.
Qed.

(** ** What the reader gives *)

Lemma within_limit_nil : within_limit [].
Proof. done. Qed.

Lemma reader_within_set_state r st :
  reader_within r -> reader_within (Csv.set_state r st).
Proof. done. Qed.

Lemma reader_within_save r :
  reader_within r -> reader_within (Csv.parse_save_field r).
Proof.
  intros [Hf Hfs]. split; [done|]. simpl.
  apply Forall_app. split; [done|]. by constructor.
Qed.

Lemma reader_within_add r c r' :
  reader_within r -> Csv.parse_add_char r c = Ok r' -> reader_within r'.
Proof.
  intros [Hf Hfs]. unfold Csv.parse_add_char.
  destruct (N.leb_spec Csv.field_limit (N.of_nat (length (Csv.field r))));
    [done|].
  intros [= <-]. split; [|done]. unfold within_limit. simpl.
  rewrite length_app. simpl. lia.
Qed.

Create HintDb csv.
#[local] Hint Resolve reader_within_set_state reader_within_save
  reader_within_add : csv.

Lemma reader_within_step r c r' :
  reader_within r -> Csv.parse_process_char r c = Ok r' -> reader_within r'.
Proof.
  intros Hr. unfold Csv.parse_process_char.
  destruct (Csv.state r), c as [ch|];
    repeat match goal with
      | |- context [if ?b then _ else _] => destruct b
      | |- context [Csv.parse_add_char ?x ?y ≫= _] =>
          let E := fresh "E" in
          destruct (Csv.parse_add_char x y) eqn:E; bind_step
      end;
    intros; simplify_eq; eauto 6 with csv.
Qed.

(** The parser raises nothing but [csv.Error]. *)
Lemma parse_process_char_error r c e :
  Csv.parse_process_char r c = Raise e -> exists msg, e = CsvError msg.
Proof.
  assert (Hadd : forall r0 c0, Csv.parse_add_char r0 c0 = Raise e ->
            exists msg, e = CsvError msg).
  { intros r0 c0. unfold Csv.parse_add_char.
    destruct (_ <=? _)%N; [|done]. intros [= <-]. by eexists. }
  unfold Csv.parse_process_char.
  destruct (Csv.state r), c as [ch|];
    repeat match goal with
      | |- context [if ?b then _ else _] => destruct b
      | |- context [Csv.parse_add_char ?x ?y ≫= _] =>
          let E := fresh "E" in
          destruct (Csv.parse_add_char x y) eqn:E; bind_step
      end;
    intros; simplify_eq; eauto.
Qed.

Lemma feed_line_within line : forall r r',
  reader_within r -> Csv.feed_line r line = Ok r' -> reader_within r'.
Proof.
  induction line as [|c line IH]; intros r r' Hr; simpl.
  - by apply reader_within_step.
  - destruct (Csv.parse_process_char r (Some c)) as [r1|e] eqn:E1; bind_step;
      [|done].
    apply IH. by eapply reader_within_step.
Qed.

Lemma feed_line_error line : forall r e,
  Csv.feed_line r line = Raise e -> exists msg, e = CsvError msg.
Proof.
  induction line as [|c line IH]; intros r e; simpl.
  - apply parse_process_char_error.
  - destruct (Csv.parse_process_char r (Some c)) as [r1|e1] eqn:E1; bind_step.
    + apply IH.
    + intros [= <-]. by eapply parse_process_char_error.
Qed.

(** After the end-of-line mark a record is finished or a quoted field is
    open. *)
Lemma feed_line_state line : forall r r',
  Csv.feed_line r line = Ok r' ->
  Csv.state r' = Csv.START_RECORD \/ Csv.state r' = Csv.IN_QUOTED_FIELD.
Proof.
  induction line as [|c line IH]; intros r r'; simpl.
  - unfold Csv.parse_process_char.
    destruct (Csv.state r) eqn:Hst; intros [= <-]; simpl; auto.
  - destruct (Csv.parse_process_char r (Some c)) as [r1|e1]; bind_step;
      [apply IH | done].
Qed.

Lemma records_from_within lines : forall r raw rs,
  reader_within r -> Csv.records_from r raw lines = Ok rs ->
  Forall (Forall within_limit) rs.*2.
Proof.
  induction lines as [|line lines IH]; intros r raw rs Hr.
  - cbn [Csv.records_from]. intros E.
    assert (rs = [] \/ rs = [(raw, Csv.fields (Csv.parse_save_field r))])
      as [-> | ->].
    { revert E. destruct (Csv.field r), (Csv.state r); intros [= <-]; auto. }
    + constructor.
    + constructor; [|constructor]. by apply reader_within_save.
  - simpl.
    destruct (Csv.feed_line r line) as [r'|e] eqn:Ef; bind_step; [|done].
    pose proof (feed_line_within _ _ _ Hr Ef) as Hr'.
    destruct (Csv.state r'); try by apply IH.
    destruct (Csv.records_from Csv.parse_reset [] lines) as [rest|e] eqn:Er;
      bind_step; [|done].
    intros [= <-]. rewrite fmap_cons. constructor; [apply Hr'|].
    eapply IH; [|done]. split; [done | constructor].
Qed.

Lemma records_from_error lines : forall r raw e,
  Csv.records_from r raw lines = Raise e -> exists msg, e = CsvError msg.
Proof.
  induction lines as [|line lines IH]; intros r raw e; simpl.
  - by destruct (Csv.field r), (Csv.state r).
  - destruct (Csv.feed_line r line) as [r'|e1] eqn:Ef; bind_step.
    2:{ intros [= <-]. by eapply feed_line_error. }
    destruct (Csv.state r'); try by apply IH.
    destruct (Csv.records_from Csv.parse_reset [] lines) as [rest|e1] eqn:Er;
      bind_step; [done|].
    intros [= <-]. by eapply IH.
Qed.

Lemma records_from_nonempty lines : forall r raw rs,
  lines <> [] \/ Csv.state r = Csv.IN_QUOTED_FIELD ->
  Csv.records_from r raw lines = Ok rs -> rs <> [].
Proof.
  induction lines as [|line lines IH]; intros r raw rs Hl; simpl.
  - destruct Hl as [?| ->]; [done|]. destruct (Csv.field r); by intros [= <-].
  - destruct (Csv.feed_line r line) as [r'|e1] eqn:Ef; bind_step; [|done].
    destruct (feed_line_state _ _ _ Ef) as [-> | Hq].
    + destruct (Csv.records_from Csv.parse_reset [] lines); bind_step;
        by intros [= <-].
    + rewrite Hq. apply IH. by right.
Qed.

Lemma lines_from_nonempty text : text <> [] -> Csv.lines_from [] text <> [].
Proof.
  destruct text as [|c s]; [done|]. intros _. simpl.
  destruct (c =? Csv.LF)%N; [done|].
  destruct (c =? Csv.CR)%N.
  - destruct s as [|c' s']; [done|]. by destruct (c' =? Csv.LF)%N.
  - destruct (lines_from_head s [c]) as (x & rest & ->); done.
Qed.

Lemma reader_rows_within text rows :
  Csv.reader_rows text = Ok rows -> Forall (Forall within_limit) rows.
Proof.
  unfold Csv.reader_rows, Csv.records.
  destruct (Csv.records_from _ _ _) as [rs|e] eqn:E; bind_step; [|done].
  intros [= <-]. eapply records_from_within; [|done].
  split; [done | constructor].
Qed.

Lemma load_csv_fields_within fs csv_path header rows :
  load_csv fs csv_path = Ok (header, rows) ->
  Forall (Forall within_limit) (header :: rows).
Proof.
  unfold load_csv. destruct (fs !! csv_path) as [content|]; [|done].
  destruct (Csv.reader_rows (decode_sig content)) as [rs|e] eqn:E; bind_step;
    [|done].
  destruct rs as [|h rs]; [done|]. intros [= <- <-].
  by eapply reader_rows_within.
Qed.

(** X11: the fields [load_csv] returns are within the reader's field
    limit of 131072 characters. *)
Theorem load_csv_within_limit fs csv_path header rows :
  load_csv fs csv_path = Ok (header, rows) ->
  Forall (Forall within_limit) (header :: rows).
Proof. apply load_csv_fields_within. Qed.

(** X12: [load_csv] reports an empty table exactly when the file has no
    character after the byte-order mark; a file with a line end only is a
    table whose header has no field. *)
Theorem load_csv_empty fs csv_path content :
  fs !! csv_path = Some content ->
  load_csv fs csv_path = Raise (ValueError (py "CSV is empty"))
  <-> decode_sig content = [].
Proof.
  intros Hc. unfold load_csv. rewrite Hc. split.
  - intros E. destruct (decide (decode_sig content = [])) as [|Hne]; [done|].
    exfalso. revert E. unfold Csv.reader_rows, Csv.records.
    destruct (Csv.records_from _ _ _) as [rs|e] eqn:Er; bind_step.
    + apply records_from_nonempty in Er;
        [|left; by apply lines_from_nonempty].
      by destruct rs.
    + apply records_from_error in Er as [msg ->]. done.
  - by intros ->.
Qed.

(** X13: what [dump_csv] wrote, [load_csv] reads back: the same header and
    the same rows, when no field is longer than the reader's limit. *)
Theorem load_csv_dump_csv fs csv_path header rows fs' :
  dump_csv fs csv_path header rows = (fs', Ok ()) ->
  Forall (Forall within_limit) (header :: rows) ->
  load_csv fs' csv_path = Ok (header, rows).
Proof.
  unfold dump_csv.
  destruct (write_all true _) as [text r] eqn:Ew. intros [= <- ->] Hlen.
  apply write_all_ok in Ew. subst text.
  unfold load_csv. rewrite lookup_insert_eq.
  change (decode_sig _) with (concat (Csv.writerow <$> header :: rows)).
  rewrite reader_rows_writerows by done. by bind_step.
Qed.

Section Output.

Context `{Library}.

(** X14: the table that a successful [process] wrote is one that
    [load_csv] reads: with the header of the input, the first row as
    [update_rules_in_row] left it and the other rows as they were read,
    when the fields of the new first row are within the reader's limit. *)
Theorem process_output_loads fs csv_path ip_txt_path output_path in_place
    make_backup keep_ids fs' counts header row rows ip_values row' :
  process fs csv_path ip_txt_path output_path in_place make_backup keep_ids
  = (fs', Ok counts) ->
  load_csv fs csv_path = Ok (header, row :: rows) ->
  read_ip_list fs ip_txt_path = Ok ip_values ->
  update_rules_in_row header row ip_values keep_ids = Ok (row', counts) ->
  Forall within_limit row' ->
  load_csv fs' (out_path csv_path output_path in_place)
  = Ok (header, row' :: rows).
Proof.
  destruct counts as [a s]. intros E El Ei Eu Hrow'.
  apply process_inv in E
    as (header0 & row0 & rows0 & ip0 & row0' & fs1 & El0 & Ei0 & Eu0 & _ & ->).
  rewrite El in El0. injection El0 as <- <- <-.
  rewrite Ei in Ei0. injection Ei0 as <-.
  rewrite Eu in Eu0. injection Eu0 as <-.
  apply load_csv_fields_within in El.
  apply Forall_cons in El as [Hh Hrows]. apply Forall_cons in Hrows as [_ Hrows].
  unfold load_csv. rewrite lookup_insert_eq.
  change (decode_sig _)
    with (concat (Csv.writerow <$> header :: row' :: rows)).
  rewrite reader_rows_writerows by (by repeat constructor).
  by bind_step.
Qed.

(** X15: without [in_place] and without an output path, [process] writes
    beside the input, never over it, [os.path.splitext] cutting the path
    in two. *)
Theorem process_default_keeps_input fs csv_path ip_txt_path output_path
    make_backup keep_ids :
  output_path = None \/ output_path = Some [] ->
  (splitext csv_path).1 ++ (splitext csv_path).2 = csv_path ->
  (process fs csv_path ip_txt_path output_path false make_backup keep_ids).1
    !! csv_path = fs !! csv_path.
Proof.
  intros Hout Hsplit.
  assert (Hne : csv_path <> out_path csv_path output_path false).
  { unfold out_path. destruct (splitext csv_path) as [root ext].
    simpl in Hsplit. intros E.
    assert (E' : csv_path
                 = root ++ py ".updated"
                   ++ match ext with [] => py ".csv" | _ :: _ => ext end)
      by by destruct Hout as [-> | ->].
    apply (f_equal length) in E'. rewrite <- Hsplit in E'.
    rewrite !length_app in E'.
    destruct ext; simpl in E'; lia. }
  unfold process.
  destruct (load_csv fs csv_path) as [[header data_rows]|e]; [|done].
  destruct (read_ip_list fs ip_txt_path) as [ip_values|e]; [|done].
  destruct data_rows as [|row rows]; [done|].
  destruct (update_rules_in_row header row ip_values keep_ids)
    as [[row' [a s]]|e]; [|done].
  cbn [andb]. unfold dump_csv. destruct (write_all true _) as [text r].
  simpl. by rewrite lookup_insert_ne.
Qed.

End Output.

(** ** The two modes *)

(** X16: [keep_ids] changes ids only: with and without it the new list has
    the same items in the same order, equal apart from ["id"], and the
    same numbers of rules are added and skipped. *)
Theorem keep_ids_changes_ids_only rules_list m m' ip_values :
  let kept := rebuild rules_list m ip_values true in
  let renumbered := rebuild rules_list m' ip_values false in
  erase_id <$> rules_out kept = erase_id <$> rules_out renumbered
  /\ rb_added kept = rb_added renumbered
  /\ rb_skipped kept = rb_skipped renumbered.
Proof.
  cbv zeta. split; [by rewrite !rules_out_erase|].
  destruct (rebuild_counts rules_list m ip_values true) as (-> & -> & _).
  by destruct (rebuild_counts rules_list m' ip_values false) as (-> & -> & _).
Qed.

(** ** The claims on examples *)

#[local] Existing Instance example_library.

(** An item that is not a dict is kept and counts in the length of the new
    list, but gets no id: the ids are 1..k for the [k] rules, not
    1..len(output). *)
Lemma passthrough_item_has_no_id :
  let out := rules_out (rebuild (VInt 5 :: example_rules) 7 [] false) in
  length out = 2%nat
  /\ rule_ids out = consecutive 1 1
  /\ rule_ids out <> consecutive 1 (length out)
  /\ rule_id <$> out <> consecutive 1 (length out).
Proof. repeat split; vm_compute; congruence. Qed.

(** C2 on an allow-list of an address that has a rule and one that has
    none. *)
Lemma renumbered_in_order_witness :
  let out := rules_out (rebuild example_rules 7
                          [py "9.9.9.9"; py "5.6.7.8"] false) in
  rule_ids out = consecutive 1 (length (rule_ids out)).
Proof.
  apply (renumbered_in_order example_rules 7 [py "9.9.9.9"; py "5.6.7.8"]).
  apply (bool_decide_unpack _). vm_compute. exact I.
Defined.

(** The defect behind C4, seen on the ids: an allow-list that names twice
    an address that has a rule puts that one rule object twice in the new
    list; renumbering then assigns to it twice, and both places show the
    second id, 2, 2 instead of 1, 2. *)
Lemma duplicate_entry_repeats_id :
  let out := rules_out (rebuild example_rules 7
                          [py "5.6.7.8"; py "5.6.7.8"] false) in
  rule_ids out = [Some (VInt 2); Some (VInt 2)]
  /\ rule_ids out <> consecutive 1 (length out).
Proof. split; [by vm_compute | vm_compute; congruence]. Qed.

(** C4, a defect: an address that the allow-list names twice gets two rules
    in the new list, synthesized twice when no rule exists for it, the one
    existing rule twice when one does. *)
Theorem duplicate_entry_repeats_rule :
  length (filter (fun v => src_ip_key v = Some (py "9.9.9.9"))
            (rules_out (rebuild [] 0 [py "9.9.9.9"; py "9.9.9.9"] false)))
  = 2%nat
  /\ length (filter (fun v => src_ip_key v = Some (py "5.6.7.8"))
               (rules_out (rebuild example_rules 7
                             [py "5.6.7.8"; py "5.6.7.8"] true)))
     = 2%nat.
Proof. split; by vm_compute. Qed.

(** C1 on a row with two rules for one address, the first with white
    space around it, and an allow-list with blanks: the first rule is
    reused, the other is dropped. *)
Lemma top_block_one_rule_per_entry_witness :
  exists rules out entries,
    rewrites (H := example_library) [py "name"; py "rules"]
      [py "a"; example_rules_spaced_text]
      [py "a";
       example_dumps
         (VList [VDict [(py "src_ip", VStr (py " 1.1.1.1 ")); (py "id", VInt 1);
                        (py "enable", VInt 0)];
                 VDict (build_allow_rule (py "9.9.9.9") 2);
                 VDict [(py "src_ip", VStr (py "8.8.8.8")); (py "id", VInt 3)]])]
      rules out
    /\ allow_list_entries [py " 1.1.1.1"; py "9.9.9.9 "; py "  "] entries
    /\ Forall2 (entry_rule rules) entries (take (length entries) out).
Proof.
  apply (proj1 (top_block_one_rule_per_entry (H := example_library))
           [py "name"; py "rules"] [py "a"; example_rules_spaced_text]
           [py " 1.1.1.1"; py "9.9.9.9 "; py "  "] false _ (1%nat, 1%nat)).
  vm_compute. reflexivity.
Defined.

(** C3 on the same rules, with a ["rulesv6"] field whose rule has the id
    12: the new rules get 13 and 14, the reused rule keeps 3. *)
Lemma keep_ids_assignment_witness :
  exists rules out entries m,
    rewrites (H := example_library) [py "rulesv6"; py "rules"]
      [example_rulesv6_text; example_rules_spaced_text]
      [example_rulesv6_text;
       example_dumps
         (VList [VDict (build_allow_rule (py "9.9.9.9") 13);
                 VDict [(py "src_ip", VStr (py " 1.1.1.1 ")); (py "id", VInt 3);
                        (py "enable", VInt 0)];
                 VDict (build_allow_rule (py "7.7.7.7") 14);
                 VDict [(py "src_ip", VStr (py "8.8.8.8")); (py "id", VInt 5)]])]
      rules out
    /\ allow_list_entries [py "9.9.9.9"; py " 1.1.1.1"; py "7.7.7.7"] entries
    /\ highest_id (H := example_library)
         (rules ++ rulesv6_rules (H := example_library)
                     [py "rulesv6"; py "rules"]
                     [example_rulesv6_text; example_rules_spaced_text]) m
    /\ kept_block rules (m + 1) entries (take (length entries) out)
    /\ drop (length entries) out = rest_values entries rules.
Proof.
  apply (keep_ids_assignment (H := example_library)
           [py "rulesv6"; py "rules"]
           [example_rulesv6_text; example_rules_spaced_text]
           [py "9.9.9.9"; py " 1.1.1.1"; py "7.7.7.7"] _ (2%nat, 1%nat)).
  vm_compute. reflexivity.
Defined.

(** C5 on a row with one rule and an allow-list of two entries, and on the
    example table. *)
Lemma added_skipped_counts_witness :
  (exists i rules_list rulesv6_list,
     decode_row (H := example_library) [py "name"; py "rules"]
       [py "a"; example_rules_text] = Ok (i, rules_list, rulesv6_list)
     /\ counts_of rules_list [py "9.9.9.9"; py " 5.6.7.8"] 1 1)
  /\ (exists header row rows ip_values row',
        load_csv example_files (py "t.csv") = Ok (header, row :: rows)
        /\ read_ip_list example_files (py "ip.txt") = Ok ip_values
        /\ update_rules_in_row (H := example_library) header row ip_values false
           = Ok (row', (1%nat, 0%nat))).
Proof.
  split.
  - eapply (proj1 (added_skipped_counts (H := example_library))
              _ _ _ false). reflexivity.
  - eapply (proj2 (added_skipped_counts (H := example_library))
              example_files (py "t.csv") (py "ip.txt") None true true false).
    reflexivity.
Defined.

(** The failures C6 names are not all: a row that is shorter than the
    header raises too.  Here the first data row is the empty row that
    [csv.reader] gives for a blank line. *)
Lemma short_row_raises :
  ~ ((exists e, update_rules_in_row (H := example_library)
                  [py "rules"] [] [] false = Raise e)
     <-> claimed_failure (H := example_library) [py "rules"] []).
Proof.
  intros [Hraise _].
  destruct Hraise as [Hi|(raw & (i & Hi & Hr) & _)].
  - by exists IndexError.
  - vm_compute in Hi. discriminate.
  - vm_compute in Hi. injection Hi as <-. discriminate.
Qed.

(** C6 on a ["rules"] field that does not decode, on one that makes
    [json.loads] raise [RecursionError], and on a ["rulesv6"] field that
    does. *)
Lemma update_rules_in_row_raises_witness :
  (update_rules_in_row (H := example_library) [py "rules"] [py "x"] [] false
   = Raise (ValueError
              (py "Failed to parse JSON from CSV field. Error: "
               ++ py "Expecting value: line 1 column 1 (char 0)"
               ++ [10%N] ++ py "Value (truncated): " ++ take 2000 (py "x")))
   /\ (length (take 2000 (py "x")) <= 2000)%nat)
  /\ update_rules_in_row (H := example_library) [py "rules"]
       [example_deep_text] [] false
     = Raise RecursionError
  /\ exists e, update_rules_in_row (H := example_library)
                 [py "rules"; py "rulesv6"] [py "[]"; example_deep_text]
                 [] false
               = Raise e.
Proof.
  split; [|split].
  - apply (proj1 (proj2 (update_rules_in_row_raises (H := example_library)
                           [py "rules"] [py "x"] [] false))).
    + exists 0%nat. split; reflexivity.
    + discriminate.
    + reflexivity.
  - apply (proj2 (proj2 (update_rules_in_row_raises (H := example_library)
                           [py "rules"] [example_deep_text] [] false))
             example_deep_text).
    + exists 0%nat. split; reflexivity.
    + discriminate.
    + vm_compute. reflexivity.
  - apply (proj1 (update_rules_in_row_raises (H := example_library)
                    [py "rules"; py "rulesv6"] [py "[]"; example_deep_text]
                    [] false)).
    do 4 right. left. exists 1%nat, example_deep_text, RecursionError.
    split; [reflexivity|]. split; [reflexivity|]. split; [discriminate|].
    split; [vm_compute; reflexivity|]. intros Hv. inversion Hv.
Defined.

(** The same on the whole function: with an empty ["rules"] field, brackets
    nested too deep in the ["rulesv6"] field make [update_rules_in_row]
    raise [RecursionError], which [except ValueError] lets through. *)
Lemma deep_rulesv6_raises :
  update_rules_in_row (H := example_library) [py "rules"; py "rulesv6"]
    [[]; example_deep_text] [py "1.2.3.4"] false
  = Raise RecursionError.
Proof. by vm_compute. Qed.

(** An empty ["rules"] field does not keep [update_rules_in_row] from
    raising when the row has no cell under the ["rulesv6"] column. *)
Lemma empty_rules_field_short_row :
  index [py "rules"; py "rulesv6"] (py "rules") = Some 0%nat
  /\ [@nil N] !! 0%nat = Some []
  /\ update_rules_in_row (H := example_library)
       [py "rules"; py "rulesv6"] [[]] [py "1.2.3.4"] false
     = Raise IndexError.
Proof. repeat split; reflexivity. Qed.

(** C10 on a row whose ["rulesv6"] field holds a rule with id 7: the new
    rules are numbered from 8. *)
Lemma empty_rules_field_witness :
  update_rules_in_row (H := example_library) [py "rulesv6"; py "rules"]
    [example_rules_text; []] [py " 1.2.3.4"; py "5.6.7.8 "] true
  = Ok ([example_rules_text;
         example_dumps
           (VList [VDict (build_allow_rule (py "1.2.3.4") 8);
                   VDict (build_allow_rule (py "5.6.7.8") 9)])],
        (2%nat, 0%nat)).
Proof.
  destruct (proj2 (proj2 (proj2
              (empty_rules_field (H := example_library)
                 [py "rulesv6"; py "rules"] [example_rules_text; []]
                 [py " 1.2.3.4"; py "5.6.7.8 "] true 1 eq_refl))) eq_refl)
    as (v6 & Hd & Hu).
  - intros (j & Hj & Hrow). vm_compute in Hj. injection Hj as <-.
    discriminate.
  - intros (j & raw & e & Hj & Hrow & _ & Hl & _).
    vm_compute in Hj. injection Hj as <-.
    vm_compute in Hrow. injection Hrow as <-.
    vm_compute in Hl. discriminate.
  - vm_compute in Hd. injection Hd as <-. exact Hu.
Defined.

(** A table with LF line ends is written with CRLF line ends: the text of
    the row after the first data row is not what it was. *)
Lemma line_ends_rewritten :
  let r := process (H := example_library) example_files
             (py "t.csv") (py "ip.txt") None true false false in
  r.2 = Ok (1%nat, 0%nat)
  /\ exists output,
       r.1 !! py "t.csv" = Some output
       /\ ~ rows_verbatim example_table output.
Proof.
  cbv zeta. split; [by vm_compute|].
  eexists. split; [by vm_compute|].
  intros (rin & rout & Hin & Hout & _ & Hrows).
  vm_compute in Hin. vm_compute in Hout.
  injection Hin as <-. injection Hout as <-.
  specialize (Hrows 2%nat ltac:(done)). vm_compute in Hrows. discriminate.
Qed.

(** C9 on the example table, written to a new file. *)
Lemma output_rows_preserved_witness :
  exists header row rows i new_rules,
    load_csv example_files (py "t.csv") = Ok (header, row :: rows)
    /\ index header (py "rules") = Some i
    /\ (process (H := example_library) example_files (py "t.csv")
          (py "ip.txt") None false true false).1
       !! out_path (H := example_library) (py "t.csv") None false
       = Some (BOM :: concat (Csv.writerow <$>
                                header :: <[i := new_rules]> row :: rows)).
Proof.
  eapply (output_rows_preserved (H := example_library) example_files
            (py "t.csv") (py "ip.txt") None false true false _ (1%nat, 0%nat)).
  vm_compute. reflexivity.
Defined.

(** ** The further properties on examples *)

Lemma second_run_keep_ids_fixed_witness :
  let out := rules_out (rebuild example_rules 7
                          [py "9.9.9.9"; py "5.6.7.8"] false) in
  rules_out (rebuild out 2 [py "9.9.9.9"; py "5.6.7.8"] true) = out.
Proof.
  apply (second_run_keep_ids_fixed example_rules 7
           [py "9.9.9.9"; py "5.6.7.8"] false 2).
  apply (bool_decide_unpack _). vm_compute. exact I.
Defined.

Lemma rules_out_renumbered_witness :
  rules_out (rebuild example_rules 7 [py "9.9.9.9"; py "5.6.7.8"] false)
  = renumber_values 1
      ((top_value example_rules <$> ip_order [py "9.9.9.9"; py "5.6.7.8"])
       ++ filter (fun v => ~ listed (ip_order [py "9.9.9.9"; py "5.6.7.8"]) v)
            example_rules).
Proof.
  apply (rules_out_renumbered example_rules 7 [py "9.9.9.9"; py "5.6.7.8"]).
  apply (bool_decide_unpack _). vm_compute. exact I.
Defined.

Lemma second_run_renumber_fixed_witness :
  let out := rules_out (rebuild example_rules 7
                          [py "9.9.9.9"; py "5.6.7.8"] false) in
  rules_out (rebuild out 2 [py "9.9.9.9"; py "5.6.7.8"] false) = out.
Proof.
  apply (second_run_renumber_fixed example_rules 7
           [py "9.9.9.9"; py "5.6.7.8"] 2).
  apply (bool_decide_unpack _). vm_compute. exact I.
Defined.

Lemma update_rules_in_row_frame_witness :
  let row := [py "a"; py "[]"] in
  let row' := [py "a";
               example_dumps
                 (VList (rules_out (rebuild [] 0 [py "1.2.3.4"] false)))] in
  length row' = length row
  /\ exists i, index [py "name"; py "rules"] (py "rules") = Some i
      /\ (i < length row)%nat
      /\ forall j, j <> i -> row' !! j = row !! j.
Proof.
  apply (update_rules_in_row_frame (H := example_library)
           [py "name"; py "rules"] [py "a"; py "[]"] [py "1.2.3.4"] false
           _ (1%nat, 0%nat)).
  vm_compute. reflexivity.
Defined.

Lemma process_frame_witness :
  (process (H := example_library) example_files (py "t.csv") (py "ip.txt")
     None true true false).1 !! py "ip.txt"
  = example_files !! py "ip.txt".
Proof.
  apply (process_frame (H := example_library) example_files (py "t.csv")
           (py "ip.txt") None true true false (py "ip.txt")).
  - vm_compute. discriminate.
  - left. vm_compute. discriminate.
Defined.

Lemma read_ip_list_entries_witness :
  read_ip_list example_files (py "none.txt")
  = Raise (FileNotFoundError (py "IP list file not found: " ++ py "none.txt"))
  /\ Forall (fun v => trimmed v /\ v <> []
                      /\ startswith v (py "#") = false) [py "1.2.3.4"]
  /\ ip_order [py "1.2.3.4"] = [py "1.2.3.4"].
Proof.
  split.
  - apply (proj1 (read_ip_list_entries example_files (py "none.txt"))).
    vm_compute. reflexivity.
  - apply (proj2 (read_ip_list_entries example_files (py "ip.txt"))
             [py "1.2.3.4"]).
    vm_compute. reflexivity.
Defined.

Lemma load_csv_within_limit_witness :
  Forall (Forall within_limit)
    ([py "rules"; py "name"] :: [[py "[]"; py "a"]; [py "x"; py "y"]]).
Proof.
  apply (load_csv_within_limit example_files (py "t.csv")).
  vm_compute. reflexivity.
Defined.

Lemma load_csv_empty_witness :
  load_csv (<[py "e.csv" := [BOM]]> example_files) (py "e.csv")
  = Raise (ValueError (py "CSV is empty"))
  <-> decode_sig [BOM] = [].
Proof.
  apply (load_csv_empty (<[py "e.csv" := [BOM]]> example_files) (py "e.csv")
           [BOM]).
  vm_compute. reflexivity.
Defined.

Lemma load_csv_dump_csv_witness :
  let header := [py "rules"; py "name"; []] in
  let rows := [[py "[1, 2]"; py "say " ++ [34%N] ++ py "hi" ++ [34%N]; []];
               [[]];
               [py "x" ++ [13%N; 10%N] ++ py "y"]] in
  load_csv (dump_csv example_files (py "o.csv") header rows).1 (py "o.csv")
  = Ok (header, rows).
Proof.
  cbv zeta.
  apply (load_csv_dump_csv example_files (py "o.csv")).
  - vm_compute. reflexivity.
  - repeat constructor; vm_compute; discriminate.
Defined.

Lemma process_output_loads_witness :
  load_csv
    (process (H := example_library) example_files (py "t.csv") (py "ip.txt")
       None false true false).1
    (out_path (H := example_library) (py "t.csv") None false)
  = Ok ([py "rules"; py "name"],
        [ [example_dumps
             (VList (rules_out (rebuild [] 0 [py "1.2.3.4"] false)));
           py "a"];
          [py "x"; py "y"] ]).
Proof.
  apply (process_output_loads (H := example_library) example_files
           (py "t.csv") (py "ip.txt") None false true false _ (1%nat, 0%nat)
           [py "rules"; py "name"] [py "[]"; py "a"] [[py "x"; py "y"]]
           [py "1.2.3.4"]).
  - vm_compute. reflexivity.
  - vm_compute. reflexivity.
  - vm_compute. reflexivity.
  - vm_compute. reflexivity.
  - repeat constructor; vm_compute; discriminate.
Defined.

Lemma process_default_keeps_input_witness :
  (process (H := example_library) example_files (py "t.csv") (py "ip.txt")
     None false true false).1 !! py "t.csv"
  = example_files !! py "t.csv".
Proof.
  apply (process_default_keeps_input (H := example_library) example_files
           (py "t.csv") (py "ip.txt") None true false).
  - left. reflexivity.
  - vm_compute. reflexivity.
Defined.
